(** * typic.serde.resolver: the annotation resolver and its protocol cache

    A shallow embedding of [src/typic/serde/resolver.py] (class [Resolver]):
    [annotation], [_get_configuration], [_resolve_from_annotation],
    [resolve], [transmute] and [coerce_value], with the resolver's mutable
    state (the protocol cache [__cache], the in-flight set [__stack] and the
    three [lru_cache] memo tables) threaded explicitly.

    Everything the module imports from the rest of the package
    ([typic.checks], [typic.util], [typic.common], the serializer,
    deserializer and constraint factories) is a field of the record [Env]:
    the definitions below are stated for every such environment. *)

From stdpp Require Import base decidable option list strings.
From Stdlib Require Import Ascii Lia.

#[local] Set Warnings "-register-all".


(** ** Python dictionaries

    A [dict] keeps its keys unique and in insertion order; assigning to an
    existing key keeps the key's position. *)

Section PyDict.
Context {K V : Type} `{EqDecision K}.

Definition dict : Type := list (K * V).

Fixpoint dget (k : K) (d : dict) : option V :=
  match d with
  | [] => None
  | (k', v) :: d' => if decide (k = k') then Some v else dget k d'
  end.

Fixpoint dset (k : K) (v : V) (d : dict) : dict :=
  match d with
  | [] => [(k, v)]
  | (k', v') :: d' =>
      if decide (k = k') then (k, v) :: d' else (k', v') :: dset k v d'
  end.

(** [d.update(other)] *)
Definition dupdate (d other : dict) : dict :=
  fold_left (fun acc kv => dset kv.1 kv.2 acc) other d.

(** A dict display or comprehension: the items are assigned left to right. *)
Definition dict_of (items : list (K * V)) : dict := dupdate [] items.

Definition dkeys (d : dict) : list K := map fst d.

Definition dmem (k : K) (d : dict) : bool := bool_decide (is_Some (dget k d)).

(** The value the last item with key [k] gives it, in a list of items that
    may repeat a key. *)
Fixpoint last_item (k : K) (items : list (K * V)) : option V :=
  match items with
  | [] => None
  | (k', v) :: items' =>
      match last_item k items' with
      | Some v' => Some v'
      | None => if decide (k = k') then Some v else None
      end
  end.

End PyDict.

Arguments dict : clear implicits.

(** ** The data model *)

(** [typic.common.Case]: the case styles a flag block can ask for. *)
Inductive Case := CAMEL | SNAKE | PASCAL | KEBAB | DOT.

(** The [kind] of an [inspect.Parameter]. *)
Inductive ParamKind :=
  | POSITIONAL_ONLY | POSITIONAL_OR_KEYWORD | VAR_POSITIONAL
  | KEYWORD_ONLY | VAR_KEYWORD.

(** A strictness argument is [None], a [bool], or the process-wide
    [STRICT_MODE] object, whose truth value is the current global mode. *)
Inductive PyStrict := SNone | SBool (b : bool) | STRICT_MODE.

(** The classes listed in [Resolver.LITERALS]. *)
Inductive LiteralClass := Cint | Cbytes | Cstr | Cbool | CEnum | CNoneType.

#[global] Instance Case_eq_dec : EqDecision Case.
Proof. solve_decision. Defined.
#[global] Instance ParamKind_eq_dec : EqDecision ParamKind.
Proof. solve_decision. Defined.
#[global] Instance PyStrict_eq_dec : EqDecision PyStrict.
Proof. solve_decision. Defined.

Section Types.
(** [T]: hashable Python objects (types, typing forms, values);
    [Ext]: the callables and constraint objects the external factories
    build; [ExtExn]: the exceptions those collaborators raise. *)
Context {T Ext ExtExn : Type}.

(** [flags.fields] is either a mapping (renames) or a plain collection of
    names. *)
Inductive FieldsSpec :=
  | FieldsMapping (m : dict string string)
  | FieldsNames (l : list string).

Record SerdeFlags := mkSerdeFlags {
  flags_fields : FieldsSpec;
  flags_exclude : list string;
  flags_omit : list T;
  flags_case : option Case;
  flags_signature_only : bool;
}.

Record Param := mkParam {
  param_name : string;
  param_kind : ParamKind;
  param_annotation : T;
  param_default : T;
}.

Inductive AnnotationT :=
  | Annotation (resolved origin un_resolved : T) (parameter : Param)
      (optional : bool) (strict : PyStrict) (static : bool)
      (serde : SerdeConfig)
  | DelayedAnnotation (type : T) (_name : option string)
      (parameter : Param) (is_optional : bool) (is_strict : PyStrict)
      (flags : SerdeFlags) (default : T)
  | ForwardDelayedAnnotation (ref : T) (_name : option string)
      (parameter : Param) (is_optional : bool) (is_strict : PyStrict)
      (flags : SerdeFlags) (default : T) (module : string)
with SerdeConfig :=
  | mkSerdeConfig (flags : SerdeFlags)
      (fields : list (string * AnnotationT))
      (fields_out : dict string string)
      (fields_in : dict string string)
      (fields_getters : dict string string)
      (omit_values : list T).

Definition serde_flags (c : SerdeConfig) : SerdeFlags :=
  let 'mkSerdeConfig f _ _ _ _ _ := c in f.
Definition serde_fields (c : SerdeConfig) : dict string AnnotationT :=
  let 'mkSerdeConfig _ f _ _ _ _ := c in f.
Definition serde_fields_out (c : SerdeConfig) : dict string string :=
  let 'mkSerdeConfig _ _ f _ _ _ := c in f.
Definition serde_fields_in (c : SerdeConfig) : dict string string :=
  let 'mkSerdeConfig _ _ _ f _ _ := c in f.
Definition serde_fields_getters (c : SerdeConfig) : dict string string :=
  let 'mkSerdeConfig _ _ _ _ f _ := c in f.
Definition serde_omit_values (c : SerdeConfig) : list T :=
  let 'mkSerdeConfig _ _ _ _ _ f := c in f.

Inductive ProtocolT :=
  | SerdeProtocol (oid : nat) (annotation : AnnotationT)
      (deserializer serializer constraints validator : option Ext)
  | DelayedSerdeProtocol (oid : nat) (delayed : AnnotationT).

Inductive Exn :=
  | TypeError (args : list T)
  | KeyError (key : string)
  | RecursionError
  | Raised (e : ExtExn).

Inductive Result (A : Type) :=
  | Ok (a : A)
  | Raise (e : Exn).

Context `{EqDecision T, EqDecision Ext}.

#[global] Instance FieldsSpec_eq_dec : EqDecision FieldsSpec.
Proof. solve_decision. Defined.
#[global] Instance SerdeFlags_eq_dec : EqDecision SerdeFlags.
Proof. solve_decision. Defined.
#[global] Instance Param_eq_dec : EqDecision Param.
Proof. solve_decision. Defined.

(** Dataclass equality: field by field, through the nested field table. *)
Fixpoint AnnotationT_eq_dec (a b : AnnotationT) {struct a} : Decision (a = b)
with SerdeConfig_eq_dec (c d : SerdeConfig) {struct c} : Decision (c = d).
Proof.
  - unfold Decision. decide equality; try apply (decide (_ = _)).
  - unfold Decision. decide equality; try apply (decide (_ = _)).
    clear -AnnotationT_eq_dec. revert fields0.
    induction fields as [|[n1 a1] l1 IH]; intros [|[n2 a2] l2];
      [left; reflexivity | right; discriminate | right; discriminate |].
    destruct (decide (n1 = n2)) as [->|]; [|right; congruence].
    destruct (AnnotationT_eq_dec a1 a2) as [->|]; [|right; congruence].
    destruct (IH l2) as [->|]; [left|right]; congruence.
Defined.
#[global] Instance AnnotationT_EqDecision : EqDecision AnnotationT :=
  AnnotationT_eq_dec.
#[global] Instance SerdeConfig_EqDecision : EqDecision SerdeConfig :=
  SerdeConfig_eq_dec.

#[global] Instance ProtocolT_eq_dec : EqDecision ProtocolT.
Proof. solve_decision. Defined.

End Types.

Arguments SerdeFlags : clear implicits.
Arguments Param : clear implicits.
Arguments AnnotationT : clear implicits.
Arguments SerdeConfig : clear implicits.
Arguments ProtocolT : clear implicits.
Arguments Exn : clear implicits.
Arguments Result : clear implicits.
Arguments Ok {T ExtExn A} a.
Arguments Raise {T ExtExn A} e.
Arguments RecursionError {T ExtExn}.
Arguments KeyError {T ExtExn} key.
Arguments TypeError {T ExtExn} args.
Arguments Raised {T ExtExn} e.

(** ** The resolver's state *)

Section State.
Context {T Ext : Type}.

(** The arguments of one [resolve] call: the key of its [lru_cache]. *)
Record ResolveArgs := mkResolveArgs {
  ra_annotation : T;
  ra_flags : option (SerdeFlags T);
  ra_name : option string;
  ra_parameter : option (Param T);
  ra_is_optional : option bool;
  ra_is_strict : PyStrict;
  ra_namespace : option T;
  ra_des : bool;
  ra_ser : bool;
}.

(** [cache] is [self.__cache], [stack] is [self.__stack]; the three [lru_*]
    tables belong to the [lru_cache] decorators of [_get_configuration],
    [_resolve_from_annotation] and [resolve]. [next_oid] numbers the
    protocol objects as they are constructed (object identity), [builds]
    counts the runs of the protocol-building part of
    [_resolve_from_annotation], and [strict_mode] is the truth value of
    the global [STRICT_MODE]. *)
Record State := mkState {
  cache : dict (AnnotationT T) (ProtocolT T Ext);
  stack : list T;
  lru_get_configuration : dict (T * SerdeFlags T) (SerdeConfig T);
  lru_resolve_from_annotation :
    dict (AnnotationT T * bool * bool * option T) (ProtocolT T Ext);
  lru_resolve : dict ResolveArgs (ProtocolT T Ext);
  next_oid : nat;
  builds : nat;
  strict_mode : bool;
}.

Context `{EqDecision T, EqDecision Ext}.

#[global] Instance ResolveArgs_eq_dec : EqDecision ResolveArgs.
Proof. solve_decision. Defined.

End State.

Arguments ResolveArgs : clear implicits.
Arguments State : clear implicits.

(** ** The environment: what the module imports *)

Record Env {T Ext ExtExn : Type} := mkEnv {
  (* Python objects and built-ins *)
  PyNone : T;
  PyEllipsis : T;
  PyNotImplemented : T;
  PyCallable : T;                          (* collections.abc.Callable *)
  is_ForwardRef : T -> bool;               (* [x.__class__ is ForwardRef] *)
  isinstance : T -> LiteralClass -> bool;
  dunder_args : T -> option (list T);      (* [getattr(x, "__args__", None)] *)
  Union_ : list T -> T;                    (* [Union[args]] *)
  Optional_ : T -> T;                      (* [Optional[t]] *)
  dunder_module : T -> string;             (* [x.__module__] *)
  getattr : T -> string -> option T;       (* [getattr(x, name, <absent>)] *)
  set_iter : list string -> list string;   (* iteration order of a [set] *)
  recursionlimit : nat;                    (* frames left before RecursionError *)
  (* typic.common *)
  EMPTY : T;
  SERDE_FLAGS_ATTR : T -> option (SerdeFlags T);
  Case_transformer : Case -> string -> string;
  (* typic.checks *)
  checks_isoptionaltype : T -> bool;
  checks_isstrict : T -> bool;
  checks_isliteral : T -> bool;
  checks_should_unwrap : T -> bool;
  checks_isstdlibtype : T -> bool;
  checks_ishashable : T -> bool;
  checks_type_check : T -> bool;
  checks_STDLIB_TYPES : list T;
  (* typic.util *)
  util_resolve_supertype : T -> T;
  util_origin : T -> T;
  util_get_args : T -> list T;
  util_get_name : T -> string;
  util_safe_get_params : T -> list string;
  util_cached_type_hints : T -> dict string T;
  (* a bound on the nesting of a type description, see [unwrap] *)
  rank : T -> nat;
  (* typic.serde: SerFactory._DYNAMIC, the factories, the protocol classes *)
  _DYNAMIC : list T;
  delayed_origin : AnnotationT T -> Result T ExtExn T;
  constr_get_constraints : T -> bool -> option T -> Result T ExtExn Ext;
  des_factory :
    AnnotationT T -> Ext -> option T -> Result T ExtExn (Ext * Ext);
  ser_factory : AnnotationT T -> Result T ExtExn Ext;
  proto_transmute :
    ProtocolT T Ext -> T -> State T Ext -> Result T ExtExn T * State T Ext;
}.

Arguments Env : clear implicits.

(** ** The embedding *)

Section Resolver.
Context {T Ext ExtExn : Type} `{EqDecision T, EqDecision Ext}.
Context (E : Env T Ext ExtExn).

#[local] Abbreviation SerdeFlags := (SerdeFlags T).
#[local] Abbreviation Param := (Param T).
#[local] Abbreviation AnnotationT := (AnnotationT T).
#[local] Abbreviation SerdeConfig := (SerdeConfig T).
#[local] Abbreviation ProtocolT := (ProtocolT T Ext).
#[local] Abbreviation Result := (Result T ExtExn).
#[local] Abbreviation State := (State T Ext).
#[local] Abbreviation ResolveArgs := (ResolveArgs T).

(** Computations that read and write the resolver's state and may raise.
    A raise keeps the state as it was when the exception left. *)
Definition M (A : Type) : Type := State -> Result A * State.

Definition ret {A} (a : A) : M A := fun s => (Ok a, s).
Definition raise {A} (e : Exn T ExtExn) : M A := fun s => (Raise e, s).
Definition bind {A B} (m : M A) (k : A -> M B) : M B :=
  fun s =>
    match m s with
    | (Ok a, s') => k a s'
    | (Raise e, s') => (Raise e, s')
    end.
Definition lift {A} (r : Result A) : M A := fun s => (r, s).
Definition get : M State := fun s => (Ok s, s).
Definition modify (f : State -> State) : M unit := fun s => (Ok tt, f s).

Notation "x <- m ;; k" := (bind m (fun x => k))
  (at level 100, m at next level, right associativity).
Notation "m ;;; k" := (bind m (fun _ => k))
  (at level 100, right associativity).

(** [for x in xs: acc = body(acc, x)] *)
Fixpoint for_each {A B} (body : B -> A -> M B) (xs : list A) (acc : B) : M B :=
  match xs with
  | [] => ret acc
  | x :: xs' => (acc' <- body acc x ;; for_each body xs' acc')
  end.

(** *** [functools.lru_cache(maxsize=None)]

    A call whose key is in the table returns the stored object and runs
    nothing; otherwise the body runs and, when it returns, the result is
    stored. A body that raises stores nothing. *)
Definition lru_cache {K V} `{EqDecision K}
    (table : State -> dict K V) (store : dict K V -> State -> State)
    (key : K) (body : M V) : M V :=
  fun s =>
    match dget key (table s) with
    | Some v => (Ok v, s)
    | None =>
        match body s with
        | (Ok v, s') => (Ok v, store (dset key v (table s')) s')
        | (Raise e, s') => (Raise e, s')
        end
    end.

Definition set_cache c (s : State) : State :=
  mkState c (stack s) (lru_get_configuration s)
    (lru_resolve_from_annotation s) (lru_resolve s) (next_oid s) (builds s)
    (strict_mode s).
Definition set_stack st (s : State) : State :=
  mkState (cache s) st (lru_get_configuration s)
    (lru_resolve_from_annotation s) (lru_resolve s) (next_oid s) (builds s)
    (strict_mode s).
Definition set_lru_get_configuration l (s : State) : State :=
  mkState (cache s) (stack s) l
    (lru_resolve_from_annotation s) (lru_resolve s) (next_oid s) (builds s)
    (strict_mode s).
Definition set_lru_resolve_from_annotation l (s : State) : State :=
  mkState (cache s) (stack s) (lru_get_configuration s)
    l (lru_resolve s) (next_oid s) (builds s) (strict_mode s).
Definition set_lru_resolve l (s : State) : State :=
  mkState (cache s) (stack s) (lru_get_configuration s)
    (lru_resolve_from_annotation s) l (next_oid s) (builds s) (strict_mode s).
Definition set_next_oid n (s : State) : State :=
  mkState (cache s) (stack s) (lru_get_configuration s)
    (lru_resolve_from_annotation s) (lru_resolve s) n (builds s)
    (strict_mode s).
Definition set_builds n (s : State) : State :=
  mkState (cache s) (stack s) (lru_get_configuration s)
    (lru_resolve_from_annotation s) (lru_resolve s) (next_oid s) n
    (strict_mode s).

(** The in-flight set [self.__stack]. *)
Definition stack_mem (x : T) (st : list T) : bool := bool_decide (x ∈ st).
Definition stack_add (x : T) (st : list T) : list T :=
  if stack_mem x st then st else x :: st.
Definition stack_remove (x : T) (st : list T) : list T :=
  List.filter (fun y => negb (bool_decide (y = x))) st.

(** Constructing a protocol object gives it a fresh identity. *)
Definition new_oid : M nat :=
  fun s => (Ok (next_oid s), set_next_oid (S (next_oid s)) s).

(** *** Truth values *)

Definition truthy (g : bool) (v : PyStrict) : bool :=
  match v with SNone => false | SBool b => b | STRICT_MODE => g end.

(** [a or b] *)
Definition py_or (g : bool) (a b : PyStrict) : PyStrict :=
  if truthy g a then a else b.

(** [Resolver.OPTIONALS] and [Resolver.LITERALS] *)
Definition OPTIONALS : list T := [PyNone E; PyEllipsis E].
Definition LITERALS : list LiteralClass :=
  [Cint; Cbytes; Cstr; Cbool; CEnum; CNoneType].

(** [isinstance(a, self.LITERALS)] *)
Definition isinstance_LITERALS (a : T) : bool :=
  existsb (isinstance E a) LITERALS.

(** [SerdeFlags()] and [SerdeConfig(flags)]: every other field at its
    (empty) default. *)
Definition SerdeFlags_default : SerdeFlags :=
  mkSerdeFlags (FieldsNames []) [] [] None false.
Definition SerdeConfig_default (flags : SerdeFlags) : SerdeConfig :=
  mkSerdeConfig flags [] [] [] [] [].

(** [dataclasses.replace(flags, fields={})] *)
Definition replace_fields_empty (flags : SerdeFlags) : SerdeFlags :=
  mkSerdeFlags (FieldsMapping []) (flags_exclude flags) (flags_omit flags)
    (flags_case flags) (flags_signature_only flags).

(** *** [Resolver.annotation] *)

(** The values the unwrapping loop leaves behind. *)
Record Unwrapped := mkUnwrapped {
  u_use : T;
  u_is_optional : bool;
  u_is_strict : PyStrict;
  u_is_static : bool;
  u_is_literal : bool;
}.

(** [while checks.should_unwrap(use) and args: ...]. [g] is the global
    strict mode. An absent [__args__] ([None]) is kept as the empty list:
    both are false and nothing else is read from it then. Each round moves
    to the first argument of [use]; [fuel] bounds the rounds, and
    [annotation] runs the loop with more fuel than the [rank] of the
    description (see [unwrap_fuel_enough]). *)
Fixpoint unwrap (fuel : nat) (g : bool) (use : T) (args : list T)
    (is_optional : bool) (is_strict : PyStrict) (is_static is_literal : bool)
    : Unwrapped :=
  match fuel with
  | 0 => mkUnwrapped use is_optional is_strict is_static is_literal
  | S fuel' =>
      match args with
      | arg0 :: _ =>
          if checks_should_unwrap E use then
            let is_optional := is_optional || checks_isoptionaltype E use in
            let is_strict := py_or g is_strict (SBool (checks_isstrict E use)) in
            if is_optional && bool_decide (2 < length args) then
              (* We can't resolve this annotation. *)
              mkUnwrapped (Union_ E (removelast args))
                is_optional is_strict false is_literal
            else
              let non_super := util_resolve_supertype E arg0 in
              let use := non_super in
              let args := util_get_args E use in
              let is_static :=
                negb (bool_decide (util_origin E use ∈ _DYNAMIC E)) in
              let is_literal := is_literal || checks_isliteral E use in
              unwrap fuel' g use args is_optional is_strict is_static is_literal
          else mkUnwrapped use is_optional is_strict is_static is_literal
      | [] => mkUnwrapped use is_optional is_strict is_static is_literal
      end
  end.

(** [use is namespace]: an absent namespace is [None]. *)
Definition py_is (use : T) (namespace : option T) : bool :=
  match namespace with
  | Some ns => bool_decide (use = ns)
  | None => bool_decide (use = PyNone E)
  end.

(** [name or "_"] *)
Definition name_or_underscore (name : option string) : string :=
  match name with
  | Some n => if decide (n = "") then "_" else n
  | None => "_"
  end.

(** From [non_super = util.resolve_supertype(annotation)] to the end of the
    unwrapping loop: the type to use and the four flags, as [annotation]
    computes them from the description, the parameter and the overrides.
    [g] is the global strict mode. *)
Definition canonical (g : bool) (annotation : T) (parameter : Param)
    (is_optional : option bool) (is_strict : PyStrict) : Unwrapped :=
  (* Check for the super-type *)
  let non_super := util_resolve_supertype E annotation in
  let use := non_super in
  (* Get the unfiltered args *)
  let args := match dunder_args E non_super with Some a => a | None => [] end in
  (* Set whether this is optional/strict *)
  let is_optional :=
    match is_optional with Some true => true | _ => false end
    || checks_isoptionaltype E non_super
    || bool_decide (param_default parameter ∈ OPTIONALS) in
  let is_strict :=
    py_or g (py_or g is_strict (SBool (checks_isstrict E non_super)))
      STRICT_MODE in
  let is_static := negb (bool_decide (util_origin E use ∈ _DYNAMIC E)) in
  let is_literal := checks_isliteral E use in
  (* Determine whether we should use the first arg of the annotation *)
  unwrap (S (rank E use)) g use args is_optional is_strict is_static
    is_literal.

(** The parameter [annotation] builds when it is given none. *)
Definition default_parameter (annotation : T) (name : option string)
    (default : T) : Param :=
  mkParam (name_or_underscore name) POSITIONAL_OR_KEYWORD annotation
    (if checks_ishashable E default then default else PyEllipsis E).

(** The body of [annotation], with [self._get_configuration] as a
    parameter: [_get_configuration] below ties the knot. The [frame] of a
    [ForwardDelayedAnnotation], the [resolver] back-pointer of both delayed
    annotations and the [translator] closure set on the [Annotation] are
    not part of the model. *)
Definition annotation_with
    (get_configuration : T -> SerdeFlags -> M SerdeConfig)
    (annotation : T) (name : option string) (parameter : option Param)
    (is_optional : option bool) (is_strict : PyStrict)
    (flags : option SerdeFlags) (default : T) (namespace : option T)
    : M AnnotationT :=
  let flags :=
    match SERDE_FLAGS_ATTR E annotation with
    | Some f => f
    | None => match flags with Some f => f | None => SerdeFlags_default end
    end in
  let parameter :=
    match parameter with
    | Some p => p
    | None => default_parameter annotation name default
    end in
  s <- get ;;
  let orig := util_origin E annotation in
  let u := canonical (strict_mode s) annotation parameter is_optional
             is_strict in
  let use := u_use u in
  let is_optional := u_is_optional u in
  let is_strict := u_is_strict u in
  let is_static := u_is_static u in
  let is_literal := u_is_literal u in
  (* Only allow legal parameters at runtime *)
  (if is_literal && existsb (fun a => negb (isinstance_LITERALS a))
                      (util_get_args E use)
   then raise (TypeError (util_get_args E use)) else ret tt) ;;;
  (* The type definition doesn't exist yet. *)
  if is_ForwardRef E use then
    let module :=
      match namespace with
      | Some ns => dunder_module E ns
      | None => "typic.serde.resolver"
      end in
    ret (ForwardDelayedAnnotation use name parameter is_optional is_strict
           flags default module)
  (* The type definition is recursive or within a recursive loop. *)
  else if py_is use namespace || stack_mem use (stack s) then
    (* If detected via stack, we can remove it now. *)
    (if stack_mem use (stack s)
     then modify (fun s => set_stack (stack_remove use (stack s)) s)
     else ret tt) ;;;
    ret (DelayedAnnotation use name parameter is_optional is_strict
           flags default)
  else
    (* Otherwise, add this type to the stack. *)
    (if negb (checks_isstdlibtype E use)
     then modify (fun s => set_stack (stack_add use (stack s)) s)
     else ret tt) ;;;
    serde <- (if is_static && negb is_literal
              then get_configuration (util_origin E use) flags
              else ret (SerdeConfig_default flags)) ;;
    ret (Annotation use orig annotation parameter is_optional is_strict
           is_static serde).

(** *** [Resolver._get_configuration]: the field maps

    The part of the method after the loop over the type hints only reads
    [flags], [fields] and [params]; it is split by the variable each step
    assigns. *)

(** [fields[x]] *)
Definition getitem {V} (d : dict string V) (x : string) : Result V :=
  match dget x d with
  | Some v => Ok v
  | None => Raise (KeyError x)
  end.

Fixpoint collect {A B} (f : A -> Result B) (xs : list A) : Result (list B) :=
  match xs with
  | [] => Ok []
  | x :: xs' =>
      match f x with
      | Ok y =>
          match collect f xs' with
          | Ok ys => Ok (y :: ys)
          | Raise e => Raise e
          end
      | Raise e => Raise e
      end
  end.

(** [if flags.signature_only:
       fields = {x: fields[x] for x in fields.keys() & params.keys()}] *)
Definition fields_signature_only (flags : SerdeFlags)
    (fields : dict string AnnotationT) (params : list string)
    : Result (dict string AnnotationT) :=
  if flags_signature_only flags then
    let common :=
      set_iter E (List.filter (fun x => bool_decide (x ∈ params)) (dkeys fields)) in
    match collect (fun x => match getitem fields x with
                            | Ok a => Ok (x, a)
                            | Raise e => Raise e
                            end) common with
    | Ok items => Ok (dict_of items)
    | Raise e => Raise e
    end
  else Ok fields.

(** [fields_out = {x: x for x in fields}] *)
Definition fields_out_seed (fields : dict string AnnotationT)
    : dict string string :=
  dict_of (map (fun x => (x, x)) (dkeys fields)).

(** [include = flags.fields
     if include:
         if isinstance(include, Mapping): fields_out.update(include)
         else: fields_out.update({x: x for x in include})] *)
Definition fields_out_include (flags : SerdeFlags)
    (fields_out : dict string string) : dict string string :=
  match flags_fields flags with
  | FieldsMapping [] | FieldsNames [] => fields_out
  | FieldsMapping include => dupdate fields_out include
  | FieldsNames include =>
      dupdate fields_out (dict_of (map (fun x => (x, x)) include))
  end.

(** [if flags.case:
         case = Case(flags.case)
         fields_out = {x: case.transformer(y) for x, y in fields_out.items()}] *)
Definition fields_out_case (flags : SerdeFlags)
    (fields_out : dict string string) : dict string string :=
  match flags_case flags with
  | Some case =>
      dict_of (map (fun '(x, y) => (x, Case_transformer E case y)) fields_out)
  | None => fields_out
  end.

(** [type_omissions], [type_name_omissions] and [value_omissions] *)
Definition type_omissions (omit : list T) : list T :=
  List.filter (fun o => checks_type_check E o
                        || bool_decide (o = PyNotImplemented E)) omit.
Definition type_name_omissions (omit : list T) : list string :=
  map (util_get_name E) (type_omissions omit).
Definition value_omissions (omit : list T) : list T :=
  List.filter (fun o => negb (bool_decide (o ∈ type_omissions omit))) omit.

(** [anno.parameter.default if anno.parameter else EMPTY]: every annotation
    carries a parameter. *)
Definition anno_parameter (anno : AnnotationT) : Param :=
  match anno with
  | Annotation _ _ _ p _ _ _ _ => p
  | DelayedAnnotation _ _ p _ _ _ _ => p
  | ForwardDelayedAnnotation _ _ p _ _ _ _ _ => p
  end.

(** Whether the omit loop keeps one output field. *)
Definition omit_keeps (omit : list T) (anno : AnnotationT) : Result bool :=
  let default := param_default (anno_parameter anno) in
  match anno with
  | ForwardDelayedAnnotation ref _ _ _ _ _ _ _ =>
      Ok (negb (bool_decide (util_get_name E ref ∈ type_name_omissions omit)
                || bool_decide (util_get_name E default
                                ∈ type_name_omissions omit)))
  | _ =>
      match (match anno with
             | Annotation _ origin _ _ _ _ _ _ => Ok origin
             | _ => delayed_origin E anno
             end) with
      | Ok origin =>
          Ok (negb (bool_decide (origin ∈ type_omissions omit)
                    || bool_decide (default ∈ type_omissions omit)))
      | Raise e => Raise e
      end
  end.

(** The loop [for name, out in fields_out.items()] under [if omit:]. *)
Fixpoint fields_out_omit_loop (omit : list T)
    (fields : dict string AnnotationT) (items : list (string * string))
    (fields_out_final : dict string string) : Result (dict string string) :=
  match items with
  | [] => Ok fields_out_final
  | (name, out) :: items' =>
      match getitem fields name with
      | Ok anno =>
          match omit_keeps omit anno with
          | Ok keep =>
              fields_out_omit_loop omit fields items'
                (if keep then dset name out fields_out_final
                 else fields_out_final)
          | Raise e => Raise e
          end
      | Raise e => Raise e
      end
  end.

Definition fields_out_omit (flags : SerdeFlags)
    (fields : dict string AnnotationT) (fields_out : dict string string)
    : Result (dict string string) :=
  match flags_omit flags with
  | [] => Ok fields_out
  | omit => fields_out_omit_loop omit fields fields_out []
  end.

(** [fields_in = {y: x for x, y in fields_out.items()}
     if params:
         fields_in = {x: y for x, y in fields_in.items() if y in params}] *)
Definition fields_in_of (fields_out : dict string string)
    (params : list string) : dict string string :=
  let fields_in := dict_of (map (fun '(x, y) => (y, x)) fields_out) in
  match params with
  | [] => fields_in
  | _ =>
      dict_of (List.filter (fun '(x, y) => bool_decide (y ∈ params)) fields_in)
  end.

(** [exclude = flags.exclude
     if exclude:
         fields_out = {x: y for x, y in fields_out.items() if x not in exclude}] *)
Definition fields_out_exclude (flags : SerdeFlags)
    (fields_out : dict string string) : dict string string :=
  match flags_exclude flags with
  | [] => fields_out
  | exclude =>
      dict_of (List.filter (fun '(x, y) => negb (bool_decide (x ∈ exclude)))
                 fields_out)
  end.

(** The output map as it stands when [fields_in] is computed. *)
Definition fields_out_before_exclude (flags : SerdeFlags)
    (fields : dict string AnnotationT) : Result (dict string string) :=
  fields_out_omit flags fields
    (fields_out_case flags (fields_out_include flags (fields_out_seed fields))).

(** From [if flags.signature_only:] to the [return]. *)
Definition configure (flags : SerdeFlags) (fields : dict string AnnotationT)
    (params : list string) : Result SerdeConfig :=
  match fields_signature_only flags fields params with
  | Ok fields =>
      match fields_out_before_exclude flags fields with
      | Ok fields_out =>
          let value_omissions :=
            match flags_omit flags with
            | [] => []
            | omit => value_omissions omit
            end in
          let fields_in := fields_in_of fields_out params in
          let fields_out := fields_out_exclude flags fields_out in
          let fields_getters := dict_of (map (fun x => (x, x)) (dkeys fields)) in
          Ok (mkSerdeConfig flags fields fields_out fields_in fields_getters
                value_omissions)
      | Raise e => Raise e
      end
  | Raise e => Raise e
  end.

(** The flags a type carries itself win over the caller's. *)
Definition own_flags (t : T) (flags : SerdeFlags) : SerdeFlags :=
  match SERDE_FLAGS_ATTR E t with Some f => f | None => flags end.

(** The body of [_get_configuration], with [self.annotation] as a
    parameter. *)
Definition _get_configuration_body
    (annotation : T -> option string -> option Param -> option bool ->
                  PyStrict -> option SerdeFlags -> T -> option T ->
                  M AnnotationT)
    (origin : T) (flags : SerdeFlags) : M SerdeConfig :=
  let flags := own_flags origin flags in
  (* Get all the annotated fields *)
  let params := util_safe_get_params E origin in
  let hints := util_cached_type_hints E origin in
  fields <- for_each
    (fun fields '(name, t) =>
       a <- annotation t None None None SNone
              (Some (replace_fields_empty flags))
              (match getattr E origin name with
               | Some v => v
               | None => EMPTY E
               end)
              (Some origin) ;;
       ret (dset name a fields))
    hints [] ;;
  lift (configure flags fields params).

(** [_get_configuration] under its [lru_cache]. [fuel] is the depth of
    nested calls still available; running out is Python's
    [RecursionError]. *)
Fixpoint _get_configuration (fuel : nat) (origin : T) (flags : SerdeFlags)
    : M SerdeConfig :=
  match fuel with
  | 0 => raise RecursionError
  | S fuel' =>
      lru_cache lru_get_configuration set_lru_get_configuration
        (origin, flags)
        (_get_configuration_body
           (annotation_with (_get_configuration fuel')) origin flags)
  end.

Definition annotation (fuel : nat) :=
  annotation_with (_get_configuration fuel).

(** *** [Resolver._resolve_from_annotation] *)

Definition is_delayed (anno : AnnotationT) : bool :=
  match anno with
  | Annotation _ _ _ _ _ _ _ _ => false
  | _ => true
  end.

Definition anno_origin_is_Callable (anno : AnnotationT) : bool :=
  match anno with
  | Annotation _ origin _ _ _ _ _ _ => bool_decide (origin = PyCallable E)
  | _ => false
  end.

(** The constraint, deserializer and serializer factories are taken as
    functions of their arguments. The factory objects hold the resolver
    ([self.des = DesFactory(self)], [self.ser = SerFactory(self)]) and
    their code, which is not in the sources, resolves nested types through
    it: that nested resolution, with what it stores or raises on the way,
    is not part of this definition. *)
Definition _resolve_from_annotation_body (anno : AnnotationT)
    (_des _ser : bool) (_namespace : option T) : M ProtocolT :=
  s <- get ;;
  match dget anno (cache s) with
  | Some proto => ret proto
  | None =>
      match anno with
      | Annotation resolved _ _ _ optional _ _ _ =>
          modify (fun s => set_builds (S (builds s)) s) ;;;
          (* FIXME: Simulate legacy behavior. *)
          let '(_des, _ser) :=
            if anno_origin_is_Callable anno then (false, false)
            else (_des, _ser) in
          (* Build the deserializer *)
          built <-
            (if _des then
               constraints <- lift (constr_get_constraints E resolved optional
                                      _namespace) ;;
               dv <- lift (des_factory E anno constraints _namespace) ;;
               ret (Some dv.1, Some dv.2, Some constraints)
             else ret (None : option Ext, None : option Ext,
                       None : option Ext)) ;;
          let '(deserializer, validator, constraints) := built in
          (* Build the serializer *)
          serializer <-
            (if _ser then (ser <- lift (ser_factory E anno) ;; ret (Some ser))
             else ret None) ;;
          (* Put it all together *)
          oid <- new_oid ;;
          let proto := SerdeProtocol oid anno deserializer serializer
                         constraints validator in
          modify (fun s => set_cache (dset anno proto (cache s)) s) ;;;
          ret proto
      | _ =>
          oid <- new_oid ;;
          ret (DelayedSerdeProtocol oid anno)
      end
  end.

Definition _resolve_from_annotation (anno : AnnotationT)
    (_des _ser : bool) (_namespace : option T) : M ProtocolT :=
  lru_cache lru_resolve_from_annotation set_lru_resolve_from_annotation
    (anno, _des, _ser, _namespace)
    (_resolve_from_annotation_body anno _des _ser _namespace).

(** *** [Resolver.resolve] *)

Definition resolve_body (a : ResolveArgs) : M ProtocolT :=
  (* Extract the meta-data. *)
  anno <- annotation (recursionlimit E) (ra_annotation a) (ra_name a)
            (ra_parameter a) (ra_is_optional a) (ra_is_strict a) (ra_flags a)
            (EMPTY E) (ra_namespace a) ;;
  resolved <- _resolve_from_annotation anno (ra_des a) (ra_ser a)
                (ra_namespace a) ;;
  modify (set_stack []) ;;;
  ret resolved.

Definition resolve (a : ResolveArgs) : M ProtocolT :=
  lru_cache lru_resolve set_lru_resolve a (resolve_body a).

(** [self.resolve(annotation)]: every keyword at its default. *)
Definition resolve_args (annotation : T) : ResolveArgs :=
  mkResolveArgs annotation None None None None SNone None true true.

(** *** [Resolver.transmute] and [Resolver.coerce_value] *)

Definition transmute (annotation value : T) : M T :=
  resolved <- resolve (resolve_args annotation) ;;
  transmuted <- proto_transmute E resolved value ;;
  ret transmuted.

(** [coerce_value] warns and hands over to [transmute]. The warnings
    issued so far are kept next to the resolver's state (the default
    warning filters: a warning is recorded, not raised). *)
Inductive Warning := DeprecationWarning (message : string).

Definition coerce_message : string :=
  "'typic.coerce' has been deprecated and will be removed in a future "
  ++ "version. Use 'typic.transmute' instead.".

Definition coerce_value (value annotation : T)
    (ws : list Warning * State) : Result T * (list Warning * State) :=
  let warnings := ws.1 ++ [DeprecationWarning coerce_message] in
  let '(r, s') := transmute annotation value ws.2 in
  (r, (warnings, s')).

(** *** [Resolver.__init__]

    A new resolver has empty tables and resolves the standard types up
    front. The [translator.iterator] calls of the constructor belong to the
    translator factory and are not part of the model. *)
Definition new_state (g : bool) : State := mkState [] [] [] [] [] 0 0 g.

Definition __init__ : M unit :=
  for_each
    (fun _ typ =>
       resolve (resolve_args typ) ;;;
       resolve (resolve_args (Optional_ E typ)) ;;;
       resolve (mkResolveArgs typ None None None (Some true) SNone None
                  true true) ;;;
       ret tt)
    (checks_STDLIB_TYPES E) tt.

(** *** Vocabulary of the statements below *)

(** The output name [flags.fields] lists for field [x], if any. *)
Definition listed_name (flags : SerdeFlags) (x : string) : option string :=
  match flags_fields flags with
  | FieldsMapping m => last_item x m
  | FieldsNames l => if decide (x ∈ l) then Some x else None
  end.

(** The case policy of [flags], applied to one output name. *)
Definition cased (flags : SerdeFlags) (y : string) : string :=
  match flags_case flags with
  | Some case => Case_transformer E case y
  | None => y
  end.

(** The last field, in the order of the output map [fo], whose output
    name is [y]. *)
Definition key_of (fo : dict string string) (y : string) : option string :=
  last_item y (map (fun '(x, y) => (y, x)) fo).

(** [if params: ... if y in params]: a type with no constructor parameters
    restricts nothing. *)
Definition accepts (params : list string) (x : string) : bool :=
  match params with
  | [] => true
  | _ => bool_decide (x ∈ params)
  end.

(** The flags an annotation was canonicalized under. *)
Definition anno_flags (a : AnnotationT) : SerdeFlags :=
  match a with
  | Annotation _ _ _ _ _ _ _ serde => serde_flags serde
  | DelayedAnnotation _ _ _ _ _ flags _ => flags
  | ForwardDelayedAnnotation _ _ _ _ _ flags _ _ => flags
  end.

(** The flags of a field's annotation under a type whose flags are
    [flags]: those flags with [fields] emptied, unless a class brings its
    own flag block. *)
Definition nested_ok (flags : SerdeFlags) (a : AnnotationT) : Prop :=
  anno_flags a = replace_fields_empty flags
  ∨ ∃ t, SERDE_FLAGS_ATTR E t = Some (anno_flags a).

(** [cfg] is what the field-mapping steps give for the type [origin] and
    the flags [flags], from some table of canonicalized fields. *)
Definition produced (origin : T) (flags : SerdeFlags) (cfg : SerdeConfig)
    : Prop :=
  ∃ fields,
    configure (own_flags origin flags) fields (util_safe_get_params E origin)
    = Ok cfg
    ∧ ∀ n a, (n, a) ∈ fields → nested_ok (own_flags origin flags) a.

(** Every memoized configuration was produced for its own key. *)
Definition wf_configs (s : State) : Prop :=
  ∀ origin flags cfg,
    dget (origin, flags) (lru_get_configuration s) = Some cfg →
    produced origin flags cfg.

(** Delayed annotations are never keys of [__cache], and the memo table of
    [_resolve_from_annotation] maps them to delayed protocols. *)
Definition wf_protocols (s : State) : Prop :=
  (∀ anno p, dget anno (cache s) = Some p → is_delayed anno = false)
  ∧ (∀ anno des ser ns p,
       dget (anno, des, ser, ns) (lru_resolve_from_annotation s) = Some p →
       is_delayed anno = true → ∃ oid, p = DelayedSerdeProtocol oid anno).

(** [steps R m]: whatever [m] returns or raises, the state it leaves is
    [R]-related to the state it started from. *)
Definition steps {A} (R : relation State) (m : M A) : Prop :=
  ∀ s, R s (m s).2.

(** [hoare I m Q]: started in a state that satisfies [I], the computation
    [m] leaves a state that satisfies [I], whether it returns or raises,
    and what it returns satisfies [Q]. *)
Definition hoare {A} (I : State → Prop) (m : M A) (Q : A → Prop) : Prop :=
  ∀ s, I s → I (m s).2 ∧ ∀ a, (m s).1 = Ok a → Q a.

(** The memo table of [resolve] is left as it was. *)
Definition same_lru_resolve : relation State :=
  fun s s' => lru_resolve s' = lru_resolve s.

(** [__cache] and the memo table of [_resolve_from_annotation] are left as
    they were. *)
Definition same_protocols : relation State :=
  fun s s' =>
    cache s' = cache s
    ∧ lru_resolve_from_annotation s' = lru_resolve_from_annotation s.

(** The memo table of [_get_configuration] is left as it was. *)
Definition same_configs : relation State :=
  fun s s' => lru_get_configuration s' = lru_get_configuration s.

(** The protocol cache and the memo tables of [resolve] and
    [_resolve_from_annotation] are left as they were. *)
Definition nothing_stored : relation State :=
  fun s s' =>
    cache s' = cache s
    ∧ lru_resolve s' = lru_resolve s
    ∧ lru_resolve_from_annotation s' = lru_resolve_from_annotation s.

(** Any number of [resolve] calls, one after the other, whatever each
    returns or raises. *)
Definition resolve_all (calls : list ResolveArgs) (s : State) : State :=
  fold_left (fun s a => (resolve a s).2) calls s.

End Resolver.

(** ** The rest of the resolver's interface

    [validate], [translate], [iterate], [known], [delayed], [primitive],
    [tojson] and [protocols]. What they need beyond [Env] (more of
    [inspect], [dataclasses] and [typing], and the methods of the protocol
    objects, which live in [typic.serde.common]) is a field of the record
    [Objects]. *)

(** A [dataclasses.Field], as far as [protocols] reads it. *)
Record DataclassField {T : Type} := mkDataclassField {
  field_name : string;
  field_default : T;
  field_init : bool;
}.
Arguments DataclassField : clear implicits.
Arguments mkDataclassField {T} field_name field_default field_init.

Record Objects {T Ext ExtExn : Type} := mkObjects {
  (* Python built-ins *)
  PyFalse : T;
  py_truth : T -> bool;                      (* [bool(x)] *)
  dunder_class : T -> T;                     (* [x.__class__], [type(x)] *)
  dot_value : T -> T;                        (* [x.value] *)
  AttributeError : ExtExn;
  py_hashable : T -> bool;                   (* does [hash(x)] succeed *)
  TypeError_unhashable : ExtExn;             (* [TypeError: unhashable type] *)
  inspect_ismethod : T -> bool;
  inspect_isfunction : T -> bool;
  inspect_isclass : T -> bool;
  dataclasses_is_dataclass : T -> bool;
  dataclasses_fields : T -> list (DataclassField T);
  dataclasses_MISSING : T;
  repr_is_factory : T -> bool;               (* [repr(x) == "<factory>"] *)
  ClassVar : T;
  ClassVar_ : T -> T;                        (* [ClassVar[t]] *)
  setattr_ok : T -> bool;                    (* does [setattr(x, ...)] succeed *)
  (* typic.common *)
  ORIG_SETTER_NAME : string;
  ReadOnly : T;
  ReadOnly_ : T -> T;                        (* [ReadOnly[t]] *)
  (* typic.checks, typic.util *)
  checks_isenumtype : T -> bool;
  checks_isclassvartype : T -> bool;
  util_safe_get_params_items : T -> dict string (Param T);
  (* the methods of a protocol, the translator factory *)
  proto_validate :
    ProtocolT T Ext -> T -> State T Ext -> Result T ExtExn T * State T Ext;
  proto_translate :
    ProtocolT T Ext -> T -> T -> State T Ext -> Result T ExtExn T * State T Ext;
  proto_primitive :
    ProtocolT T Ext -> T -> bool -> option T -> State T Ext ->
    Result T ExtExn T * State T Ext;
  proto_tojson :
    ProtocolT T Ext -> T -> T -> bool -> dict string T -> State T Ext ->
    Result T ExtExn string * State T Ext;
  translator_iterator :
    T -> bool -> State T Ext -> Result T ExtExn Ext * State T Ext;
  call_iterator : Ext -> T -> State T Ext -> Result T ExtExn T * State T Ext;
}.
Arguments Objects : clear implicits.

Section Operations.
Context {T Ext ExtExn : Type} `{EqDecision T, EqDecision Ext}.
Context (E : Env T Ext ExtExn) (O : Objects T Ext ExtExn).

#[local] Abbreviation ProtocolT := (ProtocolT T Ext).
#[local] Abbreviation Param := (Param T).
#[local] Abbreviation Result := (Result T ExtExn).
#[local] Abbreviation State := (State T Ext).
#[local] Abbreviation ResolveArgs := (ResolveArgs T).
#[local] Abbreviation M := (@M T Ext ExtExn).

Notation "x <- m ;; k" := (bind m (fun x => k))
  (at level 100, m at next level, right associativity).
Notation "m ;;; k" := (bind m (fun _ => k))
  (at level 100, right associativity).

(** *** [validate] and [translate] *)

Definition validate (annotation value : T) (transmute : bool) : M T :=
  resolved <- resolve E (resolve_args annotation) ;;
  value <- proto_validate O resolved value ;;
  if transmute then proto_transmute E resolved value else ret value.

Definition translate (value target : T) : M T :=
  resolved <- resolve E (resolve_args (dunder_class O value)) ;;
  proto_translate O resolved value target.

(** *** [iterate], [primitive] and [tojson]

    All three start alike: an enum member is replaced by its value. *)

(** [t = obj.__class__
     if checks.isenumtype(t):
         obj = obj.value
         t = obj.__class__] *)
Definition unwrap_enum (obj : T) : T * T :=
  let t := dunder_class O obj in
  if checks_isenumtype O t
  then (dot_value O obj, dunder_class O (dot_value O obj))
  else (obj, t).

Definition iterate (obj : T) (values : bool) : M T :=
  let '(obj, t) := unwrap_enum obj in
  iterator <- translator_iterator O t values ;;
  call_iterator O iterator obj.

Definition primitive (obj : T) (lazy : bool) (name : option T) : M T :=
  let '(obj, t) := unwrap_enum obj in
  proto <- resolve E (resolve_args t) ;;
  proto_primitive O proto obj lazy name.

Definition tojson (obj indent : T) (ensure_ascii : bool)
    (kwargs : dict string T) : M string :=
  let '(obj, t) := unwrap_enum obj in
  proto <- resolve E (resolve_args t) ;;
  proto_tojson O proto obj indent ensure_ascii kwargs.

(** *** [known] and [delayed] *)

(** [hasattr(t, name)] *)
Definition hasattr (t : T) (name : string) : bool :=
  bool_decide (is_Some (getattr E t name)).

Definition known (t : T) : bool :=
  hasattr t (ORIG_SETTER_NAME O) || hasattr t "__delayed__".

(** [getattr(t, "__delayed__", False)] *)
Definition delayed (t : T) : T :=
  match getattr E t "__delayed__" with
  | Some v => v
  | None => PyFalse O
  end.

(** *** [protocols] *)

(** [a or b], on an optional object: [None] is false. *)
Definition opt_or (a : option T) (b : Result T) : Result T :=
  match a with
  | Some x => if py_truth O x then Ok x else b
  | None => b
  end.

Definition replace_default (param : Param) (default : T) : Param :=
  mkParam (param_name param) (param_kind param) (param_annotation param)
    default.

(** [getattr(obj, name)], with no default. *)
Definition getattr_strict (obj : T) (name : string) : Result T :=
  match getattr E obj name with
  | Some v => Ok v
  | None => Raise (Raised (AttributeError O))
  end.

(** The class [protocols] works on:
    [if not any((ismethod(obj), isfunction(obj), isclass(obj))):
         obj = obj.__class__] *)
Definition protocols_target (obj : T) : T :=
  if inspect_ismethod O obj || inspect_isfunction O obj || inspect_isclass O obj
  then obj else dunder_class O obj.

(** [fields = {f.name: f for f in dataclasses.fields(obj)}] if [obj] is a
    dataclass, else [{}]. *)
Definition protocols_fields (obj : T) : dict string (DataclassField T) :=
  if dataclasses_is_dataclass O obj
  then dict_of (map (fun f => (field_name f, f)) (dataclasses_fields O obj))
  else [].

(** [params.keys() | hints.keys()], in the order the set hands them out. *)
Definition protocols_names (obj : T) : list string :=
  let params := dkeys (util_safe_get_params_items O obj) in
  let hints := dkeys (util_cached_type_hints E obj) in
  set_iter E
    (params ++ List.filter (fun x => negb (bool_decide (x ∈ params))) hints).

(** One round of the loop, up to the [self.resolve] call: the arguments of
    that call. [obj] is the class, [strict] the keyword of [protocols]. *)
Definition protocols_resolve_args (obj : T) (strict : bool) (name : string)
    : Result ResolveArgs :=
  let param := dget name (util_safe_get_params_items O obj) in
  let hint := dget name (util_cached_type_hints E obj) in
  let field := dget name (protocols_fields obj) in
  let param_annotation :=
    match param with
    | Some p => Ok (param_annotation p)
    | None => Raise (Raised (AttributeError O))
    end in
  match opt_or hint param_annotation with
  | Raise e => Raise e
  | Ok annotation =>
      let annotation := util_resolve_supertype E annotation in
      match (match param with
             | Some p => Ok p
             | None =>
                 match opt_or hint (Ok annotation) with
                 | Ok a => Ok (mkParam name POSITIONAL_OR_KEYWORD a (EMPTY E))
                 | Raise e => Raise e
                 end
             end) with
      | Raise e => Raise e
      | Ok param =>
          let param :=
            if repr_is_factory O (param_default param)
            then replace_default param (EMPTY E) else param in
          match (if checks_isclassvartype O annotation then
                   match getattr_strict obj name with
                   | Ok val =>
                       let annotation :=
                         if bool_decide (annotation = ClassVar O)
                         then ClassVar_ O (dunder_class O val)
                         else annotation in
                       Ok (annotation, replace_default param val)
                   | Raise e => Raise e
                   end
                 else Ok (annotation, param)) with
          | Raise e => Raise e
          | Ok (annotation, param) =>
              let '(annotation, param) :=
                match field with
                | Some f =>
                    if negb (bool_decide (field_default f
                                          = dataclasses_MISSING O))
                       && bool_decide (param_default param = EMPTY E)
                    then
                      (if negb (field_init f)
                          && negb (bool_decide (util_origin E annotation
                                                = ReadOnly O))
                       then ReadOnly_ O annotation else annotation,
                       replace_default param (field_default f))
                    else (annotation, param)
                | None => (annotation, param)
                end in
              let param :=
                if negb (checks_ishashable E (param_default param))
                then replace_default param (PyEllipsis E) else param in
              Ok (mkResolveArgs annotation None (Some name) (Some param)
                    None (SBool strict) (Some obj) true true)
          end
      end
  end.

(** The resolver together with what [protocols] keeps outside of it: the
    memo table of its [lru_cache] and the mappings it has attached to
    objects (the attribute [TYPIC_ANNOS_NAME]). *)
Record World := mkWorld {
  w_state : State;
  w_lru_protocols : dict (T * bool) (dict string ProtocolT);
  w_annos : dict T (dict string ProtocolT);
}.

Definition W (A : Type) : Type := World -> Result A * World.

(** The loop [for name in params.keys() | hints.keys()]. *)
Definition protocols_loop (obj : T) (strict : bool) (names : list string)
    (ann : dict string ProtocolT) : M (dict string ProtocolT) :=
  for_each
    (fun ann name =>
       args <- lift (protocols_resolve_args obj strict name) ;;
       resolved <- resolve E args ;;
       ret (dset name resolved ann))
    names ann.

(** The body of [protocols]: the loop, then the attachment, which may
    fail without consequence. *)
Definition protocols_body (obj : T) (strict : bool) : W (dict string ProtocolT) :=
  fun w =>
    let obj := protocols_target obj in
    match protocols_loop obj strict (protocols_names obj) [] (w_state w) with
    | (Ok ann, s') =>
        (Ok ann,
         mkWorld s' (w_lru_protocols w)
           (if setattr_ok O obj then dset obj ann (w_annos w)
            else w_annos w))
    | (Raise e, s') =>
        (Raise e, mkWorld s' (w_lru_protocols w) (w_annos w))
    end.

(** [protocols] under its [lru_cache]. The cache hashes [obj] to look the
    call up, before anything of the body runs: an object that cannot be
    hashed, such as an instance of a plain dataclass, raises [TypeError]
    there. *)
Definition protocols (obj : T) (strict : bool) : W (dict string ProtocolT) :=
  fun w =>
    if negb (py_hashable O obj)
    then (Raise (Raised (TypeError_unhashable O)), w)
    else
      match dget (obj, strict) (w_lru_protocols w) with
      | Some ann => (Ok ann, w)
      | None =>
          match protocols_body obj strict w with
          | (Ok ann, w') =>
              (Ok ann,
               mkWorld (w_state w')
                 (dset (obj, strict) ann (w_lru_protocols w')) (w_annos w'))
          | (Raise e, w') => (Raise e, w')
          end
      end.

(** *** More vocabulary *)

Definition anno_optional (a : AnnotationT T) : bool :=
  match a with
  | Annotation _ _ _ _ optional _ _ _ => optional
  | DelayedAnnotation _ _ _ is_optional _ _ _ => is_optional
  | ForwardDelayedAnnotation _ _ _ is_optional _ _ _ _ => is_optional
  end.

Definition anno_strict (a : AnnotationT T) : PyStrict :=
  match a with
  | Annotation _ _ _ _ _ strict _ _ => strict
  | DelayedAnnotation _ _ _ _ is_strict _ _ => is_strict
  | ForwardDelayedAnnotation _ _ _ _ is_strict _ _ _ => is_strict
  end.

(** The parameter [annotation] works with: the one it is given, or the
    one it builds. *)
Definition effective_parameter (t : T) (name : option string)
    (parameter : option Param) (default : T) : Param :=
  match parameter with
  | Some p => p
  | None => default_parameter E t name default
  end.

(** The flags [annotation] settles on. *)
Definition effective_flags (t : T) (flags : option (SerdeFlags T))
    : SerdeFlags T :=
  match SERDE_FLAGS_ATTR E t with
  | Some f => f
  | None => match flags with Some f => f | None => SerdeFlags_default end
  end.

(** Every entry of [__cache] and of the memo tables of [resolve] and
    [_resolve_from_annotation] is still there, with the same object. *)
Definition keeps_protocols (s s' : State) : Prop :=
  (∀ k v, dget k (cache s) = Some v → dget k (cache s') = Some v)
  ∧ (∀ k v, dget k (lru_resolve_from_annotation s) = Some v →
            dget k (lru_resolve_from_annotation s') = Some v)
  ∧ (∀ k v, dget k (lru_resolve s) = Some v → dget k (lru_resolve s') = Some v).

(** Everything but the stack and the memo table of [_get_configuration]
    is left as it was. *)
Definition builds_nothing (s s' : State) : Prop :=
  cache s' = cache s
  ∧ lru_resolve_from_annotation s' = lru_resolve_from_annotation s
  ∧ lru_resolve s' = lru_resolve s
  ∧ next_oid s' = next_oid s
  ∧ builds s' = builds s
  ∧ strict_mode s' = strict_mode s.

(** The memo table of [_resolve_from_annotation] agrees with [__cache] on
    the annotations that are not delayed. *)
Definition wf_first_wins (s : State) : Prop :=
  ∀ anno des ser ns p,
    dget (anno, des, ser, ns) (lru_resolve_from_annotation s) = Some p →
    is_delayed anno = false → dget anno (cache s) = Some p.

(** The protocol [__cache] holds for an annotation whose origin is
    [Callable] has no deserializer, serializer, constraints or validator. *)
Definition wf_callable (s : State) : Prop :=
  ∀ anno p,
    dget anno (cache s) = Some p → anno_origin_is_Callable E anno = true →
    ∃ oid, p = SerdeProtocol oid anno None None None None.

(** The three calls [__init__] makes for one standard type. *)
Definition init_calls (typ : T) : list ResolveArgs :=
  [resolve_args typ;
   resolve_args (Optional_ E typ);
   mkResolveArgs typ None None None (Some true) SNone None true true].

End Operations.

Arguments World : clear implicits.
Arguments W : clear implicits.

(** ** A small universe of types to run the resolver on

    [Demo.env] instantiates [Env] for a handful of classes. The helper
    functions follow the usual reading of [typing] forms; only what the
    examples below exercise is given a non-trivial value. *)

Module Demo.

Inductive Obj :=
  | ONone | OEllipsis | ONotImplemented | OEMPTY
  | OInt (n : nat)
  | OFloat (repr : string)
  | OStr (s : string)
  | OClass (name : string)
  | OForwardRef (name : string)
  | OSubscript (head : string) (args : list Obj).

Fixpoint Obj_eq_dec (a b : Obj) {struct a} : Decision (a = b).
Proof.
  unfold Decision. decide equality; try apply (decide (_ = _)).
  clear -Obj_eq_dec. revert args0.
  induction args as [|a1 l1 IH]; intros [|a2 l2];
    [left; reflexivity | right; discriminate | right; discriminate |].
  destruct (Obj_eq_dec a1 a2) as [->|]; [|right; congruence].
  destruct (IH l2) as [->|]; [left|right]; congruence.
Defined.
#[global] Instance Obj_EqDecision : EqDecision Obj := Obj_eq_dec.

Definition int := OClass "int".
Definition str := OClass "str".
Definition NoneType := OClass "NoneType".
Definition Literal (args : list Obj) := OSubscript "Literal" args.

(** The classes of the universe: their type hints, in declaration order.
    Every class here is a plain dataclass, so the constructor takes exactly
    the hinted fields. *)
Definition hints (t : Obj) : dict string Obj :=
  match t with
  | OClass "User" => [("id", int); ("user_name", str)]
  | OClass "Bad" => [("x", Literal [OFloat "1.5"])]
  | OClass "Outer" => [("id", int); ("inner", OClass "Inner")]
  | OClass "Inner" => [("id", int); ("name", str)]
  | OClass "Node" => [("value", int); ("next", OClass "Node")]
  | _ => []
  end.

Definition isoptionaltype (t : Obj) : bool :=
  match t with
  | OSubscript head args =>
      bool_decide (1 < length args)
      && bool_decide (last args = Some NoneType ∨ last args = Some ONone)
      && bool_decide (head ∈ ["Optional"; "Union"; "Literal"])
  | _ => false
  end.

Definition isliteral (t : Obj) : bool :=
  match t with OSubscript "Literal" _ => true | _ => false end.

Definition upper (c : ascii) : ascii :=
  let n := nat_of_ascii c in
  if bool_decide (97 <= n <= 122) then ascii_of_nat (n - 32) else c.

Definition lower (c : ascii) : ascii :=
  let n := nat_of_ascii c in
  if bool_decide (65 <= n <= 90) then ascii_of_nat (n + 32) else c.

(** Modelled from the spec: the camelCase transformer of [typic.common.Case]
    is not in the sources; the spec names the policy "snake_case to
    camelCase" and gives [user_name -> userName]. The letter after each
    underscore is upper-cased and the underscore dropped; the first letter
    is lowered. *)
Fixpoint camelize_rest (s : string) : string :=
  match s with
  | EmptyString => EmptyString
  | String "_" (String c s') => String (upper c) (camelize_rest s')
  | String c s' => String c (camelize_rest s')
  end.

Definition camelize (s : string) : string :=
  match camelize_rest s with
  | EmptyString => EmptyString
  | String c s' => String (lower c) s'
  end.

Fixpoint depth (t : Obj) : nat :=
  match t with
  | OSubscript _ args => S (list_max (map depth args))
  | _ => 0
  end.

Definition env : Env Obj string string := {|
  PyNone := ONone;
  PyEllipsis := OEllipsis;
  PyNotImplemented := ONotImplemented;
  PyCallable := OClass "Callable";
  is_ForwardRef t := match t with OForwardRef _ => true | _ => false end;
  isinstance a c :=
    match a, c with
    | OInt _, Cint | OStr _, Cstr | ONone, CNoneType => true
    | _, _ => false
    end;
  dunder_args t := match t with OSubscript _ args => Some args | _ => None end;
  Union_ args := OSubscript "Union" args;
  Optional_ t := OSubscript "Optional" [t; NoneType];
  dunder_module _ := "__main__";
  getattr _ _ := None;
  set_iter l := l;
  recursionlimit := 100;
  EMPTY := OEMPTY;
  SERDE_FLAGS_ATTR _ := None;
  Case_transformer c := match c with CAMEL => camelize | _ => fun s => s end;
  checks_isoptionaltype := isoptionaltype;
  checks_isstrict _ := false;
  checks_isliteral := isliteral;
  checks_should_unwrap t := negb (isliteral t) && isoptionaltype t;
  checks_isstdlibtype t := bool_decide (t ∈ [int; str; NoneType]);
  checks_ishashable _ := true;
  checks_type_check t :=
    match t with OClass _ | OSubscript _ _ => true | _ => false end;
  checks_STDLIB_TYPES := [int; str];
  util_resolve_supertype t := t;
  util_origin t := match t with OSubscript head _ => OClass head | _ => t end;
  util_get_args t := match t with OSubscript _ args => args | _ => [] end;
  util_get_name t :=
    match t with
    | OClass n | OForwardRef n | OSubscript n _ => n
    | _ => ""
    end;
  util_safe_get_params t := dkeys (hints t);
  util_cached_type_hints := hints;
  rank := depth;
  _DYNAMIC := [OClass "Union"; OClass "Any"];
  delayed_origin a :=
    match a with
    | DelayedAnnotation type _ _ _ _ _ _ => Ok type
    | _ => Raise (Raised "AttributeError")
    end;
  constr_get_constraints _ _ _ := Ok "constraints";
  des_factory _ _ _ := Ok ("deserializer", "validator");
  ser_factory _ := Ok "serializer";
  proto_transmute _ value s := (Ok value, s);
|}.

(** The resolver as [resolver = Resolver()] leaves it, strict mode off. *)
Definition resolver : State Obj string := (__init__ env (new_state false)).2.

Definition flags_camel_exclude_id : SerdeFlags Obj :=
  mkSerdeFlags (FieldsNames []) ["id"] [] (Some CAMEL) false.
Definition flags_rename_camel : SerdeFlags Obj :=
  mkSerdeFlags (FieldsMapping [("user_name", "login_name")]) [] []
    (Some CAMEL) false.
Definition flags_list_nickname_exclude_id : SerdeFlags Obj :=
  mkSerdeFlags (FieldsNames ["nickname"]) ["id"] [] None false.

(** The classes as type descriptions, and [resolve] with an enclosing
    namespace. *)
Definition User := OClass "User".
Definition Bad := OClass "Bad".
Definition Outer := OClass "Outer".
Definition Node := OClass "Node".
Definition resolve_in (namespace t : Obj) : ResolveArgs Obj :=
  mkResolveArgs t None None None None SNone (Some namespace) true true.

(** [_get_configuration] on the fresh resolver. *)
Definition configuration (t : Obj) (flags : SerdeFlags Obj) :=
  _get_configuration env (recursionlimit env) t flags resolver.


(** More of the universe, for the rest of the interface. Values have
    classes ([3] is an [int]); [Color["RED"]] is the member of the enum
    [Color] whose value is ["red"]; [alice] stands for the instance
    [User(1, "alice")], which, [User] being a plain dataclass, cannot be
    hashed, no more than a list; [False] is the int [0], which it equals
    and hashes like. The protocol methods are the simplest ones: they hand
    the value back. Built-in classes refuse [setattr]. *)
Definition RED := OSubscript "Color" [OStr "RED"].
Definition alice := OSubscript "User" [OInt 1; OStr "alice"].

Definition class_of (x : Obj) : Obj :=
  match x with
  | OInt _ => int
  | OStr _ => str
  | OFloat _ => OClass "float"
  | ONone => NoneType
  | OSubscript "Color" _ => OClass "Color"
  | OSubscript "User" _ => OClass "User"
  | OClass _ => OClass "type"
  | _ => OClass "object"
  end.

Definition objects : Objects Obj string string := {|
  PyFalse := OInt 0;
  py_truth x :=
    match x with
    | ONone | OInt 0 | OStr "" => false
    | _ => true
    end;
  dunder_class := class_of;
  dot_value x :=
    match x with
    | OSubscript "Color" [OStr "RED"] => OStr "red"
    | _ => ONone
    end;
  AttributeError := "AttributeError";
  py_hashable x :=
    match x with
    | OSubscript "User" _ | OSubscript "list" _ => false
    | _ => true
    end;
  TypeError_unhashable := "TypeError: unhashable type";
  inspect_ismethod _ := false;
  inspect_isfunction _ := false;
  inspect_isclass x := match x with OClass _ => true | _ => false end;
  dataclasses_is_dataclass x :=
    bool_decide (x ∈ [User; Bad; Outer; OClass "Inner"; Node]);
  dataclasses_fields x :=
    map (fun '(n, _) => mkDataclassField n (OClass "MISSING") true) (hints x);
  dataclasses_MISSING := OClass "MISSING";
  repr_is_factory _ := false;
  ClassVar := OClass "ClassVar";
  ClassVar_ t := OSubscript "ClassVar" [t];
  setattr_ok x := negb (bool_decide (x ∈ [int; str; NoneType]));
  ORIG_SETTER_NAME := "__setattr_original__";
  ReadOnly := OClass "ReadOnly";
  ReadOnly_ t := OSubscript "ReadOnly" [t];
  checks_isenumtype x := bool_decide (x = OClass "Color");
  checks_isclassvartype x :=
    match x with OSubscript "ClassVar" _ => true | _ => false end;
  util_safe_get_params_items x :=
    map (fun '(n, t) => (n, mkParam n POSITIONAL_OR_KEYWORD t OEMPTY)) (hints x);
  proto_validate _ value s := (Ok value, s);
  proto_translate _ value _ s := (Ok value, s);
  proto_primitive _ obj _ _ s := (Ok obj, s);
  proto_tojson _ _ _ _ _ s := (Ok "null", s);
  translator_iterator _ _ s := (Ok "iterator", s);
  call_iterator _ obj s := (Ok obj, s);
|}.

(** The same universe with list displays: [OSubscript "list" items] is
    the list of [items], a value that is not hashable. *)
Definition env_lists : Env Obj string string := {|
  PyNone := PyNone env;
  PyEllipsis := PyEllipsis env;
  PyNotImplemented := PyNotImplemented env;
  PyCallable := PyCallable env;
  is_ForwardRef := is_ForwardRef env;
  isinstance := isinstance env;
  dunder_args := dunder_args env;
  Union_ := Union_ env;
  Optional_ := Optional_ env;
  dunder_module := dunder_module env;
  getattr := getattr env;
  set_iter := set_iter env;
  recursionlimit := recursionlimit env;
  EMPTY := EMPTY env;
  SERDE_FLAGS_ATTR := SERDE_FLAGS_ATTR env;
  Case_transformer := Case_transformer env;
  checks_isoptionaltype := checks_isoptionaltype env;
  checks_isstrict := checks_isstrict env;
  checks_isliteral := checks_isliteral env;
  checks_should_unwrap := checks_should_unwrap env;
  checks_isstdlibtype := checks_isstdlibtype env;
  checks_ishashable t :=
    match t with OSubscript "list" _ => false | _ => true end;
  checks_type_check := checks_type_check env;
  checks_STDLIB_TYPES := checks_STDLIB_TYPES env;
  util_resolve_supertype := util_resolve_supertype env;
  util_origin := util_origin env;
  util_get_args := util_get_args env;
  util_get_name := util_get_name env;
  util_safe_get_params := util_safe_get_params env;
  util_cached_type_hints := util_cached_type_hints env;
  rank := rank env;
  _DYNAMIC := _DYNAMIC env;
  delayed_origin := delayed_origin env;
  constr_get_constraints := constr_get_constraints env;
  des_factory := des_factory env;
  ser_factory := ser_factory env;
  proto_transmute := proto_transmute env;
|}.

(** The world of a fresh resolver. *)
Definition world : World Obj string := mkWorld resolver [] [].

(** The same universe with one more class: [Point] is a frozen dataclass
    with the fields [x] and [y], so its instances can be hashed;
    [origin_point] stands for the instance [Point(0, 0)]. *)
Definition hints_frozen (t : Obj) : dict string Obj :=
  match t with
  | OClass "Point" => [("x", int); ("y", int)]
  | _ => hints t
  end.

Definition env_frozen : Env Obj string string := {|
  PyNone := PyNone env;
  PyEllipsis := PyEllipsis env;
  PyNotImplemented := PyNotImplemented env;
  PyCallable := PyCallable env;
  is_ForwardRef := is_ForwardRef env;
  isinstance := isinstance env;
  dunder_args := dunder_args env;
  Union_ := Union_ env;
  Optional_ := Optional_ env;
  dunder_module := dunder_module env;
  getattr := getattr env;
  set_iter := set_iter env;
  recursionlimit := recursionlimit env;
  EMPTY := EMPTY env;
  SERDE_FLAGS_ATTR := SERDE_FLAGS_ATTR env;
  Case_transformer := Case_transformer env;
  checks_isoptionaltype := checks_isoptionaltype env;
  checks_isstrict := checks_isstrict env;
  checks_isliteral := checks_isliteral env;
  checks_should_unwrap := checks_should_unwrap env;
  checks_isstdlibtype := checks_isstdlibtype env;
  checks_ishashable := checks_ishashable env;
  checks_type_check := checks_type_check env;
  checks_STDLIB_TYPES := checks_STDLIB_TYPES env;
  util_resolve_supertype := util_resolve_supertype env;
  util_origin := util_origin env;
  util_get_args := util_get_args env;
  util_get_name := util_get_name env;
  util_safe_get_params t := dkeys (hints_frozen t);
  util_cached_type_hints := hints_frozen;
  rank := rank env;
  _DYNAMIC := _DYNAMIC env;
  delayed_origin := delayed_origin env;
  constr_get_constraints := constr_get_constraints env;
  des_factory := des_factory env;
  ser_factory := ser_factory env;
  proto_transmute := proto_transmute env;
|}.

Definition objects_frozen : Objects Obj string string := {|
  PyFalse := PyFalse objects;
  py_truth := py_truth objects;
  dunder_class x :=
    match x with OSubscript "Point" _ => OClass "Point" | _ => class_of x end;
  dot_value := dot_value objects;
  AttributeError := AttributeError objects;
  py_hashable := py_hashable objects;
  TypeError_unhashable := TypeError_unhashable objects;
  inspect_ismethod := inspect_ismethod objects;
  inspect_isfunction := inspect_isfunction objects;
  inspect_isclass := inspect_isclass objects;
  dataclasses_is_dataclass x :=
    bool_decide (x = OClass "Point") || dataclasses_is_dataclass objects x;
  dataclasses_fields x :=
    map (fun '(n, _) => mkDataclassField n (OClass "MISSING") true)
      (hints_frozen x);
  dataclasses_MISSING := dataclasses_MISSING objects;
  repr_is_factory := repr_is_factory objects;
  ClassVar := ClassVar objects;
  ClassVar_ := ClassVar_ objects;
  setattr_ok := setattr_ok objects;
  ORIG_SETTER_NAME := ORIG_SETTER_NAME objects;
  ReadOnly := ReadOnly objects;
  ReadOnly_ := ReadOnly_ objects;
  checks_isenumtype := checks_isenumtype objects;
  checks_isclassvartype := checks_isclassvartype objects;
  util_safe_get_params_items x :=
    map (fun '(n, t) => (n, mkParam n POSITIONAL_OR_KEYWORD t OEMPTY))
      (hints_frozen x);
  proto_validate := proto_validate objects;
  proto_translate := proto_translate objects;
  proto_primitive := proto_primitive objects;
  proto_tojson := proto_tojson objects;
  translator_iterator := translator_iterator objects;
  call_iterator := call_iterator objects;
|}.

Definition origin_point := OSubscript "Point" [OInt 0; OInt 0].

Definition world_frozen : World Obj string :=
  mkWorld (__init__ env_frozen (new_state false)).2 [] [].

End Demo.

(** * Properties *)

(** ** Dictionaries *)

Section PyDictFacts.
Context {K V : Type} `{EqDecision K}.
Implicit Types (d other : dict K V) (items : list (K * V)) (k : K) (v : V).

Lemma dget_dset d k k' v :
  dget k (dset k' v d) = if decide (k = k') then Some v else dget k d.
Proof.
  induction d as [|[k0 v0] d IH]; simpl.
  - destruct (decide (k = k')); reflexivity.
  - destruct (decide (k' = k0)) as [->|Hne]; simpl.
    + destruct (decide (k = k0)); reflexivity.
    + destruct (decide (k = k0)) as [->|].
      * destruct (decide (k0 = k')); [congruence|reflexivity].
      * exact IH.
Qed.

Lemma dget_dset_eq d k v : dget k (dset k v d) = Some v.
Proof. rewrite dget_dset. destruct (decide (k = k)); congruence. Qed.

Lemma dget_dset_ne d k k' v : k ≠ k' → dget k (dset k' v d) = dget k d.
Proof. intros. rewrite dget_dset. destruct (decide (k = k')); congruence. Qed.

Lemma dget_Some_keys d k v : dget k d = Some v → k ∈ dkeys d.
Proof.
  induction d as [|[k0 v0] d IH]; simpl; [discriminate|].
  destruct (decide (k = k0)) as [->|]; intros Hg.
  - apply list_elem_of_here.
  - apply list_elem_of_further, IH, Hg.
Qed.

Lemma dget_None_keys d k : dget k d = None ↔ k ∉ dkeys d.
Proof.
  induction d as [|[k0 v0] d IH]; simpl.
  - split; [intros _; apply not_elem_of_nil|reflexivity].
  - destruct (decide (k = k0)) as [->|Hne].
    + split; [discriminate|]. intros Hn. destruct Hn. apply list_elem_of_here.
    + rewrite IH, not_elem_of_cons. tauto.
Qed.

Lemma dget_Some_elem d k v : dget k d = Some v → (k, v) ∈ d.
Proof.
  induction d as [|[k0 v0] d IH]; simpl; [discriminate|].
  destruct (decide (k = k0)) as [->|]; intros Hg.
  - injection Hg as ->. apply list_elem_of_here.
  - apply list_elem_of_further, IH, Hg.
Qed.

Lemma dkeys_dset d k v :
  dkeys (dset k v d) = if decide (k ∈ dkeys d) then dkeys d else dkeys d ++ [k].
Proof.
  induction d as [|[k0 v0] d IH]; simpl.
  - destruct (decide (k ∈ [])) as [Hin|]; [|reflexivity].
    apply elem_of_nil in Hin as [].
  - destruct (decide (k = k0)) as [->|Hne]; simpl.
    + destruct (decide (k0 ∈ k0 :: dkeys d)) as [|Hn]; [reflexivity|].
      destruct Hn. apply list_elem_of_here.
    + fold (dkeys (dset k v d)). rewrite IH.
      destruct (decide (k ∈ dkeys d)) as [Hin|Hn];
        destruct (decide (k ∈ k0 :: dkeys d)) as [Hin'|Hn']; try reflexivity.
      * destruct Hn'. apply list_elem_of_further, Hin.
      * apply elem_of_cons in Hin' as [?|?]; congruence.
Qed.

Lemma elem_of_dkeys_dset d k k' v :
  k ∈ dkeys (dset k' v d) ↔ k = k' ∨ k ∈ dkeys d.
Proof.
  rewrite dkeys_dset. destruct (decide (k' ∈ dkeys d)) as [Hin|Hn].
  - split; [tauto|]. intros [->|?]; assumption.
  - rewrite elem_of_app, list_elem_of_singleton. tauto.
Qed.

Lemma NoDup_dkeys_dset d k v : NoDup (dkeys d) → NoDup (dkeys (dset k v d)).
Proof.
  intros Hnd. rewrite dkeys_dset.
  destruct (decide (k ∈ dkeys d)) as [|Hn]; [assumption|].
  apply NoDup_app. split; [assumption|]. split.
  - intros x Hx Hx'. apply list_elem_of_singleton in Hx' as ->. contradiction.
  - apply NoDup_singleton.
Qed.

Lemma dupdate_snoc d other k v :
  dupdate d (other ++ [(k, v)]) = dset k v (dupdate d other).
Proof. unfold dupdate. rewrite fold_left_app. reflexivity. Qed.

Lemma last_item_snoc items k k' v :
  last_item k (items ++ [(k', v)])
  = if decide (k = k') then Some v else last_item k items.
Proof.
  induction items as [|[k0 v0] items IH]; simpl.
  - reflexivity.
  - rewrite IH. destruct (decide (k = k')); reflexivity.
Qed.

(** After [d.update(other)] a key has the value its last item in [other]
    gives it, and otherwise the value it had. *)
Lemma dget_dupdate d other k :
  dget k (dupdate d other)
  = match last_item k other with Some v => Some v | None => dget k d end.
Proof.
  induction other as [|[k' v'] other IH] using rev_ind; [reflexivity|].
  rewrite dupdate_snoc, dget_dset, last_item_snoc, IH.
  destruct (decide (k = k')); reflexivity.
Qed.

Lemma dget_dict_of items k : dget k (dict_of items) = last_item k items.
Proof.
  unfold dict_of. rewrite dget_dupdate. destruct (last_item k items); reflexivity.
Qed.

Lemma NoDup_dkeys_dupdate d other :
  NoDup (dkeys d) → NoDup (dkeys (dupdate d other)).
Proof.
  intros Hnd. induction other as [|[k' v'] other IH] using rev_ind; [exact Hnd|].
  rewrite dupdate_snoc. apply NoDup_dkeys_dset, IH.
Qed.

Lemma NoDup_dkeys_dict_of items : NoDup (dkeys (dict_of items)).
Proof. apply NoDup_dkeys_dupdate, NoDup_nil_2. Qed.

Lemma last_item_Some_elem items k v : last_item k items = Some v → (k, v) ∈ items.
Proof.
  induction items as [|[k0 v0] items IH]; simpl; [discriminate|].
  destruct (last_item k items) as [v'|].
  - intros [= ->]. apply list_elem_of_further, IH. reflexivity.
  - destruct (decide (k = k0)) as [->|]; [|discriminate].
    intros [= ->]. apply list_elem_of_here.
Qed.

Lemma last_item_None items k : last_item k items = None ↔ k ∉ dkeys items.
Proof.
  induction items as [|[k0 v0] items IH]; simpl.
  - split; [intros _; apply not_elem_of_nil|reflexivity].
  - rewrite not_elem_of_cons. destruct (last_item k items) as [v'|].
    + split; [discriminate|]. intros [_ Hn]. apply IH in Hn. discriminate.
    + destruct (decide (k = k0)) as [->|Hne].
      * split; [discriminate|]. intros [Hn _]. congruence.
      * split; [|reflexivity]. intros _. split; [exact Hne|]. apply IH. reflexivity.
Qed.

(** With unique keys the first and the last item of a key are one. *)
Lemma last_item_NoDup items k :
  NoDup (dkeys items) → last_item k items = dget k items.
Proof.
  induction items as [|[k0 v0] items IH]; simpl; [reflexivity|].
  intros Hnd. apply NoDup_cons in Hnd as [Hn Hnd].
  rewrite (IH Hnd). destruct (decide (k = k0)) as [->|].
  - apply dget_None_keys in Hn. rewrite Hn. reflexivity.
  - destruct (dget k items); reflexivity.
Qed.

Lemma dget_dict_of_NoDup (items : dict K V) k :
  NoDup (dkeys items) → dget k (dict_of items) = dget k items.
Proof. intros Hnd. rewrite dget_dict_of. apply last_item_NoDup, Hnd. Qed.

Lemma elem_of_dkeys d k : k ∈ dkeys d ↔ is_Some (dget k d).
Proof.
  destruct (dget k d) as [v|] eqn:Hg.
  - split; [eauto|]. intros _. eapply dget_Some_keys, Hg.
  - apply dget_None_keys in Hg. split; [contradiction|]. intros [? [=]].
Qed.

(** Filtering the items of a dict with unique keys. *)
Lemma dget_filter (P : K * V → bool) d k :
  NoDup (dkeys d) →
  dget k (List.filter P d)
  = match dget k d with
    | Some v => if P (k, v) then Some v else None
    | None => None
    end.
Proof.
  induction d as [|[k0 v0] d IH]; simpl; [reflexivity|].
  intros Hnd. apply NoDup_cons in Hnd as [Hn Hnd].
  destruct (decide (k = k0)) as [->|Hne].
  - destruct (P (k0, v0)) eqn:HP; simpl.
    + destruct (decide (k0 = k0)); congruence.
    + rewrite (IH Hnd). apply dget_None_keys in Hn. rewrite Hn. reflexivity.
  - destruct (P (k0, v0)); simpl; [|exact (IH Hnd)].
    destruct (decide (k = k0)); [congruence|exact (IH Hnd)].
Qed.

Lemma NoDup_dkeys_filter (P : K * V → bool) d :
  NoDup (dkeys d) → NoDup (dkeys (List.filter P d)).
Proof.
  induction d as [|[k0 v0] d IH]; simpl; [intros; apply NoDup_nil_2|].
  intros Hnd. apply NoDup_cons in Hnd as [Hn Hnd].
  destruct (P (k0, v0)); simpl; [|exact (IH Hnd)].
  apply NoDup_cons. split; [|exact (IH Hnd)].
  intros Hin. apply Hn. apply elem_of_dkeys in Hin as [v Hv].
  rewrite dget_filter in Hv by exact Hnd.
  destruct (dget k0 d) eqn:Hg; [|discriminate]. eapply dget_Some_keys, Hg.
Qed.

End PyDictFacts.

(** ** What a computation may do to the state *)

Section Steps.
Context {T Ext ExtExn : Type} `{EqDecision T, EqDecision Ext}.
Context (E : Env T Ext ExtExn).

#[local] Abbreviation State := (State T Ext).
#[local] Abbreviation M := (@M T Ext ExtExn).
#[local] Abbreviation steps := (steps (T:=T) (Ext:=Ext) (ExtExn:=ExtExn)).

Context (R : relation State) `{!PreOrder R}.

Lemma steps_ret {A} (a : A) : steps R (ret a).
Proof. intros s. reflexivity. Qed.

Lemma steps_raise {A} e : steps R (raise (A:=A) e).
Proof. intros s. reflexivity. Qed.

Lemma steps_lift {A} (r : Result T ExtExn A) : steps R (lift r).
Proof. intros s. reflexivity. Qed.

Lemma steps_get : steps R get.
Proof. intros s. reflexivity. Qed.

Lemma steps_modify f : (∀ s, R s (f s)) → steps R (modify f).
Proof. intros Hf s. apply Hf. Qed.

Lemma steps_bind {A B} (m : M A) (k : A → M B) :
  steps R m → (∀ a, steps R (k a)) → steps R (bind m k).
Proof.
  intros Hm Hk s. unfold bind. specialize (Hm s).
  destruct (m s) as [[a|e] s1]; simpl in *; [|exact Hm].
  transitivity s1; [exact Hm|apply Hk].
Qed.

Lemma steps_for_each {A B} (body : B → A → M B) xs acc :
  (∀ b a, steps R (body b a)) → steps R (for_each body xs acc).
Proof.
  intros Hb. revert acc. induction xs as [|x xs IH]; intros acc; simpl.
  - apply steps_ret.
  - apply steps_bind; [apply Hb|exact IH].
Qed.

Lemma steps_lru_cache {K V} `{EqDecision K} (table : State → dict K V)
    store key (body : M V) :
  steps R body → (∀ s d, R s (store d s)) → steps R (lru_cache table store key body).
Proof.
  intros Hb Hs s. unfold lru_cache. destruct (dget key (table s)); [reflexivity|].
  specialize (Hb s). destruct (body s) as [[v|e] s1]; simpl in *; [|exact Hb].
  transitivity s1; [exact Hb|apply Hs].
Qed.

(** A relation that the writes to [__stack] respect is respected by
    [annotation], as far as [_get_configuration] respects it. *)
Lemma steps_annotation_with gc t name parameter is_optional is_strict flags
    default namespace :
  (∀ s st, R s (set_stack st s)) →
  (∀ o f, steps R (gc o f)) →
  steps R (annotation_with E gc t name parameter is_optional is_strict flags
             default namespace).
Proof.
  intros Hst Hgc. unfold annotation_with.
  apply steps_bind; [apply steps_get|]. intros s0.
  apply steps_bind.
  { destruct (_ && _); [apply steps_raise|apply steps_ret]. }
  intros _. destruct (is_ForwardRef E _); [apply steps_ret|].
  destruct (_ || _).
  - apply steps_bind; [|intros; apply steps_ret].
    destruct (stack_mem _ _); [|apply steps_ret].
    apply steps_modify. intros; apply Hst.
  - apply steps_bind.
    { destruct (negb _); [|apply steps_ret]. apply steps_modify. intros; apply Hst. }
    intros _. apply steps_bind; [|intros; apply steps_ret].
    destruct (_ && _); [apply Hgc|apply steps_ret].
Qed.

Lemma steps_get_configuration fuel o f :
  (∀ s st, R s (set_stack st s)) →
  (∀ s l, R s (set_lru_get_configuration l s)) →
  steps R (_get_configuration E fuel o f).
Proof.
  intros Hst Hl. revert o f. induction fuel as [|fuel IH]; intros o f; simpl.
  - apply steps_raise.
  - apply steps_lru_cache; [|exact Hl].
    unfold _get_configuration_body.
    apply steps_bind; [|intros; apply steps_lift].
    apply steps_for_each. intros fields [name t].
    apply steps_bind; [|intros; apply steps_ret].
    apply steps_annotation_with; [exact Hst|exact IH].
Qed.

Lemma steps_annotation fuel t name parameter is_optional is_strict flags
    default namespace :
  (∀ s st, R s (set_stack st s)) →
  (∀ s l, R s (set_lru_get_configuration l s)) →
  steps R (annotation E fuel t name parameter is_optional is_strict flags
             default namespace).
Proof.
  intros Hst Hl. apply steps_annotation_with; [exact Hst|].
  intros. apply steps_get_configuration; assumption.
Qed.

Lemma steps_new_oid : (∀ s n, R s (set_next_oid n s)) → steps R new_oid.
Proof. intros Hn s. apply Hn. Qed.

Lemma steps_resolve_from_annotation_body anno des ser ns :
  (∀ s n, R s (set_builds n s)) →
  (∀ s n, R s (set_next_oid n s)) →
  (∀ s c, R s (set_cache c s)) →
  steps R (_resolve_from_annotation_body E anno des ser ns).
Proof.
  intros Hb Hn Hc. unfold _resolve_from_annotation_body.
  apply steps_bind; [apply steps_get|]. intros s0.
  destruct (dget anno (cache s0)); [apply steps_ret|].
  destruct anno.
  - apply steps_bind; [apply steps_modify; intros; apply Hb|]. intros _.
    destruct (if anno_origin_is_Callable E _ then _ else _) as [des' ser'].
    apply steps_bind.
    { destruct des'; [|apply steps_ret].
      apply steps_bind; [apply steps_lift|]. intros c.
      apply steps_bind; [apply steps_lift|]. intros dv. apply steps_ret. }
    intros [[d v] c]. apply steps_bind.
    { destruct ser'; [|apply steps_ret].
      apply steps_bind; [apply steps_lift|]. intros. apply steps_ret. }
    intros sr. apply steps_bind; [apply steps_new_oid, Hn|]. intros oid.
    apply steps_bind; [apply steps_modify; intros; apply Hc|].
    intros _. apply steps_ret.
  - apply steps_bind; [apply steps_new_oid, Hn|]. intros; apply steps_ret.
  - apply steps_bind; [apply steps_new_oid, Hn|]. intros; apply steps_ret.
Qed.

Lemma steps_resolve_from_annotation anno des ser ns :
  (∀ s n, R s (set_builds n s)) →
  (∀ s n, R s (set_next_oid n s)) →
  (∀ s c, R s (set_cache c s)) →
  (∀ s l, R s (set_lru_resolve_from_annotation l s)) →
  steps R (_resolve_from_annotation E anno des ser ns).
Proof.
  intros Hb Hn Hc Hl. apply steps_lru_cache; [|exact Hl].
  apply steps_resolve_from_annotation_body; assumption.
Qed.

Lemma steps_resolve_body a :
  (∀ s st, R s (set_stack st s)) →
  (∀ s l, R s (set_lru_get_configuration l s)) →
  (∀ s n, R s (set_builds n s)) →
  (∀ s n, R s (set_next_oid n s)) →
  (∀ s c, R s (set_cache c s)) →
  (∀ s l, R s (set_lru_resolve_from_annotation l s)) →
  steps R (resolve_body E a).
Proof.
  intros Hst Hlc Hb Hn Hc Hl. unfold resolve_body.
  apply steps_bind; [apply steps_annotation; assumption|]. intros anno.
  apply steps_bind; [apply steps_resolve_from_annotation; assumption|].
  intros p. apply steps_bind; [apply steps_modify; intros; apply Hst|].
  intros _. apply steps_ret.
Qed.

End Steps.

(** ** Memoization of [resolve] *)

Section Memo.
Context {T Ext ExtExn : Type} `{EqDecision T, EqDecision Ext}.
Context (E : Env T Ext ExtExn).

#[local] Abbreviation State := (State T Ext).
#[local] Abbreviation steps := (steps (T:=T) (Ext:=Ext) (ExtExn:=ExtExn)).
#[local] Abbreviation hoare := (hoare (T:=T) (Ext:=Ext) (ExtExn:=ExtExn)).
#[local] Abbreviation same_lru_resolve := (same_lru_resolve (T:=T) (Ext:=Ext)).
#[local] Abbreviation same_protocols := (same_protocols (T:=T) (Ext:=Ext)).
#[local] Abbreviation same_configs := (same_configs (T:=T) (Ext:=Ext)).
#[local] Abbreviation nothing_stored := (nothing_stored (T:=T) (Ext:=Ext)).

#[local] Instance same_lru_resolve_preorder : PreOrder same_lru_resolve.
Proof.
  split; [intros s; reflexivity|].
  intros s1 s2 s3 H12 H23. unfold same_lru_resolve in *. congruence.
Qed.

Lemma resolve_body_same_lru a s :
  lru_resolve (resolve_body E a s).2 = lru_resolve s.
Proof.
  apply (steps_resolve_body E same_lru_resolve a); intros; reflexivity.
Qed.

Lemma resolve_hit a s p :
  dget a (lru_resolve s) = Some p → resolve E a s = (Ok p, s).
Proof. intros Hg. unfold resolve, lru_cache. rewrite Hg. reflexivity. Qed.

Lemma resolve_stores a s p s1 :
  resolve E a s = (Ok p, s1) → dget a (lru_resolve s1) = Some p.
Proof.
  unfold resolve, lru_cache. destruct (dget a (lru_resolve s)) eqn:Hg.
  - intros [= -> ->]. exact Hg.
  - destruct (resolve_body E a s) as [[v|e] s'] eqn:Hb; [|discriminate].
    intros [= -> <-]. simpl. apply dget_dset_eq.
Qed.

(** An entry of the memo table is never evicted or overwritten. *)
Lemma resolve_keeps a b s p :
  dget a (lru_resolve s) = Some p →
  dget a (lru_resolve (resolve E b s).2) = Some p.
Proof.
  intros Hg. unfold resolve, lru_cache.
  destruct (dget b (lru_resolve s)) eqn:Hb; [exact Hg|].
  pose proof (resolve_body_same_lru b s) as Hsame.
  destruct (resolve_body E b s) as [[v|e] s'] eqn:Hr; simpl in *.
  - rewrite Hsame, dget_dset_ne; [exact Hg|]. intros ->. congruence.
  - rewrite Hsame. exact Hg.
Qed.

Lemma resolve_all_keeps a calls s p :
  dget a (lru_resolve s) = Some p →
  dget a (lru_resolve (resolve_all E calls s)) = Some p.
Proof.
  revert s. induction calls as [|b calls IH]; intros s Hg; simpl; [exact Hg|].
  apply IH, resolve_keeps, Hg.
Qed.

(** C1. Once [resolve] has returned a protocol [p] for some arguments,
    every later call with the same arguments (after any number of other
    [resolve] calls) returns [p] itself, with the same object identity
    [oid], and leaves the whole state untouched: nothing is built again
    ([builds] and [next_oid] do not move). *)
Theorem resolve_idempotent (a : ResolveArgs T) (s s1 : State)
    (p : ProtocolT T Ext) (calls : list (ResolveArgs T)) :
  resolve E a s = (Ok p, s1) →
  resolve E a (resolve_all E calls s1) = (Ok p, resolve_all E calls s1).
Proof.
  intros Hfirst. apply resolve_hit, resolve_all_keeps.
  eapply resolve_stores, Hfirst.
Qed.

End Memo.

(** ** Running the monad *)

Section Run.
Context {T Ext ExtExn : Type}.
#[local] Abbreviation M := (@M T Ext ExtExn).
Implicit Types s : State T Ext.

Lemma run_bind_get {B} (k : State T Ext → M B) s : bind get k s = k s s.
Proof. reflexivity. Qed.

Lemma run_bind_ret {A B} (a : A) (k : A → M B) s : bind (ret a) k s = k a s.
Proof. reflexivity. Qed.

Lemma run_bind_raise {A B} e (k : A → M B) s :
  bind (raise e) k s = (Raise e, s).
Proof. reflexivity. Qed.

Lemma run_bind_modify {B} f (k : unit → M B) s :
  bind (modify f) k s = k tt (f s).
Proof. reflexivity. Qed.

Lemma run_bind_lift_Ok {A B} (a : A) (k : A → M B) s :
  bind (lift (Ok a)) k s = k a s.
Proof. reflexivity. Qed.

Lemma run_bind_lift_Raise {A B} e (k : A → M B) s :
  bind (lift (Raise e)) k s = (Raise e, s).
Proof. reflexivity. Qed.

Lemma run_bind_Ok {A B} (m : M A) (k : A → M B) s a s1 :
  m s = (Ok a, s1) → bind m k s = k a s1.
Proof. intros Hm. unfold bind. rewrite Hm. reflexivity. Qed.

Lemma run_bind_Raise {A B} (m : M A) (k : A → M B) s e s1 :
  m s = (Raise e, s1) → bind m k s = (Raise e, s1).
Proof. intros Hm. unfold bind. rewrite Hm. reflexivity. Qed.

(** A bind that returns has run both of its halves. *)
Lemma run_bind_inv_Ok {A B} (m : M A) (k : A → M B) s b s2 :
  bind m k s = (Ok b, s2) →
  ∃ a s1, m s = (Ok a, s1) ∧ k a s1 = (Ok b, s2).
Proof.
  unfold bind. destruct (m s) as [[a|e] s1]; [eauto|discriminate].
Qed.

End Run.

(** ** Literal legality *)

Section Literals.
Context {T Ext ExtExn : Type} `{EqDecision T, EqDecision Ext}.
Context (E : Env T Ext ExtExn).

Lemma existsb_negb {A} (f : A → bool) (l : list A) :
  existsb (fun a => negb (f a)) l = negb (forallb f l).
Proof.
  induction l as [|a l IH]; simpl; [reflexivity|].
  rewrite IH. destruct (f a), (forallb f l); reflexivity.
Qed.

(** C2. Let [u] be what [annotation] computes from a description before it
    looks at literals: the type to use and the flags. When the description
    is a literal type ([is_literal] holds after unwrapping) and one of its
    arguments is not an instance of [Resolver.LITERALS] (int, bytes, str,
    bool, Enum, NoneType), [annotation] raises a [TypeError] carrying the
    arguments and leaves the resolver's state as it found it: the check
    sits before the forward-reference, recursion and field-mapping steps,
    and [annotation] takes no input value at all. When every argument is
    an instance of one of those classes, [annotation] returns an
    annotation and raises nothing. *)
Theorem annotation_literal_legality (fuel : nat) (t : T)
    (name : option string) (parameter : option (Param T))
    (is_optional : option bool) (is_strict : PyStrict)
    (flags : option (SerdeFlags T)) (default : T) (namespace : option T)
    (s : State T Ext) :
  let p := match parameter with
           | Some p => p
           | None => default_parameter E t name default
           end in
  let u := canonical E (strict_mode s) t p is_optional is_strict in
  let args := util_get_args E (u_use u) in
  u_is_literal u = true →
  (forallb (isinstance_LITERALS E) args = false →
   annotation E fuel t name parameter is_optional is_strict flags default
     namespace s = (Raise (TypeError args), s)) ∧
  (forallb (isinstance_LITERALS E) args = true →
   ∃ a s', annotation E fuel t name parameter is_optional is_strict flags
             default namespace s = (Ok a, s')).
Proof.
  intros p u args Hlit. subst p u args.
  unfold annotation, annotation_with.
  set (p := match parameter with
            | Some p => p
            | None => default_parameter E t name default
            end) in *.
  rewrite run_bind_get.
  set (u := canonical E (strict_mode s) t p is_optional is_strict) in *.
  rewrite Hlit, existsb_negb.
  destruct (forallb _ _); split; intros Hlegal; try discriminate Hlegal.
  - simpl andb. cbv iota. rewrite run_bind_ret.
    destruct (is_ForwardRef E _); [unfold ret; eauto|].
    destruct (_ || _).
    + destruct (stack_mem _ _);
        rewrite ?run_bind_modify, ?run_bind_ret; unfold ret; eauto.
    + rewrite andb_false_r.
      destruct (negb _);
        rewrite ?run_bind_modify, ?run_bind_ret; unfold ret; eauto.
  - reflexivity.
Qed.

End Literals.

(** ** The field maps *)

Section FieldMaps.
Context {T Ext ExtExn : Type} `{EqDecision T, EqDecision Ext}.
Context (E : Env T Ext ExtExn).

#[local] Abbreviation SerdeFlags := (SerdeFlags T).
#[local] Abbreviation AnnotationT := (AnnotationT T).
#[local] Abbreviation Result := (Result T ExtExn).
Implicit Types (flags : SerdeFlags) (fields : dict string AnnotationT).
Implicit Types (fo : dict string string) (params : list string).

Lemma NoDup_elem_dget {K V} `{EqDecision K} (d : dict K V) k v :
  NoDup (dkeys d) → (k, v) ∈ d → dget k d = Some v.
Proof.
  induction d as [|[k0 v0] d IH]; simpl; intros Hnd Hin.
  - apply elem_of_nil in Hin as [].
  - apply NoDup_cons in Hnd as [Hn Hnd]. apply elem_of_cons in Hin as [[= -> ->]|Hin].
    + destruct (decide (k0 = k0)); congruence.
    + destruct (decide (k = k0)) as [->|]; [|exact (IH Hnd Hin)].
      destruct Hn. change k0 with (fst (k0, v)). apply list_elem_of_fmap_2, Hin.
Qed.

Lemma last_item_diag {V} (h : string → V) (l : list string) x :
  last_item x (map (fun x => (x, h x)) l)
  = if decide (x ∈ l) then Some (h x) else None.
Proof.
  induction l as [|x0 l IH]; simpl.
  - destruct (decide (x ∈ [])) as [Hin|]; [|reflexivity].
    apply elem_of_nil in Hin as [].
  - rewrite IH. destruct (decide (x ∈ l)) as [Hin|Hn].
    + destruct (decide (x ∈ x0 :: l)) as [|Hn']; [reflexivity|].
      destruct Hn'. apply list_elem_of_further, Hin.
    + destruct (decide (x = x0)) as [->|Hne].
      * destruct (decide (x0 ∈ x0 :: l)) as [|Hn']; [reflexivity|].
        destruct Hn'. apply list_elem_of_here.
      * destruct (decide (x ∈ x0 :: l)) as [Hin'|]; [|reflexivity].
        apply elem_of_cons in Hin' as [?|?]; congruence.
Qed.

(** *** The seed and the explicit names *)

Lemma dget_fields_out_seed fields x :
  dget x (fields_out_seed fields)
  = if decide (x ∈ dkeys fields) then Some x else None.
Proof. unfold fields_out_seed. rewrite dget_dict_of. apply last_item_diag. Qed.

Lemma dget_fields_out_include flags fo x :
  dget x (fields_out_include flags fo)
  = match listed_name flags x with Some r => Some r | None => dget x fo end.
Proof.
  unfold fields_out_include, listed_name.
  destruct (flags_fields flags) as [[|kv m]|[|n l]].
  - reflexivity.
  - apply dget_dupdate.
  - destruct (decide (x ∈ [])) as [Hin|]; [|reflexivity].
    apply elem_of_nil in Hin as [].
  - rewrite dget_dupdate, <- dget_dict_of, dget_dict_of_NoDup
      by apply NoDup_dkeys_dict_of.
    rewrite dget_dict_of. rewrite (last_item_diag (fun x => x)). reflexivity.
Qed.

Lemma NoDup_fields_out_include flags fo :
  NoDup (dkeys fo) → NoDup (dkeys (fields_out_include flags fo)).
Proof.
  intros Hnd. unfold fields_out_include.
  destruct (flags_fields flags) as [[|kv m]|[|n l]];
    try exact Hnd; apply NoDup_dkeys_dupdate, Hnd.
Qed.

(** *** The case policy *)

Lemma dkeys_map_values (g : string → string) fo :
  dkeys (map (fun '(x, y) => (x, g y)) fo) = dkeys fo.
Proof.
  induction fo as [|[x y] fo IH]; simpl; [reflexivity|]. f_equal. exact IH.
Qed.

Lemma dget_map_values (g : string → string) fo x :
  dget x (map (fun '(x, y) => (x, g y)) fo) = g <$> dget x fo.
Proof.
  induction fo as [|[x0 y0] fo IH]; simpl; [reflexivity|].
  destruct (decide (x = x0)); [reflexivity|exact IH].
Qed.

Lemma dget_fields_out_case flags fo x :
  NoDup (dkeys fo) →
  dget x (fields_out_case E flags fo) = cased E flags <$> dget x fo.
Proof.
  intros Hnd. unfold fields_out_case, cased. destruct (flags_case flags) as [c|].
  - rewrite dget_dict_of_NoDup by (rewrite dkeys_map_values; exact Hnd).
    apply dget_map_values.
  - destruct (dget x fo); reflexivity.
Qed.

Lemma NoDup_fields_out_case flags fo :
  NoDup (dkeys fo) → NoDup (dkeys (fields_out_case E flags fo)).
Proof.
  intros Hnd. unfold fields_out_case. destruct (flags_case flags); [|exact Hnd].
  apply NoDup_dkeys_dict_of.
Qed.

(** *** Omission by type *)

Lemma fields_out_omit_loop_spec omit fields items acc fo' :
  fields_out_omit_loop E omit fields items acc = Ok fo' →
  NoDup (dkeys acc) →
  NoDup (dkeys fo')
  ∧ ∀ x y, dget x fo' = Some y → dget x acc = Some y ∨ (x, y) ∈ items.
Proof.
  revert acc. induction items as [|[name out] items IH]; simpl; intros acc Hloop Hnd.
  - injection Hloop as <-. split; [exact Hnd|]. intros; left; assumption.
  - destruct (getitem fields name) as [anno|e]; [|discriminate].
    destruct (omit_keeps E omit anno) as [keep|e]; [|discriminate].
    apply IH in Hloop as [Hnd' Hsub].
    + split; [exact Hnd'|]. intros x y Hg. apply Hsub in Hg as [Hg|Hin].
      * destruct keep; [|left; exact Hg].
        rewrite dget_dset in Hg. destruct (decide (x = name)) as [->|].
        -- injection Hg as ->. right. apply list_elem_of_here.
        -- left. exact Hg.
      * right. apply list_elem_of_further, Hin.
    + destruct keep; [apply NoDup_dkeys_dset|]; exact Hnd.
Qed.

Lemma fields_out_omit_spec flags fields fo fo' :
  fields_out_omit E flags fields fo = Ok fo' →
  NoDup (dkeys fo) →
  NoDup (dkeys fo') ∧ ∀ x y, dget x fo' = Some y → dget x fo = Some y.
Proof.
  unfold fields_out_omit. destruct (flags_omit flags) as [|o omit].
  - intros [= <-] Hnd. split; [exact Hnd|]. intros; assumption.
  - intros Hloop Hnd.
    apply fields_out_omit_loop_spec in Hloop as [Hnd' Hsub]; [|apply NoDup_nil_2].
    split; [exact Hnd'|]. intros x y Hg. apply Hsub in Hg as [Hg|Hin].
    + discriminate Hg.
    + apply NoDup_elem_dget; assumption.
Qed.

(** *** The output map before [exclude] *)

Lemma fields_out_before_exclude_spec flags fields fo :
  fields_out_before_exclude E flags fields = Ok fo →
  NoDup (dkeys fo)
  ∧ ∀ x y, dget x fo = Some y →
      y = cased E flags (default x (listed_name flags x))
      ∧ (x ∈ dkeys fields ∨ is_Some (listed_name flags x)).
Proof.
  unfold fields_out_before_exclude. intros Homit.
  assert (NoDup (dkeys (fields_out_include flags (fields_out_seed fields))))
    as Hnd1 by apply NoDup_fields_out_include, NoDup_dkeys_dict_of.
  apply fields_out_omit_spec in Homit as [Hnd Hsub];
    [|apply NoDup_fields_out_case, Hnd1].
  split; [exact Hnd|]. intros x y Hg. apply Hsub in Hg.
  rewrite dget_fields_out_case, dget_fields_out_include, dget_fields_out_seed
    in Hg by exact Hnd1.
  destruct (listed_name flags x) as [r|]; simpl in *.
  - injection Hg as <-. split; [reflexivity|right; eauto].
  - destruct (decide (x ∈ dkeys fields)); simpl in Hg; [|discriminate].
    injection Hg as <-. split; [reflexivity|left; assumption].
Qed.

(** What the omit loop returns, entry by entry. *)
Lemma fields_out_omit_loop_iff omit fields items acc fo' :
  fields_out_omit_loop E omit fields items acc = Ok fo' →
  NoDup (dkeys items) →
  (∀ x, x ∈ dkeys items → dget x acc = None) →
  ∀ x y, dget x fo' = Some y ↔
    dget x acc = Some y
    ∨ ((x, y) ∈ items
       ∧ ∃ anno, dget x fields = Some anno
                 ∧ omit_keeps E omit anno = Ok true).
Proof.
  revert acc. induction items as [|[name out] items IH]; simpl;
    intros acc Hloop Hnd Hdisj x y.
  - injection Hloop as <-. split; [eauto|].
    intros [Hacc|[Hin _]]; [exact Hacc|]. apply elem_of_nil in Hin as [].
  - unfold getitem in Hloop.
    destruct (dget name fields) as [anno|] eqn:Hg; [|discriminate].
    destruct (omit_keeps E omit anno) as [keep|e] eqn:Hk; [|discriminate].
    apply NoDup_cons in Hnd as [Hname Hnd].
    assert (∀ x0, x0 ∈ dkeys items →
              dget x0 (if keep then dset name out acc else acc) = None)
      as Hdisj'.
    { intros x0 Hx0. destruct keep; [|apply Hdisj, list_elem_of_further, Hx0].
      rewrite dget_dset_ne by (intros ->; contradiction).
      apply Hdisj, list_elem_of_further, Hx0. }
    rewrite (IH _ Hloop Hnd Hdisj' x y). split.
    + intros [Hacc|[Hin Hkept]].
      * destruct keep; [|left; exact Hacc]. rewrite dget_dset in Hacc.
        destruct (decide (x = name)) as [->|_]; [|left; exact Hacc].
        injection Hacc as <-. right. split; [apply list_elem_of_here|eauto].
      * right. split; [apply list_elem_of_further, Hin|exact Hkept].
    + intros [Hacc|[Hin (anno' & Ha & Hkept)]].
      * left. assert (x ≠ name) as Hne.
        { intros ->. rewrite (Hdisj name) in Hacc by apply list_elem_of_here.
          discriminate. }
        destruct keep; [rewrite dget_dset_ne by exact Hne|]; exact Hacc.
      * apply elem_of_cons in Hin as [[= -> ->]|Hin].
        -- left. assert (keep = true) as -> by congruence. apply dget_dset_eq.
        -- right. split; [exact Hin|eauto].
Qed.

(** The output map before [exclude], entry by entry: a name has an entry
    exactly when it is a field or a listed name that the omit loop keeps,
    and the entry is the case conversion of the listed name, or of the name
    itself when none is listed. *)
Lemma fields_out_before_exclude_iff flags fields fo :
  fields_out_before_exclude E flags fields = Ok fo →
  ∀ x y, dget x fo = Some y ↔
    y = cased E flags (default x (listed_name flags x))
    ∧ (x ∈ dkeys fields ∨ is_Some (listed_name flags x))
    ∧ (flags_omit flags = []
       ∨ ∃ anno, dget x fields = Some anno
                 ∧ omit_keeps E (flags_omit flags) anno = Ok true).
Proof.
  unfold fields_out_before_exclude, fields_out_omit. intros Hfo x y.
  set (items := fields_out_case E flags
                  (fields_out_include flags (fields_out_seed fields))) in *.
  assert (NoDup (dkeys (fields_out_include flags (fields_out_seed fields))))
    as Hnd1 by apply NoDup_fields_out_include, NoDup_dkeys_dict_of.
  assert (NoDup (dkeys items)) as Hnd by apply NoDup_fields_out_case, Hnd1.
  assert (dget x items = Some y ↔
            y = cased E flags (default x (listed_name flags x))
            ∧ (x ∈ dkeys fields ∨ is_Some (listed_name flags x))) as Hitems.
  { subst items.
    rewrite dget_fields_out_case, dget_fields_out_include,
      dget_fields_out_seed by exact Hnd1.
    destruct (listed_name flags x) as [r|]; simpl.
    - split; [intros [= <-]; eauto|]. intros [-> _]. reflexivity.
    - destruct (decide (x ∈ dkeys fields)) as [Hin|Hn]; simpl.
      + split; [intros [= <-]; eauto|]. intros [-> _]. reflexivity.
      + split; [discriminate|]. intros [_ [Hin|[? [=]]]]. contradiction. }
  destruct (flags_omit flags) as [|o omit] eqn:Homit.
  - injection Hfo as <-. rewrite Hitems. split; [intros []; eauto|].
    intros (? & ? & _). eauto.
  - rewrite (fields_out_omit_loop_iff _ _ _ _ _ Hfo Hnd) by reflexivity.
    split.
    + intros [[=]|[Hin Hkept]]. apply NoDup_elem_dget in Hin; [|exact Hnd].
      apply Hitems in Hin as [? ?]. eauto.
    + intros (Hy & Hx & [[=]|Hkept]). right. split; [|exact Hkept].
      apply dget_Some_elem, Hitems. eauto.
Qed.

(** *** [exclude] and the input map *)

Lemma dget_fields_out_exclude flags fo x :
  NoDup (dkeys fo) →
  dget x (fields_out_exclude flags fo)
  = if decide (x ∈ flags_exclude flags) then None else dget x fo.
Proof.
  intros Hnd. unfold fields_out_exclude.
  destruct (flags_exclude flags) as [|e excl] eqn:Hex.
  - destruct (decide (x ∈ [])) as [Hin|]; [|reflexivity].
    apply elem_of_nil in Hin as [].
  - rewrite dget_dict_of_NoDup by apply NoDup_dkeys_filter, Hnd.
    rewrite dget_filter by exact Hnd.
    destruct (dget x fo) as [y|]; simpl.
    + destruct (decide (x ∈ e :: excl)) as [Hin|Hn].
      * rewrite bool_decide_eq_true_2 by exact Hin. reflexivity.
      * rewrite bool_decide_eq_false_2 by exact Hn. reflexivity.
    + destruct (decide (x ∈ e :: excl)); reflexivity.
Qed.

Lemma dget_fields_in_of fo params y :
  dget y (fields_in_of fo params)
  = match key_of fo y with
    | Some x => if accepts params x then Some x else None
    | None => None
    end.
Proof.
  unfold fields_in_of, key_of.
  set (inv := dict_of (map (fun '(x, y) => (y, x)) fo)).
  assert (dget y inv = last_item y (map (fun '(x, y) => (y, x)) fo)) as Hinv
    by apply dget_dict_of.
  assert (NoDup (dkeys inv)) as Hnd by apply NoDup_dkeys_dict_of.
  rewrite <- Hinv. destruct params as [|p params]; simpl.
  - destruct (dget y inv); reflexivity.
  - rewrite dget_dict_of_NoDup by apply NoDup_dkeys_filter, Hnd.
    rewrite dget_filter by exact Hnd. reflexivity.
Qed.

(** *** The fields kept under [signature_only] *)

Lemma collect_elem {A B} (f : A → Result B) xs ys y :
  collect f xs = Ok ys → y ∈ ys → ∃ x, x ∈ xs ∧ f x = Ok y.
Proof.
  revert ys. induction xs as [|x xs IH]; simpl; intros ys Hc Hin.
  - injection Hc as <-. apply elem_of_nil in Hin as [].
  - destruct (f x) as [y0|e] eqn:Hf; [|discriminate].
    destruct (collect f xs) as [ys0|e]; [|discriminate].
    injection Hc as <-. apply elem_of_cons in Hin as [->|Hin].
    + exists x. split; [apply list_elem_of_here|exact Hf].
    + destruct (IH _ eq_refl Hin) as (x' & Hx' & Hfx').
      exists x'. split; [apply list_elem_of_further, Hx'|exact Hfx'].
Qed.

Lemma fields_signature_only_elem flags fields params fields' n a :
  fields_signature_only E flags fields params = Ok fields' →
  (n, a) ∈ fields' → (n, a) ∈ fields.
Proof.
  unfold fields_signature_only. destruct (flags_signature_only flags).
  - destruct (collect _ _) as [items|e] eqn:Hc; [|discriminate].
    intros [= <-] Hin.
    apply NoDup_elem_dget in Hin; [|apply NoDup_dkeys_dict_of].
    rewrite dget_dict_of in Hin. apply last_item_Some_elem in Hin.
    destruct (collect_elem _ _ _ _ Hc Hin) as (x & _ & Hx).
    unfold getitem in Hx. destruct (dget x fields) as [a'|] eqn:Hg; [|discriminate].
    injection Hx as <- <-. apply dget_Some_elem, Hg.
  - intros [= <-] Hin. exact Hin.
Qed.

(** *** What [configure] returns *)

Lemma configure_inv flags fields params cfg :
  configure E flags fields params = Ok cfg →
  ∃ fields' fo,
    fields_signature_only E flags fields params = Ok fields'
    ∧ fields_out_before_exclude E flags fields' = Ok fo
    ∧ serde_flags cfg = flags
    ∧ serde_fields cfg = fields'
    ∧ serde_fields_out cfg = fields_out_exclude flags fo
    ∧ serde_fields_in cfg = fields_in_of fo params.
Proof.
  unfold configure. intros Hc.
  destruct (fields_signature_only E flags fields params) as [fields'|e] eqn:H1;
    [|discriminate].
  destruct (fields_out_before_exclude E flags fields') as [fo|e] eqn:H2;
    [|discriminate].
  injection Hc as <-. exists fields', fo. repeat split; assumption.
Qed.

End FieldMaps.

(** ** Invariants of the memo tables *)

Section Hoare.
Context {T Ext ExtExn : Type} `{EqDecision T, EqDecision Ext}.
Context (E : Env T Ext ExtExn).

#[local] Abbreviation State := (State T Ext).
#[local] Abbreviation M := (@M T Ext ExtExn).
#[local] Abbreviation SerdeFlags := (SerdeFlags T).
#[local] Abbreviation AnnotationT := (AnnotationT T).
#[local] Abbreviation steps := (steps (T:=T) (Ext:=Ext) (ExtExn:=ExtExn)).
#[local] Abbreviation hoare := (hoare (T:=T) (Ext:=Ext) (ExtExn:=ExtExn)).

Section Rules.
Context (I : State → Prop).

Lemma hoare_ret {A} (a : A) (Q : A → Prop) : Q a → hoare I (ret a) Q.
Proof. intros HQ s Hs. split; [exact Hs|]. intros a' [= <-]. exact HQ. Qed.

Lemma hoare_raise {A} e (Q : A → Prop) : hoare I (raise e) Q.
Proof. intros s Hs. split; [exact Hs|]. intros a' [=]. Qed.

Lemma hoare_lift {A} (r : Result T ExtExn A) (Q : A → Prop) :
  (∀ a, r = Ok a → Q a) → hoare I (lift r) Q.
Proof. intros HQ s Hs. split; [exact Hs|exact HQ]. Qed.

Lemma hoare_get : hoare I get I.
Proof. intros s Hs. split; [exact Hs|]. intros a [= <-]. exact Hs. Qed.

Lemma hoare_modify f :
  (∀ s, I s → I (f s)) → hoare I (modify f) (fun _ => True).
Proof. intros Hf s Hs. split; [apply Hf, Hs|]. intros; exact Logic.I. Qed.

Lemma hoare_bind {A B} (m : M A) (k : A → M B) (Q1 : A → Prop) (Q2 : B → Prop) :
  hoare I m Q1 → (∀ a, Q1 a → hoare I (k a) Q2) → hoare I (bind m k) Q2.
Proof.
  intros Hm Hk s Hs. unfold bind. destruct (Hm s Hs) as [HI HQ].
  destruct (m s) as [[a|e] s1]; simpl in *.
  - apply (Hk a); [apply HQ; reflexivity|exact HI].
  - split; [exact HI|]. intros b [=].
Qed.

Lemma hoare_weaken {A} (m : M A) (Q Q' : A → Prop) :
  hoare I m Q → (∀ a, Q a → Q' a) → hoare I m Q'.
Proof.
  intros Hm HQ s Hs. destruct (Hm s Hs) as [HI Hpost].
  split; [exact HI|]. intros a Ha. apply HQ, Hpost, Ha.
Qed.

Lemma hoare_for_each {A B} (body : B → A → M B) xs acc (Q : B → Prop) :
  Q acc → (∀ b a, Q b → hoare I (body b a) Q) →
  hoare I (for_each body xs acc) Q.
Proof.
  intros Hacc Hb. revert acc Hacc.
  induction xs as [|x xs IH]; intros acc Hacc; simpl.
  - apply hoare_ret, Hacc.
  - eapply hoare_bind; [apply Hb, Hacc|]. intros acc' Hacc'. apply IH, Hacc'.
Qed.

Lemma hoare_lru_cache {K V} `{EqDecision K} (table : State → dict K V)
    store key (body : M V) (Q : V → Prop) :
  (∀ s v, I s → dget key (table s) = Some v → Q v) →
  hoare I body Q →
  (∀ s v, I s → Q v → I (store (dset key v (table s)) s)) →
  hoare I (lru_cache table store key body) Q.
Proof.
  intros Hhit Hb Hstore s Hs. unfold lru_cache.
  destruct (dget key (table s)) as [v|] eqn:Hg.
  - split; [exact Hs|]. intros a [= <-]. eapply Hhit; eassumption.
  - destruct (Hb s Hs) as [HI HQ].
    destruct (body s) as [[v|e] s1]; simpl in *.
    + split; [apply Hstore; [exact HI|apply HQ; reflexivity]|].
      intros a [= <-]. apply HQ. reflexivity.
    + split; [exact HI|]. intros a [=].
Qed.

(** A frame relation that implies [I] is kept gives a triple. *)
Lemma hoare_steps {A} (R : relation State) (m : M A) :
  (∀ s s', R s s' → I s → I s') → steps R m → hoare I m (fun _ => True).
Proof.
  intros HR Hm s Hs. split; [eapply HR; [apply Hm|exact Hs]|].
  intros; exact Logic.I.
Qed.

End Rules.

(** *** The configurations *)

Lemma elem_of_dset {K V} `{EqDecision K} (d : dict K V) k v k' v' :
  (k, v) ∈ dset k' v' d → (k, v) = (k', v') ∨ (k, v) ∈ d.
Proof.
  induction d as [|[k0 v0] d IH]; simpl.
  - intros Hin. apply list_elem_of_singleton in Hin. left. exact Hin.
  - destruct (decide (k' = k0)) as [->|]; intros Hin;
      apply elem_of_cons in Hin as [Heq|Hin].
    + left. exact Heq.
    + right. apply list_elem_of_further, Hin.
    + right. rewrite Heq. apply list_elem_of_here.
    + apply IH in Hin as [?|?]; [left; assumption|].
      right. apply list_elem_of_further. assumption.
Qed.

Lemma produced_flags o f cfg :
  produced E o f cfg → serde_flags cfg = own_flags E o f.
Proof.
  intros (fields & Hc & _).
  apply configure_inv in Hc as (? & ? & _ & _ & Hf & _). exact Hf.
Qed.

(** The flags of the annotation [annotation] returns: the flags it settled
    on, or the flag block of some class. *)
Lemma hoare_annotation_with (I : State → Prop) gc t name parameter
    is_optional is_strict flags default namespace :
  (∀ s st, I s → I (set_stack st s)) →
  (∀ o f, hoare I (gc o f) (produced E o f)) →
  hoare I
    (annotation_with E gc t name parameter is_optional is_strict flags
       default namespace)
    (fun a =>
       anno_flags a = match flags with Some f => f | None => SerdeFlags_default end
       ∨ ∃ t', SERDE_FLAGS_ATTR E t' = Some (anno_flags a)).
Proof.
  intros Hst Hgc. unfold annotation_with.
  set (local := match SERDE_FLAGS_ATTR E t with
                | Some f => f
                | None => match flags with
                          | Some f => f
                          | None => SerdeFlags_default
                          end
                end).
  set (passed := match flags with Some f => f | None => SerdeFlags_default end).
  assert (local = passed ∨ ∃ t', SERDE_FLAGS_ATTR E t' = Some local) as Hlocal.
  { subst local passed. destruct (SERDE_FLAGS_ATTR E t) as [f|] eqn:Hattr.
    - right. exists t. exact Hattr.
    - left. reflexivity. }
  eapply hoare_bind; [apply hoare_get|]. intros s0 _.
  eapply hoare_bind.
  { instantiate (1 := fun _ => True).
    destruct (_ && _); [apply hoare_raise|apply hoare_ret; exact Logic.I]. }
  intros _ _. destruct (is_ForwardRef E _).
  { apply hoare_ret, Hlocal. }
  destruct (_ || _).
  - eapply hoare_bind.
    { instantiate (1 := fun _ => True). destruct (stack_mem _ _).
      - apply hoare_modify. intros; apply Hst; assumption.
      - apply hoare_ret. exact Logic.I. }
    intros _ _. apply hoare_ret, Hlocal.
  - eapply hoare_bind.
    { instantiate (1 := fun _ => True). destruct (negb _).
      - apply hoare_modify. intros; apply Hst; assumption.
      - apply hoare_ret. exact Logic.I. }
    intros _ _.
    eapply hoare_bind with
      (Q1 := fun cfg => serde_flags cfg = passed
                        ∨ ∃ t', SERDE_FLAGS_ATTR E t' = Some (serde_flags cfg)).
    + destruct (_ && _).
      * eapply hoare_weaken; [apply Hgc|]. intros cfg Hcfg.
        rewrite (produced_flags _ _ _ Hcfg). unfold own_flags.
        destruct (SERDE_FLAGS_ATTR E (util_origin E _)) as [f|] eqn:Hattr.
        -- right. eexists. exact Hattr.
        -- exact Hlocal.
      * apply hoare_ret. exact Hlocal.
    + intros cfg Hcfg. apply hoare_ret. exact Hcfg.
Qed.

(** [_get_configuration] keeps [wf_configs] and returns a configuration
    produced for its arguments. *)
Lemma hoare_get_configuration fuel o f :
  hoare (wf_configs E) (_get_configuration E fuel o f) (produced E o f).
Proof.
  revert o f. induction fuel as [|fuel IH]; intros o f; simpl.
  - apply hoare_raise.
  - apply hoare_lru_cache.
    + intros s cfg Hs Hg. apply (Hs _ _ _ Hg).
    + unfold _get_configuration_body.
      eapply hoare_bind with
        (Q1 := fun fields : dict string AnnotationT =>
                 ∀ n a, (n, a) ∈ fields → nested_ok E (own_flags E o f) a).
      * apply hoare_for_each.
        { intros n a Hin. apply elem_of_nil in Hin as []. }
        intros fields [name t] Hfields.
        eapply hoare_bind;
          [apply hoare_annotation_with; [intros s st Hs; exact Hs|exact IH]|].
        intros a Ha. apply hoare_ret. intros n a' Hin.
        apply elem_of_dset in Hin as [[= -> ->]|Hin]; [exact Ha|].
        apply (Hfields _ _ Hin).
      * intros fields Hfields. apply hoare_lift. intros cfg Hcfg.
        exists fields. split; assumption.
    + intros s cfg Hs Hcfg o' f' cfg'. simpl.
      rewrite dget_dset. destruct (decide ((o', f') = (o, f))) as [[= -> ->]|_].
      * intros [= <-]. exact Hcfg.
      * apply Hs.
Qed.

Lemma hoare_annotation fuel t name parameter is_optional is_strict flags
    default namespace :
  hoare (wf_configs E)
    (annotation E fuel t name parameter is_optional is_strict flags default
       namespace)
    (fun a =>
       anno_flags a = match flags with Some f => f | None => SerdeFlags_default end
       ∨ ∃ t', SERDE_FLAGS_ATTR E t' = Some (anno_flags a)).
Proof.
  apply hoare_annotation_with; [intros s st Hs; exact Hs|].
  intros. apply hoare_get_configuration.
Qed.

End Hoare.

(** ** What [_get_configuration] returns *)

Section Configuration.
Context {T Ext ExtExn : Type} `{EqDecision T, EqDecision Ext}.
Context (E : Env T Ext ExtExn).

Lemma get_configuration_produced fuel o f s cfg s' :
  wf_configs E s →
  _get_configuration E fuel o f s = (Ok cfg, s') →
  produced E o f cfg.
Proof.
  intros Hwf Hrun. destruct (hoare_get_configuration E fuel o f s Hwf) as [_ HQ].
  apply HQ. rewrite Hrun. reflexivity.
Qed.

Lemma produced_maps o f cfg :
  produced E o f cfg →
  ∃ fields fo,
    (∀ n a, (n, a) ∈ fields → nested_ok E (own_flags E o f) a)
    ∧ fields_out_before_exclude E (own_flags E o f) fields = Ok fo
    ∧ serde_flags cfg = own_flags E o f
    ∧ serde_fields cfg = fields
    ∧ serde_fields_out cfg = fields_out_exclude (own_flags E o f) fo
    ∧ serde_fields_in cfg = fields_in_of fo (util_safe_get_params E o).
Proof.
  intros (fields & Hc & Hnested).
  apply configure_inv in Hc as (fields' & fo & Hsig & Hfo & Hfl & Hf & Hout & Hin).
  exists fields', fo. repeat split; try assumption.
  intros n a Hna. eapply Hnested, fields_signature_only_elem; eassumption.
Qed.

(** C5, amended. The output name of a field is the case conversion (when
    the flags set a case policy) of the name the flags list for it, and of
    its own name when they list none: identity first, then the explicit
    names, then the case policy, which applies to every output name,
    renamed or not. *)
Theorem fields_out_rename_then_case (fuel : nat) (origin : T)
    (flags : SerdeFlags T) (s s' : State T Ext) (cfg : SerdeConfig T) :
  wf_configs E s →
  _get_configuration E fuel origin flags s = (Ok cfg, s') →
  ∀ x y, dget x (serde_fields_out cfg) = Some y →
    y = cased E (own_flags E origin flags)
          (default x (listed_name (own_flags E origin flags) x)).
Proof.
  intros Hwf Hrun x y Hxy.
  apply get_configuration_produced, produced_maps in Hrun; [|exact Hwf].
  destruct Hrun as (fields & fo & _ & Hfo & _ & _ & Hout & _).
  apply fields_out_before_exclude_spec in Hfo as [Hnd Hspec].
  rewrite Hout, dget_fields_out_exclude in Hxy by exact Hnd.
  destruct (decide (x ∈ _)); [discriminate|].
  apply Hspec in Hxy as [Hy _]. exact Hy.
Qed.

(** C6, amended. Every key of [fields_out] is a field of the type or a
    name the flags list in [fields]. The output map as it stands before
    [exclude] is applied, [fo], is what the steps up to the omit loop give
    for the fields of the configuration: a name has an entry in [fo]
    exactly when it is a field or a listed name that the omit loop keeps,
    excluded or not, and the entry is the case conversion of the listed
    name (of the name itself when none is listed). [fields_out] is [fo]
    without the excluded names, and [fields_in] is the inverse of [fo], not
    of [fields_out]: it sends an output name to the last field of [fo] that
    has it, provided the constructor takes that field or takes no
    parameter at all. With no [exclude], [fo] is [fields_out]. *)
Theorem fields_maps_invariant (fuel : nat) (origin : T)
    (flags : SerdeFlags T) (s s' : State T Ext) (cfg : SerdeConfig T) :
  wf_configs E s →
  _get_configuration E fuel origin flags s = (Ok cfg, s') →
  (∀ x, x ∈ dkeys (serde_fields_out cfg) →
     x ∈ dkeys (serde_fields cfg)
     ∨ is_Some (listed_name (own_flags E origin flags) x))
  ∧ ∃ fo,
      fields_out_before_exclude E (own_flags E origin flags)
        (serde_fields cfg) = Ok fo
      ∧ (∀ x y, dget x fo = Some y ↔
           y = cased E (own_flags E origin flags)
                 (default x (listed_name (own_flags E origin flags) x))
           ∧ (x ∈ dkeys (serde_fields cfg)
              ∨ is_Some (listed_name (own_flags E origin flags) x))
           ∧ (flags_omit (own_flags E origin flags) = []
              ∨ ∃ anno,
                  dget x (serde_fields cfg) = Some anno
                  ∧ omit_keeps E (flags_omit (own_flags E origin flags)) anno
                    = Ok true))
      ∧ (∀ x, dget x (serde_fields_out cfg)
              = if decide (x ∈ flags_exclude (own_flags E origin flags))
                then None else dget x fo)
      ∧ (∀ y, dget y (serde_fields_in cfg)
              = match key_of fo y with
                | Some x =>
                    if accepts (util_safe_get_params E origin) x
                    then Some x else None
                | None => None
                end)
      ∧ (flags_exclude (own_flags E origin flags) = [] →
         fo = serde_fields_out cfg).
Proof.
  intros Hwf Hrun.
  apply get_configuration_produced, produced_maps in Hrun; [|exact Hwf].
  destruct Hrun as (fields & fo & _ & Hfo & _ & Hf & Hout & Hin).
  pose proof (fields_out_before_exclude_iff E _ _ _ Hfo) as Hiff.
  pose proof Hfo as Hfo'.
  apply fields_out_before_exclude_spec in Hfo as [Hnd Hspec]. split.
  - intros x Hx. apply elem_of_dkeys in Hx as [y Hxy].
    rewrite Hout, dget_fields_out_exclude in Hxy by exact Hnd.
    destruct (decide (x ∈ _)); [discriminate|].
    apply Hspec in Hxy as [_ Hx]. rewrite Hf. exact Hx.
  - exists fo. rewrite Hf. split; [exact Hfo'|]. split; [exact Hiff|].
    split; [|split].
    + intros x. rewrite Hout. apply dget_fields_out_exclude, Hnd.
    + intros y. rewrite Hin. apply dget_fields_in_of.
    + intros Hex. rewrite Hout. unfold fields_out_exclude. rewrite Hex.
      reflexivity.
Qed.


End Configuration.

(** ** Delayed annotations and delayed protocols *)

Section Delayed.
Context {T Ext ExtExn : Type} `{EqDecision T, EqDecision Ext}.
Context (E : Env T Ext ExtExn).

#[local] Abbreviation State := (State T Ext).
#[local] Abbreviation steps := (steps (T:=T) (Ext:=Ext) (ExtExn:=ExtExn)).
#[local] Abbreviation hoare := (hoare (T:=T) (Ext:=Ext) (ExtExn:=ExtExn)).
#[local] Abbreviation same_lru_resolve := (same_lru_resolve (T:=T) (Ext:=Ext)).
#[local] Abbreviation same_protocols := (same_protocols (T:=T) (Ext:=Ext)).
#[local] Abbreviation same_configs := (same_configs (T:=T) (Ext:=Ext)).
#[local] Abbreviation nothing_stored := (nothing_stored (T:=T) (Ext:=Ext)).

#[local] Instance same_protocols_preorder : PreOrder same_protocols.
Proof.
  split; [intros s; split; reflexivity|].
  intros s1 s2 s3 [H1 H2] [H3 H4]. split; congruence.
Qed.

Lemma same_protocols_wf s s' :
  same_protocols s s' → wf_protocols s → wf_protocols s'.
Proof. intros [Hc Hl] [H1 H2]. split; [rewrite Hc|rewrite Hl]; assumption. Qed.

#[local] Instance same_configs_preorder : PreOrder same_configs.
Proof.
  split; [intros s; reflexivity|].
  intros s1 s2 s3 H12 H23. unfold same_configs in *. congruence.
Qed.

Lemma same_configs_wf s s' :
  same_configs s s' → wf_configs E s → wf_configs E s'.
Proof. intros Hc Hwf o f cfg. rewrite Hc. apply Hwf. Qed.

Lemma hoare_resolve_from_annotation anno des ser ns :
  hoare wf_protocols (_resolve_from_annotation E anno des ser ns)
    (fun p => is_delayed anno = true → ∃ oid, p = DelayedSerdeProtocol oid anno).
Proof.
  apply hoare_lru_cache.
  - intros s p [_ H2] Hg Hd. eapply H2; eassumption.
  - unfold _resolve_from_annotation_body.
    eapply hoare_bind; [apply hoare_get|]. intros s0 [H1 _].
    destruct (dget anno (cache s0)) as [proto|] eqn:Hg.
    { apply hoare_ret. intros Hd. apply H1 in Hg. congruence. }
    assert (∀ (s : State) n, wf_protocols s → wf_protocols (set_next_oid n s)) as Hoid
      by (intros s n Hs; exact Hs).
    destruct anno as [resolved origin un_resolved parameter optional strict
                        static serde| |].
    + eapply hoare_bind;
        [apply hoare_modify; intros s Hs; exact Hs|]. intros _ _.
      destruct (if anno_origin_is_Callable E _ then _ else _) as [des' ser'].
      eapply hoare_bind with (Q1 := fun _ => True).
      { destruct des'; [|apply hoare_ret; exact Logic.I].
        eapply hoare_bind; [apply hoare_lift; intros; exact Logic.I|].
        intros c _. eapply hoare_bind; [apply hoare_lift; intros; exact Logic.I|].
        intros dv _. apply hoare_ret. exact Logic.I. }
      intros [[d v] c] _. eapply hoare_bind with (Q1 := fun _ => True).
      { destruct ser'; [|apply hoare_ret; exact Logic.I].
        eapply hoare_bind; [apply hoare_lift; intros; exact Logic.I|].
        intros sr _. apply hoare_ret. exact Logic.I. }
      intros sr _. eapply hoare_bind with (Q1 := fun _ => True).
      { intros s Hs. split; [apply Hoid, Hs|intros; exact Logic.I]. }
      intros oid _. eapply hoare_bind with (Q1 := fun _ => True).
      { apply hoare_modify. intros s [H1' H2']. split; [|exact H2'].
        intros anno' p'. simpl. rewrite dget_dset.
        destruct (decide (anno' = _)) as [->|]; [reflexivity|apply H1']. }
      intros _ _. apply hoare_ret. discriminate.
    + eapply hoare_bind with (Q1 := fun _ => True).
      { intros s Hs. split; [apply Hoid, Hs|intros; exact Logic.I]. }
      intros oid _. apply hoare_ret. eauto.
    + eapply hoare_bind with (Q1 := fun _ => True).
      { intros s Hs. split; [apply Hoid, Hs|intros; exact Logic.I]. }
      intros oid _. apply hoare_ret. eauto.
  - intros s p [H1 H2] Hp. split; [exact H1|].
    intros anno' des' ser' ns' p'. simpl. rewrite dget_dset.
    destruct (decide (_ = _)) as [[= -> -> -> ->]|_]; [|apply H2].
    intros [= <-]. exact Hp.
Qed.

(** [resolve] keeps both invariants, whatever it returns or raises. *)
Lemma resolve_wf_protocols a s :
  wf_protocols s → wf_protocols (resolve E a s).2.
Proof.
  intros Hs. eapply (hoare_lru_cache wf_protocols lru_resolve set_lru_resolve a
                       (resolve_body E a) (fun _ => True)); [| | |exact Hs].
  - intros; exact Logic.I.
  - unfold resolve_body. eapply hoare_bind with (Q1 := fun _ => True).
    { eapply hoare_steps; [apply same_protocols_wf|].
      apply steps_annotation; [apply _|..]; intros; split; reflexivity. }
    intros anno _. eapply hoare_bind; [apply hoare_resolve_from_annotation|].
    intros p _. eapply hoare_bind;
      [apply hoare_modify; intros s0 Hs0; exact Hs0|].
    intros _ _. apply hoare_ret. exact Logic.I.
  - intros s0 v Hs0 _. exact Hs0.
Qed.

Lemma resolve_wf_configs a s :
  wf_configs E s → wf_configs E (resolve E a s).2.
Proof.
  intros Hs. eapply (hoare_lru_cache (wf_configs E) lru_resolve set_lru_resolve a
                       (resolve_body E a) (fun _ => True)); [| | |exact Hs].
  - intros; exact Logic.I.
  - unfold resolve_body. eapply hoare_bind; [apply hoare_annotation|].
    intros anno _. eapply hoare_bind with (Q1 := fun _ => True).
    { eapply hoare_steps; [apply same_configs_wf|].
      apply steps_resolve_from_annotation; [apply _|..]; intros; reflexivity. }
    intros p _. eapply hoare_bind;
      [apply hoare_modify; intros s0 Hs0; exact Hs0|].
    intros _ _. apply hoare_ret. exact Logic.I.
  - intros s0 v Hs0 _. exact Hs0.
Qed.

Lemma new_state_wf g :
  wf_configs E (new_state g) ∧ wf_protocols (T:=T) (Ext:=Ext) (new_state g).
Proof.
  split; [intros o f cfg [=]|]. split; [intros anno p [=]|].
  intros anno des ser ns p [=].
Qed.

Lemma resolve_all_wf calls s :
  wf_configs E s ∧ wf_protocols s →
  wf_configs E (resolve_all E calls s) ∧ wf_protocols (resolve_all E calls s).
Proof.
  revert s. induction calls as [|a calls IH]; intros s [Hc Hp]; simpl.
  - split; assumption.
  - apply IH. split; [apply resolve_wf_configs|apply resolve_wf_protocols];
      assumption.
Qed.

End Delayed.

(** ** Recursive references *)

Section Recursion.
Context {T Ext ExtExn : Type} `{EqDecision T, EqDecision Ext}.
Context (E : Env T Ext ExtExn).

#[local] Abbreviation State := (State T Ext).
#[local] Abbreviation steps := (steps (T:=T) (Ext:=Ext) (ExtExn:=ExtExn)).
#[local] Abbreviation hoare := (hoare (T:=T) (Ext:=Ext) (ExtExn:=ExtExn)).
#[local] Abbreviation same_lru_resolve := (same_lru_resolve (T:=T) (Ext:=Ext)).
#[local] Abbreviation same_protocols := (same_protocols (T:=T) (Ext:=Ext)).
#[local] Abbreviation same_configs := (same_configs (T:=T) (Ext:=Ext)).
#[local] Abbreviation nothing_stored := (nothing_stored (T:=T) (Ext:=Ext)).

Lemma stack_mem_remove (x : T) (st : list T) :
  stack_mem x (stack_remove x st) = false.
Proof.
  unfold stack_mem, stack_remove. apply bool_decide_eq_false_2.
  intros Hin. apply list_elem_of_In, filter_In in Hin as [_ Hx].
  rewrite bool_decide_eq_true_2 in Hx by reflexivity. discriminate.
Qed.

(** A delayed annotation always gets a delayed protocol. *)
Lemma resolve_from_annotation_delayed anno des ser ns (s : State) :
  wf_protocols s → is_delayed anno = true →
  ∃ oid s',
    _resolve_from_annotation E anno des ser ns s
    = (Ok (DelayedSerdeProtocol oid anno), s')
    ∧ stack s' = stack s ∧ lru_resolve s' = lru_resolve s.
Proof.
  intros [H1 H2] Hd. unfold _resolve_from_annotation, lru_cache.
  destruct (dget _ (lru_resolve_from_annotation s)) as [p|] eqn:Hg.
  - destruct (H2 _ _ _ _ _ Hg Hd) as [oid ->]. eauto.
  - unfold _resolve_from_annotation_body. rewrite run_bind_get.
    destruct (dget anno (cache s)) as [p|] eqn:Hc.
    { apply H1 in Hc. congruence. }
    destruct anno; [discriminate| |]; simpl; eauto.
Qed.

(** C7. When the type [annotation] settles on, [use], is not a forward
    reference, passes the literal check, and is the enclosing [namespace]
    or is on the in-flight stack, [annotation] returns a
    [DelayedAnnotation] for [use] and leaves [use] off the stack (it
    removes it when it was there and changes nothing else). A [resolve]
    call that runs on such arguments then returns a
    [DelayedSerdeProtocol] wrapping that annotation, not a
    [SerdeProtocol]. *)
Theorem recursive_reference_delayed (fuel : nat) (t : T)
    (name : option string) (parameter : option (Param T))
    (is_optional : option bool) (is_strict : PyStrict)
    (flags : option (SerdeFlags T)) (default : T) (namespace : option T)
    (des ser : bool) (s : State) :
  let p := match parameter with
           | Some p => p
           | None => default_parameter E t name default
           end in
  let u := canonical E (strict_mode s) t p is_optional is_strict in
  let use := u_use u in
  let local := match SERDE_FLAGS_ATTR E t with
               | Some f => f
               | None => match flags with
                         | Some f => f
                         | None => SerdeFlags_default
                         end
               end in
  let anno := DelayedAnnotation use name p (u_is_optional u) (u_is_strict u)
                local default in
  let s1 := if stack_mem use (stack s)
            then set_stack (stack_remove use (stack s)) s else s in
  u_is_literal u
  && existsb (fun x => negb (isinstance_LITERALS E x)) (util_get_args E use)
  = false →
  is_ForwardRef E use = false →
  py_is E use namespace || stack_mem use (stack s) = true →
  annotation E fuel t name parameter is_optional is_strict flags default
    namespace s = (Ok anno, s1)
  ∧ stack_mem use (stack s1) = false
  ∧ (default = EMPTY E → wf_protocols s →
     dget (mkResolveArgs t flags name parameter is_optional is_strict
             namespace des ser) (lru_resolve s) = None →
     ∃ oid s',
       resolve E (mkResolveArgs t flags name parameter is_optional is_strict
                    namespace des ser) s
       = (Ok (DelayedSerdeProtocol oid anno), s')
       ∧ stack s' = []).
Proof.
  intros p u use local anno s1 Hlit Hfwd Hrec.
  assert (∀ fuel', annotation E fuel' t name parameter is_optional is_strict
            flags default namespace s = (Ok anno, s1)) as Hanno.
  { intros fuel'. unfold annotation, annotation_with. fold p.
    rewrite run_bind_get. fold u. fold use.
    rewrite Hlit, run_bind_ret, Hfwd, Hrec.
    subst s1. destruct (stack_mem use (stack s));
      rewrite ?run_bind_modify, ?run_bind_ret; reflexivity. }
  split; [apply Hanno|]. split.
  { subst s1. destruct (stack_mem use (stack s)) eqn:Hm; [|exact Hm].
    apply stack_mem_remove. }
  intros Hdef Hwf Hmiss. unfold resolve, lru_cache. rewrite Hmiss.
  unfold resolve_body. simpl. rewrite <- Hdef.
  rewrite (run_bind_Ok _ _ _ _ _ (Hanno _)).
  destruct (resolve_from_annotation_delayed anno des ser namespace s1)
    as (oid & s2 & Hrfa & _ & _); [|reflexivity|].
  { subst s1. destruct (stack_mem use (stack s)); exact Hwf. }
  rewrite (run_bind_Ok _ _ _ _ _ Hrfa), run_bind_modify.
  unfold ret. simpl. eauto.
Qed.

End Recursion.

(** ** [coerce_value] *)

Section Coerce.
Context {T Ext ExtExn : Type} `{EqDecision T, EqDecision Ext}.
Context (E : Env T Ext ExtExn).

(** C10. [coerce_value(value, annotation)] returns or raises exactly what
    [transmute(annotation, value)] does, and leaves the resolver in the
    same state; the only difference is one more [DeprecationWarning]. *)
Theorem coerce_value_transmute (value annotation : T)
    (warnings : list Warning) (s : State T Ext) :
  coerce_value E value annotation (warnings, s)
  = ((transmute E annotation value s).1,
     (warnings ++ [DeprecationWarning coerce_message],
      (transmute E annotation value s).2)).
Proof.
  unfold coerce_value. simpl.
  destruct (transmute E annotation value s) as [r s']. reflexivity.
Qed.

End Coerce.

(** ** The stack after a call *)

Section Stack.
Context {T Ext ExtExn : Type} `{EqDecision T, EqDecision Ext}.
Context (E : Env T Ext ExtExn).

#[local] Abbreviation State := (State T Ext).
#[local] Abbreviation steps := (steps (T:=T) (Ext:=Ext) (ExtExn:=ExtExn)).
#[local] Abbreviation hoare := (hoare (T:=T) (Ext:=Ext) (ExtExn:=ExtExn)).
#[local] Abbreviation same_lru_resolve := (same_lru_resolve (T:=T) (Ext:=Ext)).
#[local] Abbreviation same_protocols := (same_protocols (T:=T) (Ext:=Ext)).
#[local] Abbreviation same_configs := (same_configs (T:=T) (Ext:=Ext)).
#[local] Abbreviation nothing_stored := (nothing_stored (T:=T) (Ext:=Ext)).

(** A [resolve] call that runs its body and returns leaves the stack
    empty. *)
Lemma resolve_returns_stack_empty a (s s' : State) p :
  dget a (lru_resolve s) = None →
  resolve E a s = (Ok p, s') → stack s' = [].
Proof.
  intros Hmiss. unfold resolve, lru_cache. rewrite Hmiss.
  destruct (resolve_body E a s) as [[v|e] s1] eqn:Hb; [|discriminate].
  intros [= <- <-]. simpl. unfold resolve_body in Hb.
  apply run_bind_inv_Ok in Hb as (anno & s2 & _ & Hb).
  apply run_bind_inv_Ok in Hb as (p' & s3 & _ & Hb).
  rewrite run_bind_modify in Hb. injection Hb as _ <-. reflexivity.
Qed.

(** Called with an empty stack, a [resolve] call that returns leaves it
    empty. *)
Lemma resolve_keeps_stack_empty a (s s' : State) p :
  stack s = [] → resolve E a s = (Ok p, s') → stack s' = [].
Proof.
  intros Hst Hr. destruct (dget a (lru_resolve s)) as [p'|] eqn:Hg.
  - rewrite (resolve_hit E _ _ _ Hg) in Hr. injection Hr as _ <-. exact Hst.
  - eapply resolve_returns_stack_empty; eassumption.
Qed.

#[local] Instance nothing_stored_preorder : PreOrder nothing_stored.
Proof.
  split; [intros s; repeat split; reflexivity|].
  intros s1 s2 s3 (H1 & H2 & H3) (H4 & H5 & H6). repeat split; congruence.
Qed.

(** A [resolve] call that fails in its annotation step (the canonical
    form or the field maps cannot be computed, as for an illegal literal),
    fails with that error before any protocol is built: it stores nothing
    in the protocol cache or in the memo tables of [resolve] and
    [_resolve_from_annotation], and leaves the resolver as the annotation
    step left it. *)
Lemma resolve_raise_stores_nothing a (s s' : State) e :
  dget a (lru_resolve s) = None →
  annotation E (recursionlimit E) (ra_annotation a) (ra_name a)
    (ra_parameter a) (ra_is_optional a) (ra_is_strict a) (ra_flags a)
    (EMPTY E) (ra_namespace a) s = (Raise e, s') →
  resolve E a s = (Raise e, s') ∧ nothing_stored s s'.
Proof.
  intros Hmiss Hanno. split.
  - unfold resolve, lru_cache. rewrite Hmiss. unfold resolve_body.
    rewrite (run_bind_Raise _ _ _ _ _ Hanno). reflexivity.
  - pose proof (steps_annotation E nothing_stored (recursionlimit E)
                  (ra_annotation a) (ra_name a) (ra_parameter a)
                  (ra_is_optional a) (ra_is_strict a) (ra_flags a) (EMPTY E)
                  (ra_namespace a)) as Hsteps.
    specialize (Hsteps ltac:(intros; repeat split; reflexivity)
                       ltac:(intros; repeat split; reflexivity) s).
    rewrite Hanno in Hsteps. exact Hsteps.
Qed.

(** The constructor keeps the invariants of the memo tables. *)
Lemma init_wf g :
  wf_configs E (__init__ E (new_state g)).2
  ∧ wf_protocols (__init__ E (new_state g)).2.
Proof.
  assert (∀ a, hoare (fun s => wf_configs E s ∧ wf_protocols s)
                 (resolve E a) (fun _ => True)) as Hres.
  { intros a s [Hc Hp]. split; [|intros; exact Logic.I].
    split; [apply resolve_wf_configs|apply resolve_wf_protocols]; assumption. }
  assert (hoare (fun s => wf_configs E s ∧ wf_protocols s) (__init__ E)
            (fun _ => True)) as Hinit.
  { unfold __init__. apply hoare_for_each; [exact Logic.I|].
    intros [] typ _.
    eapply hoare_bind; [apply Hres|]. intros _ _.
    eapply hoare_bind; [apply Hres|]. intros _ _.
    eapply hoare_bind; [apply Hres|]. intros _ _.
    apply hoare_ret. exact Logic.I. }
  destruct (Hinit (new_state g) (new_state_wf E g)) as [Hwf _]. exact Hwf.
Qed.

End Stack.

(** ** The resolver at work on the small universe *)

Section DemoFacts.
Import Demo.

Lemma resolver_wf : wf_configs env resolver ∧ wf_protocols resolver.
Proof. apply (init_wf env false). Qed.

Lemma resolve_idempotent_witness :
  ∃ p s1,
    resolve env (resolve_args User) resolver = (Ok p, s1)
    ∧ resolve env (resolve_args User)
        (resolve_all env [resolve_args Node; resolve_args Bad] s1)
      = (Ok p, resolve_all env [resolve_args Node; resolve_args Bad] s1).
Proof.
  destruct (resolve env (resolve_args User) resolver) as [[p|e] s1] eqn:Hr;
    [|vm_compute in Hr; discriminate Hr].
  exists p, s1. split; [reflexivity|].
  apply (resolve_idempotent env (resolve_args User) resolver s1 p _ Hr).
Defined.

Lemma annotation_literal_legality_witness :
  annotation env 100 (Literal [OInt 1; OFloat "1.5"]) None None None SNone None
    OEMPTY None resolver
  = (Raise (TypeError [OInt 1; OFloat "1.5"]), resolver)
  ∧ ∃ a s',
      annotation env 100 (Literal [OInt 1; OStr "a"]) None None None SNone None
        OEMPTY None resolver = (Ok a, s').
Proof.
  split.
  - apply (proj1 (annotation_literal_legality env 100
                    (Literal [OInt 1; OFloat "1.5"]) None None None SNone None
                    OEMPTY None resolver ltac:(vm_compute; reflexivity))).
    vm_compute. reflexivity.
  - apply (proj2 (annotation_literal_legality env 100
                    (Literal [OInt 1; OStr "a"]) None None None SNone None
                    OEMPTY None resolver ltac:(vm_compute; reflexivity))).
    vm_compute. reflexivity.
Defined.

(** C3. The class [Bad] has one field, [x: Literal[1.5]]. On the fresh
    resolver, whose stack is empty, [resolve(Bad)] raises the literal
    [TypeError] from inside the field loop, after [Bad] went on the stack:
    the [self.__stack.clear()] at the end of [resolve] is skipped, and the
    call completes with [Bad] still on the stack. The next [resolve(Bad)]
    finds it there and answers with a delayed protocol: the failed type is
    taken for a recursive one. *)
Theorem resolve_raise_leaves_stack :
  stack resolver = []
  ∧ (resolve env (resolve_args Bad) resolver).1
    = Raise (TypeError [OFloat "1.5"])
  ∧ stack (resolve env (resolve_args Bad) resolver).2 = [Bad]
  ∧ ∃ oid anno,
      (resolve env (resolve_args Bad)
         (resolve env (resolve_args Bad) resolver).2).1
      = Ok (DelayedSerdeProtocol oid anno).
Proof.
  split; [vm_compute; reflexivity|]. split; [vm_compute; reflexivity|].
  split; [vm_compute; reflexivity|]. do 2 eexists. vm_compute. reflexivity.
Qed.

(** C4. The failed [resolve(Bad)] stores nothing in the protocol cache or
    in the memo tables of [resolve] and [_resolve_from_annotation]. Yet the
    second [resolve(Bad)] is not a fresh attempt: where the first raised,
    it returns a delayed protocol (the stack kept [Bad]), and that answer
    is memoized, so every later [resolve(Bad)] returns it again. *)
Theorem resolve_retry_not_fresh :
  let first := resolve env (resolve_args Bad) resolver in
  let second := resolve env (resolve_args Bad) first.2 in
  let third := resolve env (resolve_args Bad) second.2 in
  first.1 = Raise (TypeError [OFloat "1.5"])
  ∧ cache first.2 = cache resolver
  ∧ lru_resolve first.2 = lru_resolve resolver
  ∧ lru_resolve_from_annotation first.2 = lru_resolve_from_annotation resolver
  ∧ (∃ oid anno, second.1 = Ok (DelayedSerdeProtocol oid anno))
  ∧ third = second.
Proof.
  cbv zeta. split; [vm_compute; reflexivity|].
  split; [vm_compute; reflexivity|]. split; [vm_compute; reflexivity|].
  split; [vm_compute; reflexivity|].
  split; [do 2 eexists; vm_compute; reflexivity|]. vm_compute. reflexivity.
Qed.

(** C5, counterexample. [User] with [fields={"user_name": "login_name"}]
    and the camelCase policy: the explicit name [login_name] does not
    survive, the output name is [loginName]. *)
Lemma rename_altered_by_case :
  ∃ cfg s',
    configuration User flags_rename_camel = (Ok cfg, s')
    ∧ listed_name flags_rename_camel "user_name" = Some "login_name"
    ∧ dget "user_name" (serde_fields_out cfg) = Some "loginName"
    ∧ ("loginName" ≠ "login_name").
Proof.
  do 2 eexists. split; [vm_compute; reflexivity|].
  split; [vm_compute; reflexivity|]. split; [vm_compute; reflexivity|].
  discriminate.
Qed.

Lemma fields_out_rename_then_case_witness :
  ∃ cfg s',
    configuration User flags_rename_camel = (Ok cfg, s')
    ∧ ∀ x y, dget x (serde_fields_out cfg) = Some y →
        y = cased env flags_rename_camel
              (default x (listed_name flags_rename_camel x)).
Proof.
  destruct (configuration User flags_rename_camel) as [[cfg|e] s'] eqn:Hr;
    [|vm_compute in Hr; discriminate Hr].
  exists cfg, s'. split; [reflexivity|].
  exact (fields_out_rename_then_case env _ User flags_rename_camel resolver s'
           cfg (proj1 resolver_wf) Hr).
Defined.

(** C6, counterexample. [User] with [fields=("nickname",)] and
    [exclude=("id",)]: [nickname] is a key of [fields_out] and no field of
    the type; and [fields_in] sends [id] to the field [id], which the
    constructor takes, while [fields_out] has no entry for [id], so
    [fields_in] is not the inverse of [fields_out]. *)
Lemma fields_maps_not_inverse :
  ∃ cfg s',
    configuration User flags_list_nickname_exclude_id = (Ok cfg, s')
    ∧ "nickname" ∈ dkeys (serde_fields_out cfg)
    ∧ ("nickname" ∉ dkeys (serde_fields cfg))
    ∧ dget "id" (serde_fields_in cfg) = Some "id"
    ∧ "id" ∈ util_safe_get_params env User
    ∧ dget "id" (serde_fields_out cfg) = None.
Proof.
  do 2 eexists. split; [vm_compute; reflexivity|].
  split; [apply (bool_decide_unpack _); vm_compute; exact Logic.I|].
  split; [apply (bool_decide_unpack _); vm_compute; exact Logic.I|].
  split; [vm_compute; reflexivity|].
  split; [apply (bool_decide_unpack _); vm_compute; exact Logic.I|].
  vm_compute. reflexivity.
Qed.

Lemma fields_maps_invariant_witness :
  ∃ cfg s',
    configuration User flags_list_nickname_exclude_id = (Ok cfg, s')
    ∧ (∀ x, x ∈ dkeys (serde_fields_out cfg) →
         x ∈ dkeys (serde_fields cfg)
         ∨ is_Some (listed_name flags_list_nickname_exclude_id x))
    ∧ ∃ fo,
        fields_out_before_exclude env flags_list_nickname_exclude_id
          (serde_fields cfg) = Ok fo
        ∧ (dget "id" fo = Some "id" ↔
             "id" = "id"
             ∧ ("id" ∈ dkeys (serde_fields cfg)
                ∨ is_Some (listed_name flags_list_nickname_exclude_id "id"))
             ∧ (@nil Obj = []
                ∨ ∃ anno, dget "id" (serde_fields cfg) = Some anno
                          ∧ omit_keeps env [] anno = Ok true))
        ∧ (∀ x, dget x (serde_fields_out cfg)
                = if decide (x ∈ ["id"]) then None else dget x fo)
        ∧ (∀ y, dget y (serde_fields_in cfg)
                = match key_of fo y with
                  | Some x => if accepts ["id"; "user_name"] x
                              then Some x else None
                  | None => None
                  end).
Proof.
  destruct (configuration User flags_list_nickname_exclude_id)
    as [[cfg|e] s'] eqn:Hr; [|vm_compute in Hr; discriminate Hr].
  exists cfg, s'. split; [reflexivity|].
  destruct (fields_maps_invariant env _ User flags_list_nickname_exclude_id
              resolver s' cfg (proj1 resolver_wf) Hr)
    as (Hkeys & fo & Hfo & Hpin & Hout & Hin & _).
  split; [exact Hkeys|]. exists fo. split; [exact Hfo|].
  split; [exact (Hpin "id" "id")|]. split; [exact Hout|exact Hin].
Defined.



Lemma recursive_reference_delayed_witness :
  ∃ oid anno s',
    resolve env (resolve_in Node Node) resolver
    = (Ok (DelayedSerdeProtocol oid anno), s')
    ∧ stack s' = [].
Proof.
  destruct (recursive_reference_delayed env 100 Node None None None SNone None
              OEMPTY (Some Node) true true resolver)
    as (_ & _ & Hres); [vm_compute; reflexivity..|].
  destruct (Hres eq_refl (proj2 resolver_wf)) as (oid & s' & Hr & Hst);
    [vm_compute; reflexivity|].
  exists oid. eexists. exists s'. split; [exact Hr|exact Hst].
Defined.

End DemoFacts.

(** C9. [exclude] only filters the output map, and it does so after the
    input map has been computed: there is an output map [fo] (the one
    before [exclude]) such that [fields_out] is [fo] without the excluded
    names, while [fields_in] is read off [fo] itself, so an excluded field
    keeps its entry in [fields_in]. On [User] (fields [id], [user_name])
    with the camelCase policy and [exclude=("id",)], [fields_out] is
    exactly [{user_name: userName}] and [fields_in] still has [id]. *)
Theorem exclude_output_only :
  (∀ (T Ext ExtExn : Type) (HT : EqDecision T) (HExt : EqDecision Ext)
     (E : Env T Ext ExtExn) (fuel : nat) (origin : T) (flags : SerdeFlags T)
     (s s' : State T Ext) (cfg : SerdeConfig T),
     wf_configs E s →
     _get_configuration E fuel origin flags s = (Ok cfg, s') →
     ∃ fo,
       (∀ x, dget x (serde_fields_out cfg)
             = if decide (x ∈ flags_exclude (own_flags E origin flags))
               then None else dget x fo)
       ∧ (∀ y, dget y (serde_fields_in cfg)
               = match key_of fo y with
                 | Some x =>
                     if accepts (util_safe_get_params E origin) x
                     then Some x else None
                 | None => None
                 end))
  ∧ ∃ cfg s',
      Demo.configuration Demo.User Demo.flags_camel_exclude_id = (Ok cfg, s')
      ∧ serde_fields_out cfg = [("user_name", "userName")]
      ∧ serde_fields_in cfg = [("id", "id"); ("userName", "user_name")].
Proof.
  split.
  - intros T Ext ExtExn HT HExt E fuel origin flags s s' cfg Hwf Hrun.
    apply get_configuration_produced, produced_maps in Hrun; [|exact Hwf].
    destruct Hrun as (fields & fo & _ & Hfo & _ & _ & Hout & Hin).
    apply fields_out_before_exclude_spec in Hfo as [Hnd _].
    exists fo. split.
    + intros x. rewrite Hout. apply dget_fields_out_exclude, Hnd.
    + intros y. rewrite Hin. apply dget_fields_in_of.
  - do 2 eexists. split; [vm_compute; reflexivity|].
    split; vm_compute; reflexivity.
Qed.

Lemma exclude_output_only_witness :
  ∃ cfg s' fo,
    Demo.configuration Demo.User Demo.flags_camel_exclude_id = (Ok cfg, s')
    ∧ (∀ x, dget x (serde_fields_out cfg)
            = if decide (x ∈ ["id"]) then None else dget x fo)
    ∧ (∀ y, dget y (serde_fields_in cfg)
            = match key_of fo y with
              | Some x => if accepts ["id"; "user_name"] x
                          then Some x else None
              | None => None
              end).
Proof.
  destruct (Demo.configuration Demo.User Demo.flags_camel_exclude_id)
    as [[cfg|e] s'] eqn:Hr; [|vm_compute in Hr; discriminate Hr].
  destruct (proj1 exclude_output_only _ _ _ _ _ Demo.env _ Demo.User
              Demo.flags_camel_exclude_id Demo.resolver s' cfg
              (proj1 resolver_wf) Hr) as (fo & Hout & Hin).
  exists cfg, s', fo. split; [reflexivity|]. split; [exact Hout|exact Hin].
Defined.

(** ** The unwrapping loop terminates

    When every round of the loop moves to a description of smaller [rank],
    the fuel [annotation] gives the loop is never used up: more fuel
    changes nothing. *)

Section Unwrap.
Context {T Ext ExtExn : Type} `{EqDecision T, EqDecision Ext}.
Context (E : Env T Ext ExtExn).

Hypothesis rank_dunder_args : ∀ use a args,
  dunder_args E use = Some (a :: args) → checks_should_unwrap E use = true →
  rank E (util_resolve_supertype E a) < rank E use.
Hypothesis rank_get_args : ∀ use a args,
  util_get_args E use = a :: args → checks_should_unwrap E use = true →
  rank E (util_resolve_supertype E a) < rank E use.

Lemma unwrap_fuel_irrelevant n : ∀ fuel1 fuel2 g use args o st sta l,
  dunder_args E use = Some args ∨ util_get_args E use = args ∨ args = [] →
  rank E use < n → n <= fuel1 → n <= fuel2 →
  unwrap E fuel1 g use args o st sta l = unwrap E fuel2 g use args o st sta l.
Proof.
  induction n as [|n IH]; intros fuel1 fuel2 g use args o st sta l Hargs Hr H1 H2;
    [lia|].
  destruct fuel1 as [|fuel1]; [lia|]. destruct fuel2 as [|fuel2]; [lia|].
  simpl. destruct args as [|arg0 args]; [reflexivity|].
  destruct (checks_should_unwrap E use) eqn:Hsu; [|reflexivity].
  destruct (_ && _); [reflexivity|].
  apply IH; [right; left; reflexivity| |lia|lia].
  assert (rank E (util_resolve_supertype E arg0) < rank E use) as Hlt.
  { destruct Hargs as [Hd|[Hg|Hnil]]; [|  |discriminate Hnil].
    - eapply rank_dunder_args; eassumption.
    - eapply rank_get_args; eassumption. }
  lia.
Qed.

Lemma unwrap_fuel_enough fuel g t parameter is_optional is_strict :
  let use := util_resolve_supertype E t in
  let args := match dunder_args E use with Some a => a | None => [] end in
  let o := match is_optional with Some true => true | _ => false end
           || checks_isoptionaltype E use
           || bool_decide (param_default parameter ∈ OPTIONALS E) in
  let st := py_or g (py_or g is_strict (SBool (checks_isstrict E use)))
              STRICT_MODE in
  rank E use < fuel →
  unwrap E fuel g use args o st
    (negb (bool_decide (util_origin E use ∈ _DYNAMIC E)))
    (checks_isliteral E use)
  = canonical E g t parameter is_optional is_strict.
Proof.
  intros use args o st Hfuel. subst use args o st. unfold canonical.
  apply (unwrap_fuel_irrelevant (S (rank E (util_resolve_supertype E t))));
    [|lia|lia|lia].
  destruct (dunder_args E _); [left|right; right]; reflexivity.
Qed.

End Unwrap.

Lemma resolve_keeps_stack_empty_witness :
  ∃ p s',
    resolve Demo.env (resolve_args Demo.User) Demo.resolver = (Ok p, s')
    ∧ stack s' = [].
Proof.
  destruct (resolve Demo.env (resolve_args Demo.User) Demo.resolver)
    as [[p|e] s'] eqn:Hr; [|vm_compute in Hr; discriminate Hr].
  exists p, s'. split; [reflexivity|].
  apply (resolve_keeps_stack_empty Demo.env (resolve_args Demo.User)
           Demo.resolver s' p ltac:(vm_compute; reflexivity) Hr).
Defined.

Lemma resolve_raise_stores_nothing_witness :
  ∃ e s',
    resolve Demo.env (resolve_args Demo.Bad) Demo.resolver = (Raise e, s')
    ∧ nothing_stored Demo.resolver s'.
Proof.
  destruct (annotation Demo.env (recursionlimit Demo.env) Demo.Bad None None
              None SNone None Demo.OEMPTY None Demo.resolver)
    as [[anno|e] s'] eqn:Hr; [vm_compute in Hr; discriminate Hr|].
  assert (dget (resolve_args Demo.Bad) (lru_resolve Demo.resolver) = None)
    as Hmiss by (vm_compute; reflexivity).
  exists e, s'.
  apply (resolve_raise_stores_nothing Demo.env (resolve_args Demo.Bad)
           Demo.resolver s' e Hmiss Hr).
Defined.

Lemma demo_rank_decreases (t a : Demo.Obj) (args : list Demo.Obj) :
  dunder_args Demo.env t = Some (a :: args) ∨ util_get_args Demo.env t = a :: args →
  rank Demo.env (util_resolve_supertype Demo.env a) < rank Demo.env t.
Proof.
  destruct t; simpl; intros [H|H]; try discriminate H.
  - injection H as ->. simpl. lia.
  - subst. simpl. lia.
Qed.

Lemma unwrap_fuel_enough_witness :
  let t := Optional_ Demo.env (Optional_ Demo.env Demo.int) in
  let p := default_parameter Demo.env t None Demo.OEMPTY in
  unwrap Demo.env 10 false t [Optional_ Demo.env Demo.int; Demo.NoneType]
    true STRICT_MODE true false
  = canonical Demo.env false t p None SNone.
Proof.
  apply (unwrap_fuel_enough Demo.env
           (fun use a args Hd _ => demo_rank_decreases use a args (or_introl Hd))
           (fun use a args Hg _ => demo_rank_decreases use a args (or_intror Hg))
           10 false
           (Optional_ Demo.env (Optional_ Demo.env Demo.int))
           (default_parameter Demo.env
              (Optional_ Demo.env (Optional_ Demo.env Demo.int)) None
              Demo.OEMPTY)
           None SNone).
  vm_compute. lia.
Defined.

(** ** What [annotation] returns *)

Section Canonical.
Context {T Ext ExtExn : Type} `{EqDecision T, EqDecision Ext}.
Context (E : Env T Ext ExtExn).

#[local] Abbreviation State := (State T Ext).
#[local] Abbreviation steps := (steps (T:=T) (Ext:=Ext) (ExtExn:=ExtExn)).

(** The three ways [annotation] returns. *)
Lemma annotation_with_Ok gc t name parameter is_optional is_strict flags
    default namespace (s s' : State) a :
  annotation_with E gc t name parameter is_optional is_strict flags default
    namespace s = (Ok a, s') →
  let p := effective_parameter E t name parameter default in
  let u := canonical E (strict_mode s) t p is_optional is_strict in
  let use := u_use u in
  let local := effective_flags E t flags in
  (∃ module,
     is_ForwardRef E use = true
     ∧ a = ForwardDelayedAnnotation use name p (u_is_optional u)
             (u_is_strict u) local default module
     ∧ s' = s)
  ∨ (is_ForwardRef E use = false
     ∧ py_is E use namespace || stack_mem use (stack s) = true
     ∧ a = DelayedAnnotation use name p (u_is_optional u) (u_is_strict u)
             local default)
  ∨ (is_ForwardRef E use = false
     ∧ py_is E use namespace || stack_mem use (stack s) = false
     ∧ ∃ serde,
         a = Annotation use (util_origin E t) t p (u_is_optional u)
               (u_is_strict u) (u_is_static u) serde
         ∧ (u_is_static u && negb (u_is_literal u) = false →
            serde = SerdeConfig_default local)).
Proof.
  intros Hrun p u use local. unfold annotation_with in Hrun.
  rewrite run_bind_get in Hrun. cbv zeta in Hrun.
  change (match parameter with Some p0 => p0
          | None => default_parameter E t name default end) with p in Hrun.
  change (match SERDE_FLAGS_ATTR E t with Some f => f
          | None => match flags with Some f => f
                    | None => SerdeFlags_default end end) with local in Hrun.
  change (canonical E (strict_mode s) t p is_optional is_strict) with u in Hrun.
  change (u_use u) with use in Hrun.
  destruct (u_is_literal u && _); [discriminate Hrun|].
  rewrite run_bind_ret in Hrun.
  destruct (is_ForwardRef E use) eqn:Hfwd.
  { injection Hrun as <- <-. left. eauto. }
  destruct (py_is E use namespace || stack_mem use (stack s)) eqn:Hrec.
  - right. left. split; [reflexivity|]. split; [reflexivity|].
    destruct (stack_mem use (stack s));
      rewrite ?run_bind_modify, ?run_bind_ret in Hrun;
      injection Hrun as <- _; reflexivity.
  - right. right. split; [reflexivity|]. split; [reflexivity|].
    assert (∀ s0, bind (if u_is_static u && negb (u_is_literal u)
                        then gc (util_origin E use) local
                        else ret (SerdeConfig_default local))
                    (fun serde => ret (Annotation use (util_origin E t) t p
                                         (u_is_optional u) (u_is_strict u)
                                         (u_is_static u) serde)) s0
                  = (Ok a, s') →
            ∃ serde,
              a = Annotation use (util_origin E t) t p (u_is_optional u)
                    (u_is_strict u) (u_is_static u) serde
              ∧ (u_is_static u && negb (u_is_literal u) = false →
                 serde = SerdeConfig_default local)) as Hserde.
    { intros s0 H0. apply run_bind_inv_Ok in H0 as (serde & s1 & Hcfg & Hret).
      injection Hret as <- _. exists serde. split; [reflexivity|].
      intros Hcond. rewrite Hcond in Hcfg. injection Hcfg as <- _. reflexivity. }
    destruct (negb (checks_isstdlibtype E use));
      rewrite ?run_bind_modify, ?run_bind_ret in Hrun; eapply Hserde, Hrun.
Qed.

(** Once set, [is_optional] stays set through the unwrapping loop, and an
    explicit [is_strict=True] stays what it is. *)
Lemma unwrap_optional_sticks fuel g use args st sta l :
  u_is_optional (unwrap E fuel g use args true st sta l) = true.
Proof.
  revert use args st sta l. induction fuel as [|fuel IH]; intros; simpl;
    [reflexivity|].
  destruct args as [|arg0 args]; [reflexivity|].
  destruct (checks_should_unwrap E use); [|reflexivity]. simpl.
  destruct (bool_decide (2 < _)); [reflexivity|apply IH].
Qed.

Lemma unwrap_strict_sticks fuel g use args o sta l :
  u_is_strict (unwrap E fuel g use args o (SBool true) sta l) = SBool true.
Proof.
  revert use args o sta l. induction fuel as [|fuel IH]; intros; simpl;
    [reflexivity|].
  destruct args as [|arg0 args]; [reflexivity|].
  destruct (checks_should_unwrap E use); [|reflexivity]. simpl.
  destruct (_ && _); [reflexivity|apply IH].
Qed.

Lemma annotation_with_Ok_flags gc t name parameter is_optional is_strict
    flags default namespace (s s' : State) a :
  annotation_with E gc t name parameter is_optional is_strict flags default
    namespace s = (Ok a, s') →
  let u := canonical E (strict_mode s) t
             (effective_parameter E t name parameter default)
             is_optional is_strict in
  anno_optional a = u_is_optional u ∧ anno_strict a = u_is_strict u
  ∧ anno_parameter a = effective_parameter E t name parameter default.
Proof.
  intros Hrun u. apply annotation_with_Ok in Hrun.
  destruct Hrun as [(m & _ & -> & _)|[(_ & _ & ->)|(_ & _ & serde & -> & _)]];
    repeat split; reflexivity.
Qed.

Lemma canonical_optional g t p is_optional is_strict :
  is_optional = Some true
  ∨ checks_isoptionaltype E (util_resolve_supertype E t) = true
  ∨ param_default p ∈ OPTIONALS E →
  u_is_optional (canonical E g t p is_optional is_strict) = true.
Proof.
  intros Hopt. unfold canonical.
  replace (_ || _ || _) with true; [apply unwrap_optional_sticks|].
  symmetry. destruct Hopt as [->|[->|Hin]].
  - reflexivity.
  - apply orb_true_iff. left. apply orb_true_r.
  - apply orb_true_iff. right. apply bool_decide_eq_true_2, Hin.
Qed.

(** An annotation is optional as soon as [is_optional=True] is passed, the
    description is an optional type, or the default of its parameter is
    [None] or [...]: nothing in the unwrapping switches it off again. *)
Theorem annotation_optional_sticks (fuel : nat) (t : T)
    (name : option string) (parameter : option (Param T))
    (is_optional : option bool) (is_strict : PyStrict)
    (flags : option (SerdeFlags T)) (default : T) (namespace : option T)
    (s s' : State) (a : AnnotationT T) :
  annotation E fuel t name parameter is_optional is_strict flags default
    namespace s = (Ok a, s') →
  is_optional = Some true
  ∨ checks_isoptionaltype E (util_resolve_supertype E t) = true
  ∨ param_default (effective_parameter E t name parameter default)
    ∈ OPTIONALS E →
  anno_optional a = true.
Proof.
  intros Hrun Hopt. apply annotation_with_Ok_flags in Hrun as (-> & _ & _).
  apply canonical_optional, Hopt.
Qed.

(** An unhashable default is replaced by [...] in the parameter
    [annotation] builds, and [...] is one of [OPTIONALS]: a field with an
    unhashable default is canonicalized as optional. *)
Theorem unhashable_default_optional (fuel : nat) (t : T)
    (name : option string) (is_optional : option bool) (is_strict : PyStrict)
    (flags : option (SerdeFlags T)) (default : T) (namespace : option T)
    (s s' : State) (a : AnnotationT T) :
  checks_ishashable E default = false →
  annotation E fuel t name None is_optional is_strict flags default
    namespace s = (Ok a, s') →
  param_default (anno_parameter a) = PyEllipsis E ∧ anno_optional a = true.
Proof.
  intros Hhash Hrun.
  assert (param_default (effective_parameter E t name None default)
          = PyEllipsis E) as Hdef.
  { simpl. rewrite Hhash. reflexivity. }
  apply annotation_with_Ok_flags in Hrun as (-> & _ & ->).
  split; [exact Hdef|]. apply canonical_optional.
  right. right. rewrite Hdef. apply list_elem_of_further, list_elem_of_here.
Qed.

(** [is_strict=True] makes the annotation strict whatever the global
    strict mode is. *)
Theorem explicit_strict_sticks (fuel : nat) (t : T)
    (name : option string) (parameter : option (Param T))
    (is_optional : option bool) (flags : option (SerdeFlags T))
    (default : T) (namespace : option T) (s s' : State)
    (a : AnnotationT T) :
  annotation E fuel t name parameter is_optional (SBool true) flags default
    namespace s = (Ok a, s') →
  anno_strict a = SBool true.
Proof.
  intros Hrun. apply annotation_with_Ok_flags in Hrun as (_ & -> & _).
  unfold canonical. apply unwrap_strict_sticks.
Qed.

(** An annotation that is not static carries no field maps: its
    configuration is the empty [SerdeConfig(flags)]. *)
Theorem non_static_no_fields (fuel : nat) (t : T)
    (name : option string) (parameter : option (Param T))
    (is_optional : option bool) (is_strict : PyStrict)
    (flags : option (SerdeFlags T)) (default : T) (namespace : option T)
    (s s' : State) (resolved origin un_resolved : T) (p : Param T)
    (optional : bool) (strict : PyStrict) (serde : SerdeConfig T) :
  annotation E fuel t name parameter is_optional is_strict flags default
    namespace s
  = (Ok (Annotation resolved origin un_resolved p optional strict false serde),
     s') →
  serde = SerdeConfig_default (effective_flags E t flags).
Proof.
  intros Hrun. apply annotation_with_Ok in Hrun.
  destruct Hrun as [(m & _ & [=] & _)|[(_ & _ & [=])|(_ & _ & serde' & Ha & Hd)]].
  injection Ha as -> -> -> -> -> -> Hstatic ->. apply Hd.
  rewrite <- Hstatic. reflexivity.
Qed.

(** [annotation] builds no protocol: whatever it returns or raises, the
    protocol cache, the memo tables of [resolve] and
    [_resolve_from_annotation], the object counter and the strict mode are
    as before. It only writes the stack and the memo table of
    [_get_configuration]. *)
Theorem annotation_builds_nothing (fuel : nat) (t : T)
    (name : option string) (parameter : option (Param T))
    (is_optional : option bool) (is_strict : PyStrict)
    (flags : option (SerdeFlags T)) (default : T) (namespace : option T)
    (s : State) :
  builds_nothing s
    (annotation E fuel t name parameter is_optional is_strict flags default
       namespace s).2.
Proof.
  assert (PreOrder (builds_nothing (T:=T) (Ext:=Ext))) as Hpre.
  { split; [intros s0; repeat split; reflexivity|].
    intros s1 s2 s3 (A1 & A2 & A3 & A4 & A5 & A6) (B1 & B2 & B3 & B4 & B5 & B6).
    repeat split; congruence. }
  apply (steps_annotation E (builds_nothing (T:=T) (Ext:=Ext)));
    intros; repeat split; reflexivity.
Qed.

(** A forward reference is never put on the stack: when the type
    [annotation] settles on is a [ForwardRef] and passes the literal check,
    [annotation] returns a [ForwardDelayedAnnotation] that names the module
    of the enclosing namespace (the resolver's own module when there is
    none) and leaves the resolver exactly as it was. A [resolve] call that
    runs on such arguments returns a [DelayedSerdeProtocol]. *)
Theorem forward_reference_delayed (fuel : nat) (t : T)
    (name : option string) (parameter : option (Param T))
    (is_optional : option bool) (is_strict : PyStrict)
    (flags : option (SerdeFlags T)) (default : T) (namespace : option T)
    (des ser : bool) (s : State) :
  let p := effective_parameter E t name parameter default in
  let u := canonical E (strict_mode s) t p is_optional is_strict in
  let use := u_use u in
  let module := match namespace with
                | Some ns => dunder_module E ns
                | None => "typic.serde.resolver"
                end in
  let anno := ForwardDelayedAnnotation use name p (u_is_optional u)
                (u_is_strict u) (effective_flags E t flags) default module in
  u_is_literal u
  && existsb (fun x => negb (isinstance_LITERALS E x)) (util_get_args E use)
  = false →
  is_ForwardRef E use = true →
  annotation E fuel t name parameter is_optional is_strict flags default
    namespace s = (Ok anno, s)
  ∧ (default = EMPTY E → wf_protocols s →
     dget (mkResolveArgs t flags name parameter is_optional is_strict
             namespace des ser) (lru_resolve s) = None →
     ∃ oid s',
       resolve E (mkResolveArgs t flags name parameter is_optional is_strict
                    namespace des ser) s
       = (Ok (DelayedSerdeProtocol oid anno), s')
       ∧ stack s' = []).
Proof.
  intros p u use module anno Hlit Hfwd.
  assert (∀ fuel', annotation E fuel' t name parameter is_optional is_strict
            flags default namespace s = (Ok anno, s)) as Hanno.
  { intros fuel'. unfold annotation, annotation_with.
    rewrite run_bind_get. cbv zeta.
    change (match parameter with Some p0 => p0
            | None => default_parameter E t name default end) with p.
    change (canonical E (strict_mode s) t p is_optional is_strict) with u.
    change (u_use u) with use.
    rewrite Hlit, run_bind_ret, Hfwd. reflexivity. }
  split; [apply Hanno|].
  intros Hdef Hwf Hmiss. unfold resolve, lru_cache. rewrite Hmiss.
  unfold resolve_body. simpl. rewrite <- Hdef.
  rewrite (run_bind_Ok _ _ _ _ _ (Hanno _)).
  destruct (resolve_from_annotation_delayed E anno des ser namespace s)
    as (oid & s2 & Hrfa & _ & _); [exact Hwf|reflexivity|].
  rewrite (run_bind_Ok _ _ _ _ _ Hrfa), run_bind_modify.
  unfold ret. simpl. eauto.
Qed.

End Canonical.

(** ** More on the field maps: [omit] and [signature_only] *)

Section Omissions.
Context {T Ext ExtExn : Type} `{EqDecision T, EqDecision Ext}.
Context (E : Env T Ext ExtExn).

#[local] Abbreviation SerdeFlags := (SerdeFlags T).
#[local] Abbreviation AnnotationT := (AnnotationT T).
Implicit Types (flags : SerdeFlags) (fields : dict string AnnotationT).
Implicit Types (fo : dict string string) (params : list string).

(** The omit loop looks every output field up in [fields]. *)
Lemma fields_out_omit_loop_keys omit fields items acc fo' :
  fields_out_omit_loop E omit fields items acc = Ok fo' →
  ∀ x y, (x, y) ∈ items → x ∈ dkeys fields.
Proof.
  revert acc. induction items as [|[name out] items IH]; simpl;
    intros acc Hloop x y Hin.
  - apply elem_of_nil in Hin as [].
  - unfold getitem in Hloop.
    destruct (dget name fields) as [anno|] eqn:Hg; [|discriminate].
    destruct (omit_keeps E omit anno) as [keep|e]; [|discriminate].
    apply elem_of_cons in Hin as [[= -> ->]|Hin].
    + eapply dget_Some_keys, Hg.
    + eapply IH; eassumption.
Qed.

(** What the omit loop lets through was kept by [omit_keeps]. *)
Lemma fields_out_omit_loop_kept omit fields items acc fo' :
  fields_out_omit_loop E omit fields items acc = Ok fo' →
  (∀ x y, dget x acc = Some y →
     ∃ anno, dget x fields = Some anno ∧ omit_keeps E omit anno = Ok true) →
  ∀ x y, dget x fo' = Some y →
    ∃ anno, dget x fields = Some anno ∧ omit_keeps E omit anno = Ok true.
Proof.
  revert acc. induction items as [|[name out] items IH]; simpl;
    intros acc Hloop Hacc.
  - injection Hloop as <-. exact Hacc.
  - unfold getitem in Hloop.
    destruct (dget name fields) as [anno|] eqn:Hg; [|discriminate].
    destruct (omit_keeps E omit anno) as [keep|e] eqn:Hk; [|discriminate].
    apply (IH _ Hloop). intros x y Hx. destruct keep; [|eauto].
    rewrite dget_dset in Hx. destruct (decide (x = name)) as [->|]; eauto.
Qed.

Lemma omit_keeps_nil anno b : omit_keeps E [] anno = Ok b → b = true.
Proof.
  unfold omit_keeps, type_name_omissions, type_omissions. simpl.
  destruct anno; simpl;
    repeat match goal with
    | |- context [bool_decide (?x ∈ [])] =>
        rewrite (bool_decide_eq_false_2 (x ∈ [])) by apply not_elem_of_nil
    end.
  - intros [= <-]. reflexivity.
  - destruct (delayed_origin E _); [|discriminate].
    repeat match goal with
    | |- context [bool_decide (?x ∈ [])] =>
        rewrite (bool_decide_eq_false_2 (x ∈ [])) by apply not_elem_of_nil
    end.
    intros [= <-]. reflexivity.
  - intros [= <-]. reflexivity.
Qed.

(** With [omit] set, the omit loop reads [fields[name]] for every output
    name, so a configuration is only returned when every name that
    [flags.fields] lists is a field of the type: a listed name that is no
    field raises [KeyError] there, where without [omit] it is carried into
    the output map. *)
Theorem omit_needs_listed_fields (fuel : nat) (origin : T)
    (flags : SerdeFlags) (s s' : State T Ext) (cfg : SerdeConfig T) :
  wf_configs E s →
  _get_configuration E fuel origin flags s = (Ok cfg, s') →
  flags_omit (serde_flags cfg) ≠ [] →
  ∀ x, is_Some (listed_name (serde_flags cfg) x) →
       x ∈ dkeys (serde_fields cfg).
Proof.
  intros Hwf Hrun Homit x Hlisted.
  apply get_configuration_produced in Hrun; [|exact Hwf].
  apply produced_maps in Hrun
    as (fields & fo & _ & Hfo & Hfl & Hf & _ & _).
  rewrite Hfl in *. rewrite Hf. clear Hfl Hf.
  unfold fields_out_before_exclude, fields_out_omit in Hfo.
  destruct (flags_omit (own_flags E origin flags)) as [|o omit]; [congruence|].
  set (items := fields_out_case E _ _) in Hfo.
  assert (NoDup (dkeys (fields_out_include (own_flags E origin flags)
                          (fields_out_seed fields)))) as Hnd
    by apply NoDup_fields_out_include, NoDup_dkeys_dict_of.
  assert (is_Some (dget x items)) as [y Hy].
  { subst items. rewrite dget_fields_out_case, dget_fields_out_include
      by exact Hnd.
    destruct Hlisted as [r ->]. simpl. eauto. }
  eapply fields_out_omit_loop_keys; [exact Hfo|].
  apply dget_Some_elem, Hy.
Qed.

(** A field that the omit loop drops (the origin of its type, or its
    default, is one of the omitted types) is in neither map: it has no
    output name, and no input name leads to it. *)
Theorem omitted_field_in_neither_map (fuel : nat) (origin : T)
    (flags : SerdeFlags) (s s' : State T Ext) (cfg : SerdeConfig T)
    (x : string) (anno : AnnotationT) :
  wf_configs E s →
  _get_configuration E fuel origin flags s = (Ok cfg, s') →
  dget x (serde_fields cfg) = Some anno →
  omit_keeps E (flags_omit (serde_flags cfg)) anno = Ok false →
  dget x (serde_fields_out cfg) = None
  ∧ ∀ y, dget y (serde_fields_in cfg) ≠ Some x.
Proof.
  intros Hwf Hrun Hx Hdrop.
  apply get_configuration_produced in Hrun; [|exact Hwf].
  apply produced_maps in Hrun
    as (fields & fo & _ & Hfo & Hfl & Hf & Hout & Hin).
  rewrite Hfl in *. rewrite Hf in *. rewrite Hout, Hin. clear Hfl Hf Hout Hin.
  destruct (fields_out_before_exclude_spec E _ _ _ Hfo) as [Hnd _].
  assert (dget x fo = None) as Hnone.
  { unfold fields_out_before_exclude, fields_out_omit in Hfo.
    destruct (flags_omit (own_flags E origin flags)) as [|o omit] eqn:Ho.
    { apply omit_keeps_nil in Hdrop. discriminate. }
    destruct (dget x fo) as [y|] eqn:Hy; [|reflexivity].
    eapply fields_out_omit_loop_kept in Hy as (anno' & Ha & Hk);
      [|exact Hfo|discriminate].
    congruence. }
  split.
  - rewrite dget_fields_out_exclude by exact Hnd.
    destruct (decide _); [reflexivity|exact Hnone].
  - intros y Hy. rewrite dget_fields_in_of in Hy.
    destruct (key_of fo y) as [x'|] eqn:Hkey; [|discriminate].
    destruct (accepts _ x'); [|discriminate]. injection Hy as ->.
    unfold key_of in Hkey. apply last_item_Some_elem in Hkey.
    apply list_elem_of_fmap in Hkey as ([x0 y0] & [= -> ->] & Hin).
    apply NoDup_elem_dget in Hin; [|exact Hnd]. congruence.
Qed.

Lemma dkeys_dict_of_elem {V} (items : list (string * V)) x :
  x ∈ dkeys (dict_of items) → ∃ v, (x, v) ∈ items.
Proof.
  intros Hin. apply elem_of_dkeys in Hin as [v Hv].
  rewrite dget_dict_of in Hv. apply last_item_Some_elem in Hv. eauto.
Qed.

(** Under [signature_only] every field of the configuration is a parameter
    of the type's constructor (the iteration over the set
    [fields.keys() & params.keys()] hands out members of that set). *)
Theorem signature_only_fields_are_params (fuel : nat) (origin : T)
    (flags : SerdeFlags) (s s' : State T Ext) (cfg : SerdeConfig T) :
  (∀ l x, x ∈ set_iter E l → x ∈ l) →
  wf_configs E s →
  _get_configuration E fuel origin flags s = (Ok cfg, s') →
  flags_signature_only (serde_flags cfg) = true →
  ∀ x, x ∈ dkeys (serde_fields cfg) → x ∈ util_safe_get_params E origin.
Proof.
  intros Hset Hwf Hrun Hsig x Hx.
  apply get_configuration_produced in Hrun; [|exact Hwf].
  destruct Hrun as (fields & Hc & _).
  apply configure_inv in Hc as (fields' & fo & Hso & _ & Hfl & Hf & _ & _).
  rewrite Hfl in Hsig. rewrite Hf in Hx. clear Hfl Hf.
  unfold fields_signature_only in Hso. rewrite Hsig in Hso.
  destruct (collect _ _) as [items|e] eqn:Hcol; [|discriminate].
  injection Hso as <-. apply dkeys_dict_of_elem in Hx as [a Hxa].
  destruct (collect_elem _ _ _ _ Hcol Hxa) as (x0 & Hx0 & Hget).
  destruct (getitem fields x0); [|discriminate]. injection Hget as -> _.
  apply Hset, list_elem_of_In, filter_In in Hx0 as [_ Hp].
  apply bool_decide_eq_true in Hp. exact Hp.
Qed.

End Omissions.

(** ** What the tables of the resolver keep *)

Section Growth.
Context {T Ext ExtExn : Type} `{EqDecision T, EqDecision Ext}.
Context (E : Env T Ext ExtExn).

#[local] Abbreviation State := (State T Ext).
#[local] Abbreviation steps := (steps (T:=T) (Ext:=Ext) (ExtExn:=ExtExn)).
#[local] Abbreviation keeps_protocols :=
  (keeps_protocols (T:=T) (Ext:=Ext)).
#[local] Abbreviation builds_nothing := (builds_nothing (T:=T) (Ext:=Ext)).
#[local] Abbreviation wf_first_wins := (wf_first_wins (T:=T) (Ext:=Ext)).

Notation "m ;;; k" := (bind m (fun _ => k))
  (at level 100, right associativity).

Lemma keeps_protocols_refl (s : State) : keeps_protocols s s.
Proof. repeat split; intros; assumption. Qed.

Lemma keeps_protocols_trans (s1 s2 s3 : State) :
  keeps_protocols s1 s2 → keeps_protocols s2 s3 → keeps_protocols s1 s3.
Proof.
  intros (A1 & A2 & A3) (B1 & B2 & B3). repeat split; intros; eauto.
Qed.

Lemma builds_nothing_keeps (s s' : State) :
  builds_nothing s s' → keeps_protocols s s'.
Proof.
  intros (Hc & Hrfa & Hr & _). repeat split; intros; congruence.
Qed.

Lemma annotation_builds_nothing_run fuel t name parameter is_optional
    is_strict flags default namespace (s : State) :
  builds_nothing s
    (annotation E fuel t name parameter is_optional is_strict flags default
       namespace s).2.
Proof.
  assert (PreOrder builds_nothing) as Hpre.
  { split; [intros s0; repeat split; reflexivity|].
    intros s1 s2 s3 (A1 & A2 & A3 & A4 & A5 & A6) (B1 & B2 & B3 & B4 & B5 & B6).
    repeat split; congruence. }
  apply (steps_annotation E builds_nothing); intros; repeat split; reflexivity.
Qed.

(** What one run of the body of [_resolve_from_annotation] does to the
    resolver: it writes [__cache] at most once, at the annotation it was
    given and only when that annotation had no protocol yet. *)
Lemma resolve_from_annotation_body_effect anno des ser ns (s : State) :
  let r := _resolve_from_annotation_body E anno des ser ns s in
  stack r.2 = stack s
  ∧ lru_get_configuration r.2 = lru_get_configuration s
  ∧ lru_resolve_from_annotation r.2 = lru_resolve_from_annotation s
  ∧ lru_resolve r.2 = lru_resolve s
  ∧ (cache r.2 = cache s
     ∨ dget anno (cache s) = None
       ∧ ∃ p, cache r.2 = dset anno p (cache s)
              ∧ (anno_origin_is_Callable E anno = true →
                 ∃ oid, p = SerdeProtocol oid anno None None None None))
  ∧ (∀ p, r.1 = Ok p → is_delayed anno = false →
          dget anno (cache r.2) = Some p).
Proof.
  unfold _resolve_from_annotation_body, bind, get, modify, lift, ret, new_oid.
  destruct (dget anno (cache s)) as [p0|] eqn:Hc.
  { simpl. repeat split; auto. intros p [= <-] _. exact Hc. }
  destruct anno as [resolved origin un p optional strict static serde| |];
    [|simpl; repeat split; auto; discriminate
     |simpl; repeat split; auto; discriminate].
  destruct (anno_origin_is_Callable E _) eqn:Hcall; simpl.
  - repeat split; try reflexivity.
    + right. split; [reflexivity|]. eexists. split; [reflexivity|]. eauto.
    + intros p0 [= <-] _. apply dget_dset_eq.
  - destruct des, ser; simpl;
      repeat match goal with
             | |- context [constr_get_constraints E ?a ?b ?c] =>
                 destruct (constr_get_constraints E a b c); simpl
             | |- context [des_factory E ?a ?b ?c] =>
                 destruct (des_factory E a b c); simpl
             | |- context [ser_factory E ?a] =>
                 destruct (ser_factory E a); simpl
             end;
      repeat split; try reflexivity; try (left; reflexivity);
      try (intros ? [=]; fail);
      try (right; split; [reflexivity|]; eexists; split; [reflexivity|];
           discriminate);
      intros p0 [= <-] _; apply dget_dset_eq.
Qed.

Lemma dget_dset_keeps {K V} `{EqDecision K} (d : dict K V) k k' v v' :
  dget k' d = None → dget k d = Some v → dget k (dset k' v' d) = Some v.
Proof.
  intros Hnone Hg. rewrite dget_dset_ne; [exact Hg|]. intros ->. congruence.
Qed.

Lemma resolve_from_annotation_keeps anno des ser ns (s : State) :
  keeps_protocols s (_resolve_from_annotation E anno des ser ns s).2.
Proof.
  unfold _resolve_from_annotation, lru_cache.
  destruct (dget _ (lru_resolve_from_annotation s)) as [p|] eqn:Hhit;
    [apply keeps_protocols_refl|].
  destruct (resolve_from_annotation_body_effect anno des ser ns s)
    as (_ & _ & Hrfa & Hres & Hcache & _).
  assert (∀ k v, dget k (cache s) = Some v →
            dget k (cache (_resolve_from_annotation_body E anno des ser ns s).2)
            = Some v) as Hgrow.
  { intros k v Hk. destruct Hcache as [->|(Hnone & p & -> & _)]; [exact Hk|].
    apply dget_dset_keeps; assumption. }
  destruct (_resolve_from_annotation_body E anno des ser ns s) as [[p|e] s1];
    simpl in *.
  - repeat split; simpl; [exact Hgrow| |intros k v; rewrite Hres; auto].
    intros k v Hk. rewrite Hrfa. apply dget_dset_keeps; assumption.
  - repeat split; [exact Hgrow|intros k v; rewrite Hrfa; auto
                   |intros k v; rewrite Hres; auto].
Qed.

Lemma resolve_body_keeps a (s : State) :
  keeps_protocols s (resolve_body E a s).2.
Proof.
  unfold resolve_body, bind.
  pose proof (annotation_builds_nothing_run (recursionlimit E)
                (ra_annotation a) (ra_name a) (ra_parameter a)
                (ra_is_optional a) (ra_is_strict a) (ra_flags a) (EMPTY E)
                (ra_namespace a) s) as Hanno.
  apply builds_nothing_keeps in Hanno.
  destruct (annotation E _ _ _ _ _ _ _ _ _ s) as [[anno|e] s1]; simpl in *;
    [|exact Hanno].
  pose proof (resolve_from_annotation_keeps anno (ra_des a) (ra_ser a)
                (ra_namespace a) s1) as Hrfa.
  destruct (_resolve_from_annotation E anno _ _ _ s1) as [[p|e] s2];
    simpl in *; eapply keeps_protocols_trans; eauto.
Qed.

Lemma resolve_keeps_protocols a (s : State) :
  keeps_protocols s (resolve E a s).2.
Proof.
  unfold resolve, lru_cache.
  destruct (dget a (lru_resolve s)) as [p|] eqn:Hhit;
    [apply keeps_protocols_refl|].
  pose proof (resolve_body_keeps a s) as (Hc & Hrfa & Hres).
  pose proof (resolve_body_same_lru E a s) as Hsame.
  destruct (resolve_body E a s) as [[p|e] s1]; simpl in *.
  - repeat split; simpl; [exact Hc|exact Hrfa|].
    intros k v Hk. rewrite Hsame. apply dget_dset_keeps; assumption.
  - repeat split; assumption.
Qed.

(** [resolve] never forgets: across any number of calls, whatever each
    returns or raises, every entry of [__cache] and of the memo tables of
    [resolve] and [_resolve_from_annotation] is still there afterwards,
    with the same protocol object. No protocol is evicted or rebuilt. *)
Theorem resolve_never_forgets (calls : list (ResolveArgs T)) (s : State) :
  keeps_protocols s (resolve_all E calls s).
Proof.
  revert s. induction calls as [|a calls IH]; intros s; simpl.
  - apply keeps_protocols_refl.
  - eapply keeps_protocols_trans; [apply resolve_keeps_protocols|apply IH].
Qed.

(** *** The first protocol of an annotation wins *)

Lemma resolve_from_annotation_first_wins anno des ser ns (s : State) :
  wf_first_wins s →
  let r := _resolve_from_annotation E anno des ser ns s in
  wf_first_wins r.2
  ∧ (∀ p, r.1 = Ok p → is_delayed anno = false →
          dget anno (cache r.2) = Some p).
Proof.
  intros Hwf. unfold _resolve_from_annotation, lru_cache.
  destruct (dget _ (lru_resolve_from_annotation s)) as [p|] eqn:Hhit.
  { simpl. split; [exact Hwf|]. intros p0 [= <-] Hd. eapply Hwf; eassumption. }
  destruct (resolve_from_annotation_body_effect anno des ser ns s)
    as (_ & _ & Hrfa & _ & Hcache & Hres).
  assert (∀ k v, dget k (cache s) = Some v →
            dget k (cache (_resolve_from_annotation_body E anno des ser ns s).2)
            = Some v) as Hgrow.
  { intros k v Hk. destruct Hcache as [->|(Hnone & p & -> & _)]; [exact Hk|].
    apply dget_dset_keeps; assumption. }
  destruct (_resolve_from_annotation_body E anno des ser ns s) as [[p|e] s1];
    simpl in *.
  - split; [|exact Hres].
    intros anno' des' ser' ns' p' Hg Hd. simpl in *. rewrite dget_dset in Hg.
    destruct (decide (_ = _)) as [[= -> -> -> ->]|_].
    + injection Hg as <-. apply Hres; [reflexivity|exact Hd].
    + rewrite Hrfa in Hg. eapply Hgrow, Hwf; eassumption.
  - split; [|discriminate]. intros anno' des' ser' ns' p' Hg Hd.
    rewrite Hrfa in Hg. eapply Hgrow, Hwf; eassumption.
Qed.

Lemma resolve_from_annotation_wf_callable anno des ser ns (s : State) :
  wf_callable E s →
  wf_callable E (_resolve_from_annotation E anno des ser ns s).2.
Proof.
  intros Hwf. unfold _resolve_from_annotation, lru_cache.
  destruct (dget _ (lru_resolve_from_annotation s)) as [p|]; [exact Hwf|].
  destruct (resolve_from_annotation_body_effect anno des ser ns s)
    as (_ & _ & _ & _ & Hcache & _).
  assert (wf_callable E (_resolve_from_annotation_body E anno des ser ns s).2)
    as Hwf1.
  { intros k v Hk Hcall. destruct Hcache as [Heq|(Hnone & p & Heq & Hp)];
      rewrite Heq in Hk; [eapply Hwf; eassumption|].
    rewrite dget_dset in Hk. destruct (decide (k = anno)) as [->|_].
    - injection Hk as <-. apply Hp, Hcall.
    - eapply Hwf; eassumption. }
  destruct (_resolve_from_annotation_body E anno des ser ns s) as [[p|e] s1];
    exact Hwf1.
Qed.

(** [__cache] is keyed by the annotation alone. Once
    [_resolve_from_annotation] has returned a protocol for an annotation
    that is not delayed, every later call for that annotation returns the
    very same protocol, whatever [_des], [_ser] and [_namespace] it is
    given, and builds nothing: a protocol first built with [_des=False]
    stays without a deserializer. *)
Theorem first_protocol_wins (anno : AnnotationT T) (des ser : bool)
    (ns : option T) (s s1 : State) (p : ProtocolT T Ext)
    (des' ser' : bool) (ns' : option T) :
  wf_first_wins s →
  _resolve_from_annotation E anno des ser ns s = (Ok p, s1) →
  is_delayed anno = false →
  ∃ s2,
    _resolve_from_annotation E anno des' ser' ns' s1 = (Ok p, s2)
    ∧ cache s2 = cache s1
    ∧ builds s2 = builds s1
    ∧ next_oid s2 = next_oid s1.
Proof.
  intros Hwf Hrun Hd.
  destruct (resolve_from_annotation_first_wins anno des ser ns s Hwf)
    as [Hwf1 Hc].
  rewrite Hrun in Hwf1, Hc. simpl in Hwf1, Hc.
  specialize (Hc p eq_refl Hd).
  unfold _resolve_from_annotation, lru_cache.
  destruct (dget _ (lru_resolve_from_annotation s1)) as [p'|] eqn:Hhit.
  - pose proof (Hwf1 _ _ _ _ _ Hhit Hd) as Hc'. exists s1.
    split; [congruence|]. repeat split; reflexivity.
  - unfold _resolve_from_annotation_body. rewrite run_bind_get, Hc.
    unfold ret. eexists. split; [reflexivity|]. repeat split; reflexivity.
Qed.

(** Simulating the legacy behaviour: the protocol of an annotation whose
    origin is [Callable] has no deserializer, no serializer, no
    constraints and no validator, whatever [_des] and [_ser] ask for. *)
Theorem callable_protocol_empty (anno : AnnotationT T) (des ser : bool)
    (ns : option T) (s s1 : State) (p : ProtocolT T Ext) :
  wf_first_wins s → wf_callable E s →
  _resolve_from_annotation E anno des ser ns s = (Ok p, s1) →
  anno_origin_is_Callable E anno = true →
  ∃ oid, p = SerdeProtocol oid anno None None None None.
Proof.
  intros Hwf Hcal Hrun Hcall.
  destruct (resolve_from_annotation_first_wins anno des ser ns s Hwf)
    as [_ Hc].
  pose proof (resolve_from_annotation_wf_callable anno des ser ns s Hcal)
    as Hcal1.
  rewrite Hrun in Hc, Hcal1. simpl in Hc, Hcal1.
  eapply Hcal1; [|exact Hcall]. apply Hc; [reflexivity|].
  destruct anno; [reflexivity|discriminate|discriminate].
Qed.

(** Both invariants hold in a new resolver and are kept by [resolve]. *)
Lemma new_state_wf_tables g :
  wf_first_wins (new_state g) ∧ wf_callable E (new_state g).
Proof. split; intros ? *; discriminate. Qed.

Lemma resolve_wf_tables a (s : State) :
  wf_first_wins s ∧ wf_callable E s →
  wf_first_wins (resolve E a s).2 ∧ wf_callable E (resolve E a s).2.
Proof.
  intros [Hfw Hcal]. unfold resolve, lru_cache.
  destruct (dget a (lru_resolve s)); [split; assumption|].
  assert (wf_first_wins (resolve_body E a s).2
          ∧ wf_callable E (resolve_body E a s).2) as Hbody.
  { unfold resolve_body, bind.
    pose proof (annotation_builds_nothing_run (recursionlimit E)
                  (ra_annotation a) (ra_name a) (ra_parameter a)
                  (ra_is_optional a) (ra_is_strict a) (ra_flags a) (EMPTY E)
                  (ra_namespace a) s) as (Hc & Hrfa & _).
    destruct (annotation E _ _ _ _ _ _ _ _ _ s) as [[anno|e] s1]; simpl in *.
    - assert (wf_first_wins s1) as Hfw1.
      { intros k d sr n p Hg Hd. rewrite Hrfa in Hg. rewrite Hc.
        eapply Hfw; eassumption. }
      assert (wf_callable E s1) as Hcal1.
      { intros k p Hg. rewrite Hc in Hg. eapply Hcal; eassumption. }
      destruct (resolve_from_annotation_first_wins anno (ra_des a) (ra_ser a)
                  (ra_namespace a) s1 Hfw1) as [Hfw2 _].
      pose proof (resolve_from_annotation_wf_callable anno (ra_des a)
                    (ra_ser a) (ra_namespace a) s1 Hcal1) as Hcal2.
      destruct (_resolve_from_annotation E anno _ _ _ s1) as [[p|e] s2];
        simpl in *; split; assumption.
    - split.
      + intros k d sr n p Hg Hd. rewrite Hrfa in Hg. rewrite Hc.
        eapply Hfw; eassumption.
      + intros k p Hg. rewrite Hc in Hg. eapply Hcal; eassumption. }
  destruct (resolve_body E a s) as [[p|e] s1]; simpl in *; exact Hbody.
Qed.

Lemma resolve_all_wf_tables calls (s : State) :
  wf_first_wins s ∧ wf_callable E s →
  wf_first_wins (resolve_all E calls s)
  ∧ wf_callable E (resolve_all E calls s).
Proof.
  revert s. induction calls as [|a calls IH]; intros s Hwf; simpl;
    [exact Hwf|]. apply IH, resolve_wf_tables, Hwf.
Qed.

(** *** The constructor *)

#[local] Instance keeps_protocols_preorder : PreOrder keeps_protocols.
Proof.
  split; [intros s; apply keeps_protocols_refl|].
  intros s1 s2 s3. apply keeps_protocols_trans.
Qed.

Lemma init_round_memoized typ (s s' : State) (body_ret : unit) :
  (resolve E (resolve_args typ) ;;;
   resolve E (resolve_args (Optional_ E typ)) ;;;
   resolve E (mkResolveArgs typ None None None (Some true) SNone None
                true true) ;;;
   ret tt) s = (Ok body_ret, s') →
  ∀ a, a ∈ init_calls E typ → is_Some (dget a (lru_resolve s')).
Proof.
  intros Hrun a Hin.
  apply run_bind_inv_Ok in Hrun as (p1 & s1 & H1 & Hrun).
  apply run_bind_inv_Ok in Hrun as (p2 & s2 & H2 & Hrun).
  apply run_bind_inv_Ok in Hrun as (p3 & s3 & H3 & Hrun).
  injection Hrun as _ <-.
  apply (resolve_stores E) in H1 as G1.
  apply (resolve_stores E) in H2 as G2.
  apply (resolve_stores E) in H3 as G3.
  pose proof (resolve_keeps E _ (resolve_args (Optional_ E typ)) _ _ G1) as K1.
  rewrite H2 in K1. simpl in K1.
  pose proof (resolve_keeps E _ (mkResolveArgs typ None None None (Some true)
                                   SNone None true true) _ _ K1) as K1'.
  rewrite H3 in K1'. simpl in K1'.
  pose proof (resolve_keeps E _ (mkResolveArgs typ None None None (Some true)
                                   SNone None true true) _ _ G2) as K2.
  rewrite H3 in K2. simpl in K2.
  unfold init_calls in Hin.
  apply elem_of_cons in Hin as [->|Hin]; [eauto|].
  apply elem_of_cons in Hin as [->|Hin]; [eauto|].
  apply elem_of_cons in Hin as [->|Hin]; [eauto|].
  apply elem_of_nil in Hin as [].
Qed.

(** A constructed resolver has the standard types ready: for every type
    of [checks.STDLIB_TYPES], [resolve(typ)], [resolve(Optional[typ])] and
    [resolve(typ, is_optional=True)] are answered from the memo table,
    leaving the resolver untouched. *)
Theorem init_preresolves (s s' : State) :
  __init__ E s = (Ok tt, s') →
  ∀ typ a, typ ∈ checks_STDLIB_TYPES E → a ∈ init_calls E typ →
    ∃ p, resolve E a s' = (Ok p, s').
Proof.
  unfold __init__. generalize (checks_STDLIB_TYPES E) as types.
  intros types. revert s. induction types as [|typ0 types IH];
    intros s Hrun typ a Htyp Ha.
  { apply elem_of_nil in Htyp as []. }
  simpl in Hrun. apply run_bind_inv_Ok in Hrun as ([] & s1 & Hround & Hrest).
  apply elem_of_cons in Htyp as [->|Htyp]; [|eapply IH; eassumption].
  destruct (init_round_memoized _ _ _ _ Hround a Ha) as [p Hp].
  exists p. apply resolve_hit.
  assert (steps keeps_protocols
            (for_each
               (fun (_ : unit) typ =>
                  resolve E (resolve_args typ) ;;;
                  resolve E (resolve_args (Optional_ E typ)) ;;;
                  resolve E (mkResolveArgs typ None None None (Some true)
                               SNone None true true) ;;;
                  ret tt) types tt)) as Hsteps.
  { apply steps_for_each; [apply keeps_protocols_preorder|]. intros [] t.
    repeat (apply steps_bind;
            [apply keeps_protocols_preorder
            |intros s0; apply resolve_keeps_protocols|intros _]).
    apply steps_ret, keeps_protocols_preorder. }
  specialize (Hsteps s1). rewrite Hrest in Hsteps. simpl in Hsteps.
  destruct Hsteps as (_ & _ & Hres). apply Hres, Hp.
Qed.

End Growth.

(** ** The rest of the interface *)

Section Facade.
Context {T Ext ExtExn : Type} `{EqDecision T, EqDecision Ext}.
Context (E : Env T Ext ExtExn) (O : Objects T Ext ExtExn).

#[local] Abbreviation State := (State T Ext).

(** [primitive], [tojson] and [iterate] treat a member of an enum as its
    value: called on the member they do exactly what they do on the value
    (one level only: the value's own class is looked at no further). *)
Theorem enum_member_as_value (obj : T) :
  checks_isenumtype O (dunder_class O obj) = true →
  checks_isenumtype O (dunder_class O (dot_value O obj)) = false →
  (∀ lazy name (s : State),
     primitive E O obj lazy name s
     = primitive E O (dot_value O obj) lazy name s)
  ∧ (∀ indent ensure_ascii kwargs (s : State),
       tojson E O obj indent ensure_ascii kwargs s
       = tojson E O (dot_value O obj) indent ensure_ascii kwargs s)
  ∧ (∀ values (s : State),
       iterate O obj values s = iterate O (dot_value O obj) values s).
Proof.
  intros Henum Hval. unfold primitive, tojson, iterate, unwrap_enum.
  rewrite Henum, Hval. repeat split; reflexivity.
Qed.

Lemma bind_ret_run {A} (m : M (T:=T) (Ext:=Ext) (ExtExn:=ExtExn) A) s :
  bind m (fun a => ret a) s = m s.
Proof. unfold bind, ret. destruct (m s) as [[a|e] s']; reflexivity. Qed.

(** Once [resolve(t)] has returned a protocol, the operations of the
    interface on [t] build nothing: each is the corresponding method of
    that very protocol, run on the resolver as it stands. With
    [transmute=True], [validate] validates first and transmutes only what
    validation returned: a value that fails validation is never
    transmuted. *)
Theorem interface_uses_memoized_protocol (t : T) (s0 s : State)
    (p : ProtocolT T Ext) :
  resolve E (resolve_args t) s0 = (Ok p, s) →
  (∀ v, transmute E t v s = proto_transmute E p v s)
  ∧ (∀ v, validate E O t v false s = proto_validate O p v s)
  ∧ (∀ v, validate E O t v true s
          = match proto_validate O p v s with
            | (Ok v', s') => proto_transmute E p v' s'
            | (Raise e, s') => (Raise e, s')
            end)
  ∧ (∀ v target, dunder_class O v = t →
       translate E O v target s = proto_translate O p v target s)
  ∧ (∀ obj lazy name,
       dunder_class O obj = t → checks_isenumtype O t = false →
       primitive E O obj lazy name s = proto_primitive O p obj lazy name s)
  ∧ (∀ obj indent ensure_ascii kwargs,
       dunder_class O obj = t → checks_isenumtype O t = false →
       tojson E O obj indent ensure_ascii kwargs s
       = proto_tojson O p obj indent ensure_ascii kwargs s).
Proof.
  intros Hres. apply resolve_stores in Hres.
  pose proof (resolve_hit E _ _ _ Hres) as Hhit.
  repeat split.
  - intros v. unfold transmute.
    rewrite (run_bind_Ok _ _ _ _ _ Hhit). apply bind_ret_run.
  - intros v. unfold validate.
    rewrite (run_bind_Ok _ _ _ _ _ Hhit). apply bind_ret_run.
  - intros v. unfold validate.
    rewrite (run_bind_Ok _ _ _ _ _ Hhit). reflexivity.
  - intros v target <-. unfold translate.
    rewrite (run_bind_Ok _ _ _ _ _ Hhit). reflexivity.
  - intros obj lazy name <- Henum. unfold primitive, unwrap_enum.
    rewrite Henum, (run_bind_Ok _ _ _ _ _ Hhit). reflexivity.
  - intros obj indent ensure_ascii kwargs <- Henum. unfold tojson, unwrap_enum.
    rewrite Henum, (run_bind_Ok _ _ _ _ _ Hhit). reflexivity.
Qed.

(** [delayed] answers [False] for every type that [known] does not
    know. *)
Theorem unknown_type_not_delayed (t : T) :
  known E O t = false → delayed E O t = PyFalse O.
Proof.
  unfold known, delayed, hasattr. intros Hk.
  apply orb_false_iff in Hk as [_ Hd].
  destruct (getattr E t "__delayed__") as [v|]; [|reflexivity].
  apply bool_decide_eq_false in Hd. destruct Hd. eauto.
Qed.

End Facade.

(** ** [protocols] *)

Section Protocols.
Context {T Ext ExtExn : Type} `{EqDecision T, EqDecision Ext}.
Context (E : Env T Ext ExtExn) (O : Objects T Ext ExtExn).

#[local] Abbreviation State := (State T Ext).
#[local] Abbreviation steps := (steps (T:=T) (Ext:=Ext) (ExtExn:=ExtExn)).
#[local] Abbreviation keeps_protocols :=
  (keeps_protocols (T:=T) (Ext:=Ext)).

Lemma protocols_loop_keeps obj strict names acc :
  steps keeps_protocols (protocols_loop E O obj strict names acc).
Proof.
  unfold protocols_loop.
  apply steps_for_each; [apply keeps_protocols_preorder|]. intros ann name.
  apply steps_bind; [apply keeps_protocols_preorder|apply steps_lift|];
    [apply keeps_protocols_preorder|]. intros args.
  apply steps_bind; [apply keeps_protocols_preorder| |].
  - intros s. apply resolve_keeps_protocols.
  - intros p. apply steps_ret, keeps_protocols_preorder.
Qed.

(** One round of the loop that returns. *)
Lemma protocols_round_Ok obj strict name acc (s s1 : State) acc' :
  bind (lift (protocols_resolve_args E O obj strict name))
    (fun args => bind (resolve E args)
                   (fun resolved => ret (dset name resolved acc))) s
  = (Ok acc', s1) →
  ∃ args p,
    protocols_resolve_args E O obj strict name = Ok args
    ∧ resolve E args s = (Ok p, s1)
    ∧ acc' = dset name p acc.
Proof.
  intros Hrun. apply run_bind_inv_Ok in Hrun as (args & s0 & Hargs & Hrun).
  injection Hargs as Hargs <-.
  apply run_bind_inv_Ok in Hrun as (p & s2 & Hres & Hrun).
  injection Hrun as <- <-. eauto.
Qed.

Lemma protocols_loop_entries obj strict names :
  ∀ acc (s s' : State) ann,
    protocols_loop E O obj strict names acc s = (Ok ann, s') →
    (∀ name, name ∈ dkeys ann ↔ name ∈ names ∨ name ∈ dkeys acc)
    ∧ (∀ name p, dget name ann = Some p →
         dget name acc = Some p
         ∨ ∃ args, protocols_resolve_args E O obj strict name = Ok args
                   ∧ dget args (lru_resolve s') = Some p).
Proof.
  induction names as [|n names IH]; intros acc s s' ann Hrun.
  - injection Hrun as <- <-. split; [|eauto].
    intros name. split; [eauto|]. intros [Hin|Hin]; [|exact Hin].
    apply elem_of_nil in Hin as [].
  - unfold protocols_loop in Hrun. simpl in Hrun.
    apply run_bind_inv_Ok in Hrun as (acc' & s1 & Hround & Hrest).
    apply protocols_round_Ok in Hround as (args & p0 & Hargs & Hres & ->).
    pose proof (protocols_loop_keeps obj strict names (dset n p0 acc) s1)
      as (_ & _ & Hkeep).
    unfold protocols_loop in Hkeep. rewrite Hrest in Hkeep. simpl in Hkeep.
    destruct (IH _ _ _ _ Hrest) as [Hkeys Hent]. split.
    + intros name. rewrite Hkeys, elem_of_dkeys_dset, elem_of_cons. tauto.
    + intros name p Hp. apply Hent in Hp as [Hp|Hp]; [|right; exact Hp].
      rewrite dget_dset in Hp. destruct (decide (name = n)) as [->|_];
        [|left; exact Hp].
      injection Hp as <-. right. exists args. split; [exact Hargs|].
      eapply Hkeep, resolve_stores, Hres.
Qed.

(** Running the loop again on a resolver that still has the memo entries
    gives the same mapping and changes nothing. *)
Lemma protocols_loop_replay obj strict names :
  ∀ acc (s s' : State) ann,
    protocols_loop E O obj strict names acc s = (Ok ann, s') →
    ∀ s2 : State,
      (∀ a p, dget a (lru_resolve s') = Some p →
              dget a (lru_resolve s2) = Some p) →
      protocols_loop E O obj strict names acc s2 = (Ok ann, s2).
Proof.
  induction names as [|n names IH]; intros acc s s' ann Hrun s2 Hs2.
  - injection Hrun as <- _. reflexivity.
  - unfold protocols_loop in *. simpl in *.
    apply run_bind_inv_Ok in Hrun as (acc' & s1 & Hround & Hrest).
    apply protocols_round_Ok in Hround as (args & p0 & Hargs & Hres & ->).
    pose proof (protocols_loop_keeps obj strict names (dset n p0 acc) s1)
      as (_ & _ & Hkeep).
    unfold protocols_loop in Hkeep. rewrite Hrest in Hkeep. simpl in Hkeep.
    assert (resolve E args s2 = (Ok p0, s2)) as Hhit.
    { eapply resolve_hit, Hs2, Hkeep, resolve_stores, Hres. }
    erewrite run_bind_Ok; [eapply IH; eassumption|].
    rewrite Hargs, run_bind_lift_Ok, (run_bind_Ok _ _ _ _ _ Hhit).
    reflexivity.
Qed.

(** The mapping [protocols] computes has one entry for each name among
    the parameters and the type hints of the class, and each entry is the
    resolver's memoized protocol for that name: [resolve], called again
    with the arguments of that round (the class as [namespace], the name,
    its parameter, [is_strict=strict]), returns the same object and
    leaves the resolver untouched. *)
Theorem protocols_entries_memoized (obj : T) (strict : bool)
    (w w' : World T Ext) (ann : dict string (ProtocolT T Ext)) :
  dget (obj, strict) (w_lru_protocols w) = None →
  protocols E O obj strict w = (Ok ann, w') →
  let cls := protocols_target O obj in
  (∀ name, name ∈ dkeys ann ↔ name ∈ protocols_names E O cls)
  ∧ (∀ name p, dget name ann = Some p →
       ∃ args,
         protocols_resolve_args E O cls strict name = Ok args
         ∧ resolve E args (w_state w') = (Ok p, w_state w')).
Proof.
  intros Hmiss Hrun cls. unfold protocols in Hrun.
  destruct (py_hashable O obj); [simpl in Hrun|discriminate Hrun].
  rewrite Hmiss in Hrun. unfold protocols_body in Hrun. fold cls in Hrun.
  destruct (protocols_loop E O cls strict (protocols_names E O cls) []
              (w_state w)) as [[ann0|e] s'] eqn:Hloop; [|discriminate].
  injection Hrun as <- <-. simpl.
  apply protocols_loop_entries in Hloop as [Hkeys Hent]. split.
  - intros name. rewrite Hkeys. split; [|eauto].
    intros [Hin|Hin]; [exact Hin|]. apply elem_of_nil in Hin as [].
  - intros name p Hp. apply Hent in Hp as [Hp|(args & Hargs & Hp)];
      [discriminate|].
    exists args. split; [exact Hargs|]. apply resolve_hit, Hp.
Qed.

(** An object that cannot be hashed never reaches the body. *)
Lemma protocols_unhashable (obj : T) (strict : bool) (w : World T Ext) :
  py_hashable O obj = false →
  protocols E O obj strict w = (Raise (Raised (TypeError_unhashable O)), w).
Proof. intros Hh. unfold protocols. rewrite Hh. reflexivity. Qed.

(** [protocols] works on the class: two hashable objects with the same
    class (an instance and its class, or two instances) get the same
    mapping, with the very same protocol objects, and the second call
    builds nothing, although it is not answered from the memo table of
    [protocols]. *)
Theorem protocols_same_for_class (obj1 obj2 : T) (strict : bool)
    (w w1 : World T Ext) (ann : dict string (ProtocolT T Ext)) :
  dget (obj1, strict) (w_lru_protocols w) = None →
  protocols E O obj1 strict w = (Ok ann, w1) →
  py_hashable O obj2 = true →
  protocols_target O obj2 = protocols_target O obj1 →
  dget (obj2, strict) (w_lru_protocols w1) = None →
  ∃ w2,
    protocols E O obj2 strict w1 = (Ok ann, w2)
    ∧ w_state w2 = w_state w1.
Proof.
  intros Hmiss Hrun Hhash Hcls Hmiss2. unfold protocols in *.
  rewrite Hhash. simpl.
  destruct (py_hashable O obj1); [simpl in Hrun|discriminate Hrun].
  rewrite Hmiss in Hrun. rewrite Hmiss2. unfold protocols_body in *.
  rewrite Hcls. set (cls := protocols_target O obj1) in *.
  destruct (protocols_loop E O cls strict (protocols_names E O cls) []
              (w_state w)) as [[ann0|e] s'] eqn:Hloop; [|discriminate].
  injection Hrun as <- <-. simpl.
  rewrite (protocols_loop_replay _ _ _ _ _ _ _ Hloop s') by auto.
  eexists. split; reflexivity.
Qed.

End Protocols.

(** ** The rest of the interface on the small universe *)

Section InitTables.
Context {T Ext ExtExn : Type} `{EqDecision T, EqDecision Ext}.
Context (E : Env T Ext ExtExn).

#[local] Abbreviation hoare := (hoare (T:=T) (Ext:=Ext) (ExtExn:=ExtExn)).

(** The constructor establishes the invariants of [__cache]. *)
Lemma init_wf_tables g :
  wf_first_wins (__init__ E (new_state g)).2
  ∧ wf_callable E (__init__ E (new_state g)).2.
Proof.
  assert (∀ a, hoare (fun s => wf_first_wins s ∧ wf_callable E s)
                 (resolve E a) (fun _ => True)) as Hres.
  { intros a s Hwf. split; [|intros; exact Logic.I].
    apply resolve_wf_tables, Hwf. }
  assert (hoare (fun s => wf_first_wins s ∧ wf_callable E s) (__init__ E)
            (fun _ => True)) as Hinit.
  { unfold __init__. apply hoare_for_each; [exact Logic.I|].
    intros [] typ _.
    eapply hoare_bind; [apply Hres|]. intros _ _.
    eapply hoare_bind; [apply Hres|]. intros _ _.
    eapply hoare_bind; [apply Hres|]. intros _ _.
    apply hoare_ret. exact Logic.I. }
  destruct (Hinit (new_state g) (new_state_wf_tables E g)) as [Hwf _].
  exact Hwf.
Qed.

End InitTables.

Lemma resolver_wf_tables :
  wf_first_wins Demo.resolver ∧ wf_callable Demo.env Demo.resolver.
Proof. apply (init_wf_tables Demo.env false). Qed.

(** [def f(x: int = None)]: the default makes the annotation optional. *)
Lemma annotation_optional_sticks_witness :
  ∃ a s',
    annotation Demo.env 100 Demo.int (Some "x") None None SNone None
      Demo.ONone None Demo.resolver = (Ok a, s')
    ∧ anno_optional a = true.
Proof.
  destruct (annotation Demo.env 100 Demo.int (Some "x") None None SNone None
              Demo.ONone None Demo.resolver) as [[a|e] s'] eqn:Hr;
    [|vm_compute in Hr; discriminate Hr].
  exists a, s'. split; [reflexivity|].
  apply (annotation_optional_sticks Demo.env 100 Demo.int (Some "x") None None
           SNone None Demo.ONone None Demo.resolver s' a Hr).
  right. right. apply (bool_decide_unpack _). vm_compute. exact Logic.I.
Defined.

(** [tags: int = []]: the list is replaced by [...]. *)
Lemma unhashable_default_optional_witness :
  ∃ a s',
    annotation Demo.env_lists 100 Demo.int (Some "tags") None None SNone None
      (Demo.OSubscript "list" []) None (new_state false) = (Ok a, s')
    ∧ param_default (anno_parameter a) = Demo.OEllipsis
    ∧ anno_optional a = true.
Proof.
  destruct (annotation Demo.env_lists 100 Demo.int (Some "tags") None None
              SNone None (Demo.OSubscript "list" []) None (new_state false))
    as [[a|e] s'] eqn:Hr; [|vm_compute in Hr; discriminate Hr].
  exists a, s'. split; [reflexivity|].
  apply (unhashable_default_optional Demo.env_lists 100 Demo.int (Some "tags")
           None SNone None (Demo.OSubscript "list" []) None (new_state false)
           s' a eq_refl Hr).
Defined.

Lemma explicit_strict_sticks_witness :
  ∃ a s',
    annotation Demo.env 100 Demo.User None None None (SBool true) None
      Demo.OEMPTY None Demo.resolver = (Ok a, s')
    ∧ anno_strict a = SBool true.
Proof.
  destruct (annotation Demo.env 100 Demo.User None None None (SBool true) None
              Demo.OEMPTY None Demo.resolver) as [[a|e] s'] eqn:Hr;
    [|vm_compute in Hr; discriminate Hr].
  exists a, s'. split; [reflexivity|].
  apply (explicit_strict_sticks Demo.env 100 Demo.User None None None None
           Demo.OEMPTY None Demo.resolver s' a Hr).
Defined.

(** [Union[int, str]] is not static. *)
Lemma non_static_no_fields_witness :
  ∃ resolved origin un_resolved p optional strict serde s',
    annotation Demo.env 100 (Union_ Demo.env [Demo.int; Demo.str]) None None
      None SNone None Demo.OEMPTY None Demo.resolver
    = (Ok (Annotation resolved origin un_resolved p optional strict false
             serde), s')
    ∧ serde = SerdeConfig_default SerdeFlags_default.
Proof.
  destruct (annotation Demo.env 100 (Union_ Demo.env [Demo.int; Demo.str])
              None None None SNone None Demo.OEMPTY None Demo.resolver)
    as [[[resolved origin un_resolved p optional strict [|] serde| |]|e] s']
    eqn:Hr; try (vm_compute in Hr; discriminate Hr).
  exists resolved, origin, un_resolved, p, optional, strict, serde, s'.
  split; [reflexivity|].
  apply (non_static_no_fields Demo.env 100
           (Union_ Demo.env [Demo.int; Demo.str]) None None None SNone None
           Demo.OEMPTY None Demo.resolver s' resolved origin un_resolved p
           optional strict serde Hr).
Defined.

(** A field of [User] annotated with the forward reference ["Later"]. *)
Lemma forward_reference_delayed_witness :
  ∃ oid anno s',
    resolve Demo.env (Demo.resolve_in Demo.User (Demo.OForwardRef "Later"))
      Demo.resolver
    = (Ok (DelayedSerdeProtocol oid anno), s')
    ∧ stack s' = [].
Proof.
  destruct (forward_reference_delayed Demo.env 100 (Demo.OForwardRef "Later")
              None None None SNone None Demo.OEMPTY (Some Demo.User) true true
              Demo.resolver)
    as (_ & Hres); [vm_compute; reflexivity..|].
  destruct (Hres eq_refl (proj2 resolver_wf)) as (oid & s' & Hr & Hst);
    [vm_compute; reflexivity|].
  exists oid. eexists. exists s'. split; [exact Hr|exact Hst].
Defined.

(** [User] with [fields=("user_name",)] and [omit=(str,)]. *)
Lemma omit_needs_listed_fields_witness :
  ∃ cfg s',
    Demo.configuration Demo.User
      (mkSerdeFlags (FieldsNames ["user_name"]) [] [Demo.str] None false)
    = (Ok cfg, s')
    ∧ "user_name" ∈ dkeys (serde_fields cfg).
Proof.
  destruct (Demo.configuration Demo.User
              (mkSerdeFlags (FieldsNames ["user_name"]) [] [Demo.str] None
                 false)) as [[cfg|e] s'] eqn:Hr;
    [|vm_compute in Hr; discriminate Hr].
  exists cfg, s'. split; [reflexivity|].
  pose proof Hr as Hr'. vm_compute in Hr'. injection Hr' as Hcfg _.
  apply (omit_needs_listed_fields Demo.env _ Demo.User _ Demo.resolver s' cfg
           (proj1 resolver_wf) Hr).
  - rewrite <- Hcfg. discriminate.
  - rewrite <- Hcfg. vm_compute. eauto.
Defined.

Lemma omitted_field_in_neither_map_witness :
  ∃ cfg s',
    Demo.configuration Demo.User
      (mkSerdeFlags (FieldsNames []) [] [Demo.str] None false)
    = (Ok cfg, s')
    ∧ dget "user_name" (serde_fields_out cfg) = None
    ∧ ∀ y, dget y (serde_fields_in cfg) ≠ Some "user_name".
Proof.
  destruct (Demo.configuration Demo.User
              (mkSerdeFlags (FieldsNames []) [] [Demo.str] None false))
    as [[cfg|e] s'] eqn:Hr; [|vm_compute in Hr; discriminate Hr].
  exists cfg, s'. split; [reflexivity|].
  pose proof Hr as Hr'. vm_compute in Hr'. injection Hr' as Hcfg _.
  eapply (omitted_field_in_neither_map Demo.env _ Demo.User _ Demo.resolver s'
            cfg "user_name" _ (proj1 resolver_wf) Hr).
  - rewrite <- Hcfg. vm_compute. reflexivity.
  - rewrite <- Hcfg. vm_compute. reflexivity.
Defined.

Lemma signature_only_fields_are_params_witness :
  ∃ cfg s',
    Demo.configuration Demo.User
      (mkSerdeFlags (FieldsNames []) [] [] None true)
    = (Ok cfg, s')
    ∧ ∀ x, x ∈ dkeys (serde_fields cfg) → x ∈ ["id"; "user_name"].
Proof.
  destruct (Demo.configuration Demo.User
              (mkSerdeFlags (FieldsNames []) [] [] None true))
    as [[cfg|e] s'] eqn:Hr; [|vm_compute in Hr; discriminate Hr].
  exists cfg, s'. split; [reflexivity|].
  pose proof Hr as Hr'. vm_compute in Hr'. injection Hr' as Hcfg _.
  apply (signature_only_fields_are_params Demo.env _ Demo.User _ Demo.resolver
           s' cfg (fun l x H => H) (proj1 resolver_wf) Hr).
  rewrite <- Hcfg. reflexivity.
Defined.

(** A class [Thing] asked for without deserializer and serializer first. *)
Lemma first_protocol_wins_witness :
  let anno :=
    Annotation (Demo.OClass "Thing") (Demo.OClass "Thing")
      (Demo.OClass "Thing")
      (mkParam "_" POSITIONAL_OR_KEYWORD (Demo.OClass "Thing") Demo.OEMPTY)
      false SNone true (SerdeConfig_default SerdeFlags_default) in
  ∃ oid s1 s2,
    _resolve_from_annotation Demo.env anno false false None Demo.resolver
    = (Ok (SerdeProtocol oid anno None None None None), s1)
    ∧ _resolve_from_annotation Demo.env anno true true None s1
      = (Ok (SerdeProtocol oid anno None None None None), s2)
    ∧ builds s2 = builds s1.
Proof.
  intros anno.
  assert (∃ oid s1,
            _resolve_from_annotation Demo.env anno false false None
              Demo.resolver
            = (Ok (SerdeProtocol oid anno None None None None), s1))
    as (oid & s1 & Hr) by (do 2 eexists; vm_compute; reflexivity).
  destruct (first_protocol_wins Demo.env anno false false None Demo.resolver
              s1 _ true true None (proj1 resolver_wf_tables) Hr eq_refl)
    as (s2 & Hr2 & _ & Hb & _).
  exists oid, s1, s2. split; [exact Hr|]. split; [exact Hr2|exact Hb].
Defined.

Lemma callable_protocol_empty_witness :
  let anno :=
    Annotation (Demo.OClass "Callable") (Demo.OClass "Callable")
      (Demo.OClass "Callable")
      (mkParam "_" POSITIONAL_OR_KEYWORD (Demo.OClass "Callable") Demo.OEMPTY)
      false SNone true (SerdeConfig_default SerdeFlags_default) in
  ∃ oid s1,
    _resolve_from_annotation Demo.env anno true true None Demo.resolver
    = (Ok (SerdeProtocol oid anno None None None None), s1).
Proof.
  intros anno.
  destruct (_resolve_from_annotation Demo.env anno true true None
              Demo.resolver) as [[p|e] s1] eqn:Hr;
    [|vm_compute in Hr; discriminate Hr].
  destruct (callable_protocol_empty Demo.env anno true true None Demo.resolver
              s1 p (proj1 resolver_wf_tables) (proj2 resolver_wf_tables) Hr
              eq_refl) as [oid ->].
  exists oid, s1. reflexivity.
Defined.

Lemma init_preresolves_witness :
  ∃ p,
    resolve Demo.env (resolve_args (Optional_ Demo.env Demo.str))
      Demo.resolver
    = (Ok p, Demo.resolver).
Proof.
  assert (__init__ Demo.env (new_state false) = (Ok tt, Demo.resolver)) as Hrun
    by (vm_compute; reflexivity).
  apply (init_preresolves Demo.env (new_state false) Demo.resolver Hrun
           Demo.str).
  - apply list_elem_of_further, list_elem_of_here.
  - apply list_elem_of_further, list_elem_of_here.
Defined.

(** [Color["RED"]], whose value is ["red"]. *)
Lemma enum_member_as_value_witness :
  primitive Demo.env Demo.objects Demo.RED false None Demo.resolver
  = primitive Demo.env Demo.objects (Demo.OStr "red") false None
      Demo.resolver.
Proof.
  exact (proj1 (enum_member_as_value Demo.env Demo.objects Demo.RED
                  eq_refl eq_refl) false None Demo.resolver).
Defined.

Lemma interface_uses_memoized_protocol_witness :
  ∃ p s,
    resolve Demo.env (resolve_args Demo.User) Demo.resolver = (Ok p, s)
    ∧ ∀ v, validate Demo.env Demo.objects Demo.User v true s
           = match proto_validate Demo.objects p v s with
             | (Ok v', s') => proto_transmute Demo.env p v' s'
             | (Raise e, s') => (Raise e, s')
             end.
Proof.
  destruct (resolve Demo.env (resolve_args Demo.User) Demo.resolver)
    as [[p|e] s] eqn:Hr; [|vm_compute in Hr; discriminate Hr].
  exists p, s. split; [reflexivity|].
  exact (proj1 (proj2 (proj2 (interface_uses_memoized_protocol Demo.env
                               Demo.objects Demo.User Demo.resolver s p Hr)))).
Defined.

Lemma unknown_type_not_delayed_witness :
  delayed Demo.env Demo.objects Demo.User = PyFalse Demo.objects.
Proof.
  exact (unknown_type_not_delayed Demo.env Demo.objects Demo.User eq_refl).
Defined.

Lemma protocols_entries_memoized_witness :
  ∃ ann w',
    protocols Demo.env Demo.objects Demo.User false Demo.world = (Ok ann, w')
    ∧ (∀ name, name ∈ dkeys ann ↔ name ∈ ["id"; "user_name"])
    ∧ (∀ name p, dget name ann = Some p →
         ∃ args,
           protocols_resolve_args Demo.env Demo.objects Demo.User false name
           = Ok args
           ∧ resolve Demo.env args (w_state w') = (Ok p, w_state w')).
Proof.
  destruct (protocols Demo.env Demo.objects Demo.User false Demo.world)
    as [[ann|e] w'] eqn:Hr; [|vm_compute in Hr; discriminate Hr].
  exists ann, w'. split; [reflexivity|].
  exact (protocols_entries_memoized Demo.env Demo.objects Demo.User false
           Demo.world w' ann eq_refl Hr).
Defined.

(** [protocols(Point(0, 0))], then [protocols(Point)]: [Point] is a frozen
    dataclass, so the instance can be hashed. *)
Lemma protocols_same_for_class_witness :
  ∃ ann w1 w2,
    protocols Demo.env_frozen Demo.objects_frozen Demo.origin_point false
      Demo.world_frozen = (Ok ann, w1)
    ∧ dkeys ann = ["x"; "y"]
    ∧ protocols Demo.env_frozen Demo.objects_frozen (Demo.OClass "Point")
        false w1 = (Ok ann, w2)
    ∧ w_state w2 = w_state w1.
Proof.
  destruct (protocols Demo.env_frozen Demo.objects_frozen Demo.origin_point
              false Demo.world_frozen) as [[ann|e] w1] eqn:Hr;
    [|vm_compute in Hr; discriminate Hr].
  pose proof Hr as Hr'. vm_compute in Hr'. injection Hr' as Hann Hw.
  destruct (protocols_same_for_class Demo.env_frozen Demo.objects_frozen
              Demo.origin_point (Demo.OClass "Point") false Demo.world_frozen
              w1 ann eq_refl Hr eq_refl eq_refl)
    as (w2 & Hr2 & Hst).
  - rewrite <- Hw. vm_compute. reflexivity.
  - exists ann, w1, w2. split; [reflexivity|].
    split; [rewrite <- Hann; vm_compute; reflexivity|].
    split; [exact Hr2|exact Hst].
Defined.

(** [protocols(alice)]: an instance of the plain dataclass [User] is
    refused by the [lru_cache]. *)
Lemma protocols_plain_dataclass_instance :
  protocols Demo.env Demo.objects Demo.alice false Demo.world
  = (Raise (Raised "TypeError: unhashable type"), Demo.world).
Proof. apply (protocols_unhashable Demo.env Demo.objects). reflexivity. Qed.

(** ** The arguments [protocols] hands to [resolve] *)

Section ProtocolsArguments.
Context {T Ext ExtExn : Type} `{EqDecision T, EqDecision Ext}.
Context (E : Env T Ext ExtExn) (O : Objects T Ext ExtExn).



End ProtocolsArguments.

